(** * ansible_runner.utils: a shallow embedding and its verified properties

    The development follows [src/ansible_runner/utils/__init__.py]:

    - Python [str] values are lists of Unicode code points ([text]);
    - loosely typed Python values (decoded JSON, the keyword bag of
      [dump_artifacts], the data handed to [open_fifo_write]) are [pyval];
    - a [dict] is an insertion-ordered association list with unique keys;
    - functions of the Python standard library whose bodies are not part of
      the repository ([uuid.uuid4], [json.loads] after [base64.b64decode],
      [json.dumps], [hashlib.sha1], ...) are fields of the class [PyLib];
    - an exception is an element of [exn]; a call that can raise returns an
      [outcome] next to the state it leaves behind;
    - effects on objects the caller owns (the event callback, [sys.stdout],
      the transcript handle) are returned as a chronological trace.

    Part I holds the definitions, Part II the lemmas and theorems. *)

From Stdlib Require Import Strings.String Strings.Ascii.
From Stdlib Require Import List NArith ZArith Bool Lia PrimFloat.
From Stdlib Require Import Permutation Sorted.
Import ListNotations.

Set Implicit Arguments.
Set Warnings "-register-all".

(* ================================================================== *)
(** * Part I: definitions *)
(* ================================================================== *)

(** ** Text *)

Definition char := N.
Definition text := list char.

(** A string literal of the source, as text. *)
Definition lit (s : string) : text := map N_of_ascii (list_ascii_of_string s).

Definition LF : char := 10%N.
Definition CR : char := 13%N.
Definition ESC : char := 27%N.

Definition text_eqb (a b : text) : bool :=
  if list_eq_dec N.eq_dec a b then true else false.

Definition is_nil {A} (l : list A) : bool :=
  match l with [] => true | _ => false end.

Definition mem_char (c : char) (cs : text) : bool := existsb (N.eqb c) cs.

Fixpoint starts_with (p t : text) : bool :=
  match p, t with
  | [], _ => true
  | a :: p', b :: t' => N.eqb a b && starts_with p' t'
  | _ :: _, [] => false
  end.

(** [p in t] *)
Fixpoint contains (p t : text) : bool :=
  starts_with p t || match t with [] => false | _ :: t' => contains p t' end.

(** [t.count(c)] for a one-character [c] *)
Fixpoint count_char (c : char) (t : text) : Z :=
  match t with
  | [] => 0%Z
  | d :: t' => ((if N.eqb d c then 1 else 0) + count_char c t')%Z
  end.

(** [t.rstrip(cs)] *)
Fixpoint rstrip (cs : text) (t : text) : text :=
  match t with
  | [] => []
  | c :: t' =>
      match rstrip cs t' with
      | [] => if mem_char c cs then [] else [c]
      | r => c :: r
      end
  end.

(** The line boundaries of [str.splitlines]: LF, VT, FF, CR, FS, GS, RS, NEL,
    LINE SEPARATOR and PARAGRAPH SEPARATOR; CR LF counts as one boundary. *)
Definition is_linebreak (c : char) : bool :=
  mem_char c [10; 11; 12; 13; 28; 29; 30; 133; 8232; 8233]%N.

Definition head_is (c : char) (t : text) : bool :=
  match t with d :: _ => N.eqb d c | [] => false end.

(** Does the character [c], followed by [t], end a line? *)
Definition ends_line (c : char) (t : text) : bool :=
  is_linebreak c && negb (N.eqb c CR && head_is LF t).

(** [t.splitlines(True)]: the lines of [t], each with its line ending. *)
Fixpoint splitlines (t : text) : list text :=
  match t with
  | [] => []
  | c :: t' =>
      if ends_line c t' then [c] :: splitlines t'
      else match splitlines t' with
           | [] => [[c]]
           | l :: ls => (c :: l) :: ls
           end
  end.

(** ** Python values *)

Inductive pyval : Type :=
| PNone
| PBool (b : bool)
| PInt (z : Z)
| PFloat (f : float)
| PStr (s : text)
| PBytes (b : list N)
| PByteArray (b : list N)
| PList (l : list pyval)
| PDict (d : list (text * pyval)).

Definition dict := list (text * pyval).

(** Truth value testing ([if v:], [v or w]). *)
Definition truthy (v : pyval) : bool :=
  match v with
  | PNone => false
  | PBool b => b
  | PInt z => negb (Z.eqb z 0)
  | PFloat f => negb (PrimFloat.eqb f 0)
  | PStr s => negb (is_nil s)
  | PBytes b => negb (is_nil b)
  | PByteArray b => negb (is_nil b)
  | PList l => negb (is_nil l)
  | PDict d => negb (is_nil d)
  end.

(** [d.get(k)] *)
Fixpoint dict_get (k : text) (d : dict) : option pyval :=
  match d with
  | [] => None
  | (k', v) :: d' => if text_eqb k k' then Some v else dict_get k d'
  end.

(** [k in d] *)
Definition dict_has (k : text) (d : dict) : bool :=
  match dict_get k d with Some _ => true | None => false end.

(** [d[k] = v]: an existing key keeps its place, a new one goes last. *)
Fixpoint dict_set (k : text) (v : pyval) (d : dict) : dict :=
  match d with
  | [] => [(k, v)]
  | (k', v') :: d' =>
      if text_eqb k k' then (k, v) :: d' else (k', v') :: dict_set k v d'
  end.

(** The dict left by [d.pop(k, default)] *)
Definition dict_del (k : text) (d : dict) : dict :=
  List.filter (fun e => negb (text_eqb k (fst e))) d.

(** Truthiness of [d.get(k)], where a missing key gives [None]. *)
Definition get_truthy (k : text) (d : dict) : bool :=
  match dict_get k d with Some v => truthy v | None => false end.

(** ** Exceptions *)

Inductive exn : Type :=
| AttributeError
| IndexError
| ValueError
| TypeError
| FileNotFoundError
| NotADirectoryError
| FileExistsError
| IsADirectoryError
| BinasciiError
| UnicodeDecodeError
| UnicodeEncodeError
| JSONDecodeError
| RecursionError.

(** [isinstance(e, ValueError)], which is what [except ValueError] tests:
    [binascii.Error], [UnicodeDecodeError], [UnicodeEncodeError] and
    [json.JSONDecodeError] are subclasses of [ValueError]. *)
Definition is_ValueError (e : exn) : bool :=
  match e with
  | ValueError | BinasciiError | UnicodeDecodeError | UnicodeEncodeError
  | JSONDecodeError => true
  | _ => false
  end.

Inductive outcome : Type :=
| Returned
| Raised (e : exn).

Inductive result (A : Type) : Type :=
| Ok (a : A)
| Raise (e : exn).
Arguments Ok {A} a.
Arguments Raise {A} e.

(** ** Library functions *)

(** What the module calls but does not define.
    - [uuid4 n]: the text of the [n]-th identifier drawn from [uuid.uuid4()];
    - [b64_json_loads s]: [json.loads(base64.b64decode(s).decode('utf-8'))],
      the value or the exception it raises: [binascii.Error],
      [UnicodeDecodeError] or [json.JSONDecodeError] for a payload that does
      not decode, and [RecursionError] for one nested too deeply;
    - [json_dumps]: [json.dumps], on the values it accepts;
    - [unicode_Nd]: the Unicode decimal digits, which is what [\d] matches in
      a [str] pattern;
    - [json_load c]: [json.load] of a file opened with [codecs.open] whose
      decoded content is [c], the value or the exception it raises;
    - [sha1_hexdigest s]: the hexadecimal SHA-1 digest of [s.encode('UTF-8')];
    - [mkdtemp ps], [mkstemp ps d]: the path [tempfile.mkdtemp()] creates and
      the path [tempfile.mkstemp(dir=d)] creates, when the paths [ps] exist;
    - [py_str]: [str]; [str_encode]: [str.encode], which raises
      [UnicodeEncodeError] on a lone surrogate. *)
Class PyLib : Type := {
  uuid4 : nat -> text;
  b64_json_loads : text -> result pyval;
  json_dumps : pyval -> text;
  unicode_Nd : char -> bool;
  json_load : text -> result pyval;
  sha1_hexdigest : text -> text;
  mkdtemp : list text -> text;
  mkstemp : list text -> text -> text;
  py_str : pyval -> text;
  str_encode : text -> result (list N)
}.

(** [json.dumps] raises [TypeError] on a value that holds [bytes] or a
    [bytearray]; every other value of [pyval] is serializable. *)
Fixpoint serializable (v : pyval) : bool :=
  match v with
  | PBytes _ | PByteArray _ => false
  | PList l => forallb serializable l
  | PDict d =>
      (fix all (d : list (text * pyval)) : bool :=
         match d with
         | [] => true
         | (_, w) :: d' => serializable w && all d'
         end) d
  | _ => true
  end.

Definition dumps {L : PyLib} (v : pyval) : result text :=
  if serializable v then Ok (json_dumps v) else Raise TypeError.

(** ** The event token pattern

    [EVENT_DATA_RE = \x1b\[K((?:[A-Za-z0-9+/=]+\x1b\[\d+D)+)\x1b\[K].

    After the opening marker the pattern is deterministic: a payload fragment
    is a maximal run of base64 characters and must be followed by ESC; the
    digits of a cursor escape are a maximal run and must be followed by [D];
    after [D] a base64 character starts the next pair and ESC starts the
    closing marker.  So a match from a given position is unique, and the
    backtracking matcher finds it exactly when the automaton below accepts. *)

Definition is_b64 (c : char) : bool :=
  ((65 <=? c) && (c <=? 90) || (97 <=? c) && (c <=? 122) ||
   (48 <=? c) && (c <=? 57) || (c =? 43) || (c =? 47) || (c =? 61))%N.

Definition marker : text := [27; 91; 75]%N.   (* ESC [ K *)

Inductive tstate : Type :=
| TStart          (* a payload fragment must start *)
| TFrag           (* inside a payload fragment *)
| TEsc            (* ESC after a fragment *)
| TBracket        (* ESC [ after a fragment: a digit must follow *)
| TDigits         (* inside the digits *)
| TPair           (* after D: another pair or the closing marker *)
| TCloseEsc       (* ESC after a pair *)
| TCloseBracket.  (* ESC [ after a pair: K must follow *)

Inductive tstep : Type :=
| Dead
| Accept
| Go (q : tstate).

Section Patterns.
Context {L : PyLib}.

Definition token_step (q : tstate) (c : char) : tstep :=
  match q with
  | TStart => if is_b64 c then Go TFrag else Dead
  | TFrag => if is_b64 c then Go TFrag else if N.eqb c 27 then Go TEsc else Dead
  | TEsc => if N.eqb c 91 then Go TBracket else Dead
  | TBracket => if unicode_Nd c then Go TDigits else Dead
  | TDigits =>
      if unicode_Nd c then Go TDigits else if N.eqb c 68 then Go TPair else Dead
  | TPair =>
      if is_b64 c then Go TFrag else if N.eqb c 27 then Go TCloseEsc else Dead
  | TCloseEsc => if N.eqb c 91 then Go TCloseBracket else Dead
  | TCloseBracket => if N.eqb c 75 then Accept else Dead
  end.

(** The number of characters read from state [q] up to acceptance. *)
Fixpoint token_run (q : tstate) (t : text) : option nat :=
  match t with
  | [] => None
  | c :: t' =>
      match token_step q c with
      | Dead => None
      | Accept => Some 1
      | Go q' => option_map S (token_run q' t')
      end
  end.

(** The length of the token that starts at the head of [t], if one does. *)
Definition token_at (t : text) : option nat :=
  if starts_with marker t
  then option_map (fun n => 3 + n) (token_run TStart (skipn 3 t))
  else None.

(** [EVENT_DATA_RE.search(value)], as
    [(value[:m.start()], m.group(1), value[m.end():])]. *)
Fixpoint re_search (t : text) : option (text * text * text) :=
  match token_at t with
  | Some n => Some ([], firstn (n - 6) (skipn 3 t), skipn n t)
  | None =>
      match t with
      | [] => None
      | c :: t' =>
          match re_search t' with
          | Some (p, g, r) => Some (c :: p, g, r)
          | None => None
          end
      end
  end.

(** [re.sub(r'\x1b\[\d+D', '', s)].  The characters held back while an
    escape may still complete are ESC, then [[], then digits; when the escape
    fails they are copied out, and only the failing character can start a
    new escape. *)
Inductive cstate : Type :=
| CNone
| CEsc
| CBracket
| CDigits (ds : text).

Definition held (q : cstate) : text :=
  match q with
  | CNone => []
  | CEsc => [27%N]
  | CBracket => [27; 91]%N
  | CDigits ds => 27%N :: 91%N :: ds
  end.

Fixpoint strip_from (q : cstate) (t : text) : text :=
  match t with
  | [] => held q
  | c :: t' =>
      let restart :=
        held q ++ (if N.eqb c 27 then strip_from CEsc t'
                   else c :: strip_from CNone t') in
      match q with
      | CNone => restart
      | CEsc => if N.eqb c 91 then strip_from CBracket t' else restart
      | CBracket => if unicode_Nd c then strip_from (CDigits [c]) t' else restart
      | CDigits ds =>
          if unicode_Nd c then strip_from (CDigits (ds ++ [c])) t'
          else if N.eqb c 68 then strip_from CNone t'
          else restart
      end
  end.

Definition re_sub_cursor (s : text) : text := strip_from CNone s.

End Patterns.

(** ** OutputEventFilter *)

(** The constructor's arguments that stay fixed: whether a transcript handle
    was given, and the two flags. *)
Record options : Type := {
  handle : bool;
  suppress_ansible_output : bool;
  output_json : bool
}.

(** The attributes of an instance.  [uuid_drawn] counts the calls of
    [uuid.uuid4()] made so far; it is not an attribute of the source. *)
Record OutputEventFilter : Type := {
  counter : Z;
  start_line : Z;
  buffer : text;
  last_chunk : text;
  current_event_data : option dict;
  uuid_drawn : nat
}.

(** [__init__] *)
Definition new_filter : OutputEventFilter :=
  {| counter := 0; start_line := 0; buffer := []; last_chunk := [];
     current_event_data := None; uuid_drawn := 0 |}.

(** What a call does to the objects around the filter.  [Callback chunk ev]
    is one call [self._event_callback(ev)], with the content [ev] has at the
    time of the call; [chunk], the piece of output the event was made from,
    is recorded beside it for reference and is not passed to the callback. *)
Inductive effect : Type :=
| Callback (chunk : text) (ev : dict)
| StdoutWrite (t : text)
| StdoutFlush
| HandleWrite (t : text)
| HandleFlush
| HandleClose.

Definition with_buffer (s : OutputEventFilter) (b : text) : OutputEventFilter :=
  {| counter := counter s; start_line := start_line s; buffer := b;
     last_chunk := last_chunk s; current_event_data := current_event_data s;
     uuid_drawn := uuid_drawn s |}.

Definition with_last_chunk (s : OutputEventFilter) (c : text) : OutputEventFilter :=
  {| counter := counter s; start_line := start_line s; buffer := buffer s;
     last_chunk := c; current_event_data := current_event_data s;
     uuid_drawn := uuid_drawn s |}.

Definition with_current (s : OutputEventFilter) (d : option dict) : OutputEventFilter :=
  {| counter := counter s; start_line := start_line s; buffer := buffer s;
     last_chunk := last_chunk s; current_event_data := d;
     uuid_drawn := uuid_drawn s |}.

Section Decoder.
Context {L : PyLib}.
Variable opt : options.

(** [event_data.get('event') == 'verbose'] *)
Definition is_verbose (ed : dict) : bool :=
  match dict_get (lit "event") ed with
  | Some (PStr s) => text_eqb s (lit "verbose")
  | _ => false
  end.

(** One turn of the loop over [stdout_chunks] in [_emit_event]. *)
Definition emit_chunk (s : OutputEventFilter) (ed : dict) (stdout_chunk : text)
  : OutputEventFilter * dict * effect :=
  let ed1 := if is_verbose ed
             then dict_set (lit "uuid") (PStr (uuid4 (uuid_drawn s))) ed
             else ed in
  let drawn := if is_verbose ed then S (uuid_drawn s) else uuid_drawn s in
  let c := (counter s + 1)%Z in
  let ed2 := dict_set (lit "counter") (PInt c) ed1 in
  let ed3 := dict_set (lit "stdout") (PStr (rstrip [LF; CR] stdout_chunk)) ed2 in
  let n_lines := count_char LF stdout_chunk in
  let ed4 := dict_set (lit "start_line") (PInt (start_line s)) ed3 in
  let ed5 := dict_set (lit "end_line") (PInt (start_line s + n_lines)) ed4 in
  ({| counter := c; start_line := (start_line s + n_lines)%Z;
      buffer := buffer s; last_chunk := last_chunk s;
      current_event_data := current_event_data s; uuid_drawn := drawn |},
   ed5, Callback stdout_chunk ed5).

Fixpoint emit_chunks (s : OutputEventFilter) (ed : dict) (stdout_chunks : list text)
  : OutputEventFilter * dict * list effect :=
  match stdout_chunks with
  | [] => (s, ed, [])
  | c :: cs =>
      let '(s1, ed1, e) := emit_chunk s ed c in
      let '(s2, ed2, es) := emit_chunks s1 ed1 cs in
      (s2, ed2, e :: es)
  end.

(** [next_event_data or {}] *)
Definition or_empty (next_event_data : option pyval) : pyval :=
  match next_event_data with
  | Some v => if truthy v then v else PDict []
  | None => PDict []
  end.

(** [if self._current_event_data:] *)
Definition pending (s : OutputEventFilter) : option dict :=
  match current_event_data s with
  | Some d => if is_nil d then None else Some d
  | None => None
  end.

(** [_emit_event(buffered_stdout, next_event_data)].  The last statement
    calls [.get] on [next_event_data]; a value that is not a mapping has no
    such attribute, and the call raises after the events were delivered and
    before [_current_event_data] is assigned. *)
Definition _emit_event (s : OutputEventFilter) (buffered_stdout : text)
    (next_event_data : option pyval) : OutputEventFilter * list effect * result dict :=
  let next := or_empty next_event_data in
  let '(event_data, stdout_chunks) :=
    match pending s with
    | Some d => (d, [buffered_stdout])
    | None =>
        if negb (is_nil buffered_stdout)
        then ([(lit "event", PStr (lit "verbose"))], splitlines buffered_stdout)
        else ([], [])
    end in
  let '(s1, ed, tr) := emit_chunks s event_data stdout_chunks in
  match next with
  | PDict d =>
      (with_current s1 (if get_truthy (lit "uuid") d then Some d else None),
       tr, Ok ed)
  | _ => (s1, tr, Raise AttributeError)
  end.

(** The payload of a matched token: the [try]/[except ValueError] of
    [write].  An exception that is not a [ValueError] is not caught. *)
Definition decode_payload (group1 : text) : result pyval :=
  match b64_json_loads (re_sub_cursor group1) with
  | Ok v => Ok v
  | Raise e => if is_ValueError e then Ok (PDict []) else Raise e
  end.

(** The echo of one decoded event to the console and the transcript. *)
Definition echo (stdout_actual : text) : list effect :=
  (if suppress_ansible_output opt then []
   else [StdoutWrite stdout_actual; StdoutWrite [LF]; StdoutFlush]) ++
  (if handle opt then [HandleWrite (stdout_actual ++ [LF]); HandleFlush]
   else []).

(** [if stdout_actual and stdout_actual != "{}":] and the writes under it;
    a value that is not text cannot be written or joined to a newline. *)
Definition shown (stdout_actual : option pyval) : result (list effect) :=
  match stdout_actual with
  | Some (PStr t) =>
      if negb (is_nil t) && negb (text_eqb t (lit "{}"))
      then Ok (echo t) else Ok []
  | Some v =>
      if truthy v && (negb (suppress_ansible_output opt) || handle opt)
      then Raise TypeError else Ok []
  | None => Ok []
  end.

(** The [while should_search:] loop of [write].  It ends by [break] when the
    buffer holds no token, or by an exception; every turn shortens the
    buffer, so [fuel] larger than the buffer is never used up
    ([search_loop_fuel] in Part II), and [None] is not an outcome of
    [write]. *)
Fixpoint search_loop (fuel : nat) (s : OutputEventFilter)
  : option (OutputEventFilter * list effect * outcome) :=
  match fuel with
  | O => None
  | S fuel' =>
      let value := buffer s in
      match re_search value with
      | None => Some (s, [], Returned)
      | Some (before, group1, remainder) =>
          match decode_payload group1 with
          | Raise e => Some (s, [], Raised e)
          | Ok event_data =>
          match _emit_event s before (Some event_data) with
          | (s1, tr, Raise e) => Some (s1, tr, Raised e)
          | (s1, tr, Ok ed) =>
              let stdout_actual :=
                if negb (output_json opt) then Ok (dict_get (lit "stdout") ed)
                else match dumps (PDict ed) with
                     | Ok t => Ok (Some (PStr t))
                     | Raise e => Raise e
                     end in
              match stdout_actual with
              | Raise e => Some (s1, tr, Raised e)
              | Ok stdout_actual =>
                  let s2 := with_buffer s1 remainder in
                  match shown stdout_actual with
                  | Raise e => Some (s2, tr, Raised e)
                  | Ok es =>
                      match search_loop fuel' (with_last_chunk s2 remainder) with
                      | Some (s3, tr3, o) => Some (s3, tr ++ es ++ tr3, o)
                      | None => None
                      end
                  end
              end
          end
          end
      end
  end.

(** The [for line in lines:] loop of the [else] branch. *)
Fixpoint emit_lines (s : OutputEventFilter) (lines : list text) : OutputEventFilter * list effect :=
  match lines with
  | [] => (s, [])
  | line :: rest =>
      let '(s1, tr, _) := _emit_event s line None in
      let es :=
        (if suppress_ansible_output opt then [] else [StdoutWrite line]) ++
        (if handle opt then [HandleWrite line; HandleFlush] else []) in
      let '(s2, tr2) := emit_lines s1 rest in
      (s2, tr ++ es ++ tr2)
  end.

(** The [else] branch of the loop: verbose output outside of event data. *)
Definition flush_lines (s : OutputEventFilter) (data : text)
  : OutputEventFilter * list effect * outcome :=
  if negb (is_nil data) && contains [LF] data
     && match current_event_data s with None => true | Some _ => false end
  then
    let lines := splitlines (buffer s) in
    match lines with
    | [] => (s, [], Raised IndexError)
    | _ :: _ =>
        let last_line := last lines [] in
        let '(lines1, remainder) :=
          if negb (contains [LF] last_line)
          then (removelast lines, Some last_line)
          else (lines, None) in
        let '(s1, tr) := emit_lines s lines1 in
        (with_buffer s1 (match remainder with Some r => r | None => [] end),
         tr, Returned)
    end
  else (s, [], Returned).

(** [write(data)] *)
Definition write (s : OutputEventFilter) (data : text) : OutputEventFilter * list effect * outcome :=
  let s1 := with_buffer s (buffer s ++ data) in
  let should_search := contains marker (last_chunk s ++ data) in
  let s2 := with_last_chunk s1 data in
  if should_search
  then match search_loop (S (List.length (buffer s2))) s2 with
       | Some r => r
       | None => (s2, [], Returned)
       end
  else flush_lines s2 data.

(** [close()] *)
Definition close (s : OutputEventFilter) : OutputEventFilter * list effect :=
  let value := buffer s in
  let '(s1, tr) :=
    if negb (is_nil value)
    then let '(s1, tr, _) := _emit_event s value None in (with_buffer s1 [], tr)
    else (s, []) in
  (s1, tr ++ [Callback [] [(lit "event", PStr (lit "EOF"))]]
          ++ (if handle opt then [HandleClose] else [])).

(** A session: the chunks are written in turn to one instance, and [close]
    is called when no [write] raised. *)
Fixpoint feed (s : OutputEventFilter) (chunks : list text) : OutputEventFilter * list effect * outcome :=
  match chunks with
  | [] => (s, [], Returned)
  | c :: cs =>
      match write s c with
      | (s1, tr, Raised e) => (s1, tr, Raised e)
      | (s1, tr, Returned) =>
          let '(s2, tr2, o) := feed s1 cs in (s2, tr ++ tr2, o)
      end
  end.

Definition session (chunks : list text) : list effect * outcome :=
  match feed new_filter chunks with
  | (s, tr, Raised e) => (tr, Raised e)
  | (s, tr, Returned) => let '(_, tr2) := close s in (tr ++ tr2, Returned)
  end.

End Decoder.

(** The events delivered to the callback, in order. *)
Fixpoint delivered (tr : list effect) : list dict :=
  match tr with
  | [] => []
  | Callback _ ev :: tr' => ev :: delivered tr'
  | _ :: tr' => delivered tr'
  end.

(** The same with the piece of output each event was made from. *)
Fixpoint delivered_from (tr : list effect) : list (text * dict) :=
  match tr with
  | [] => []
  | Callback c ev :: tr' => (c, ev) :: delivered_from tr'
  | _ :: tr' => delivered_from tr'
  end.

(** ** collect_new_events *)

Definition is_ascii_digit (c : char) : bool := ((48 <=? c) && (c <=? 57))%N.

Fixpoint drop_digits (t : text) : text :=
  match t with
  | c :: t' => if is_ascii_digit c then drop_digits t' else t
  | [] => []
  end.

Definition ends_with (p t : text) : bool := starts_with (rev p) (rev t).

(** [.+json] up to the end of the text: some character that is not a newline,
    then [json], where [.] matches everything but a newline. *)
Definition dot_plus_json (r : text) : bool :=
  negb (mem_char LF r) && (5 <=? List.length r) && ends_with (lit "json") r.

(** [re.match("^[0-9]+-.+json$", name)]: [$] matches at the end of the text
    and also just before a newline that ends it. *)
Definition event_file_re (name : text) : bool :=
  let rest := drop_digits name in
  (List.length rest <? List.length name) &&
  match rest with
  | 45%N :: r =>
      dot_plus_json r ||
      (ends_with [LF] r && dot_plus_json (removelast r))
  | _ => false
  end.

(** [name.split("-", 1)[0]] *)
Fixpoint before_dash (t : text) : text :=
  match t with
  | [] => []
  | c :: t' => if N.eqb c 45 then [] else c :: before_dash t'
  end.

(** [int(s)] for a text [s] of ASCII digits, which is what the names kept by
    the filter have before their first dash. *)
Definition int_of_digits (s : text) : Z :=
  fold_left (fun acc c => (acc * 10 + (Z.of_N c - 48))%Z) s 0%Z.

Definition sequence_number (name : text) : Z := int_of_digits (before_dash name).

(** [list.sort(key=...)] is stable: insertion from the right puts an element
    before the first one whose key is not smaller. *)
Section StableSort.
Variable A : Type.
Variable key : A -> Z.

Fixpoint insert_by (x : A) (l : list A) : list A :=
  match l with
  | [] => [x]
  | y :: l' => if (key x <=? key y)%Z then x :: y :: l' else y :: insert_by x l'
  end.

Fixpoint sort_by (l : list A) : list A :=
  match l with
  | [] => []
  | x :: l' => insert_by x (sort_by l')
  end.
End StableSort.

(** A directory of event files: the names in the order [os.listdir] gives
    them, each with the decoded content of its file. *)
Definition event_dir := list (text * text).

Definition selected (old_events : dict) (each_file : text) : bool :=
  event_file_re each_file &&
  (negb (contains (lit "-partial") each_file) &&
   negb (dict_has each_file old_events)).

(** One item the generator yields: the event and [old_events] as it is at
    that moment (the caller is handed the same dict every time); the name of
    the file is recorded beside them for reference. *)
Record yielded : Type := {
  y_file : text;
  y_event : pyval;
  y_seen : dict
}.

Section Poller.
Context {L : PyLib}.

(** The loop over [dir_events_actual]; the result is what a caller that
    exhausts the generator receives, [old_events] as the call leaves it, and
    how the generator ends: by [StopIteration], which is [Returned], or by
    the exception of [json.load] that [except ValueError] does not catch. *)
Fixpoint read_events (files : list (text * text)) (old_events : dict)
  : list yielded * dict * outcome :=
  match files with
  | [] => ([], old_events, Returned)
  | (event_file, content) :: rest =>
      match json_load content with
      | Raise e =>
          if is_ValueError e then ([], old_events, Returned)      (* break *)
          else ([], old_events, Raised e)
      | Ok event =>
          let old1 := dict_set event_file (PBool true) old_events in
          let '(ys, final, o) := read_events rest old1 in
          ({| y_file := event_file; y_event := event; y_seen := old1 |} :: ys,
           final, o)
      end
  end.

Definition dir_events_actual (dir : event_dir) (old_events : dict)
  : list (text * text) :=
  sort_by (fun f => sequence_number (fst f))
          (List.filter (fun f => selected old_events (fst f)) dir).

Definition collect_new_events (dir : event_dir) (old_events : dict)
  : list yielded * dict * outcome :=
  read_events (dir_events_actual dir old_events) old_events.

End Poller.

(** ** The file system

    A path is the text the code builds; the file system maps the paths that
    exist to what is there.  [now] is the clock that stamps modification
    times, and [written] lists the calls of [f.write] on files opened for
    writing, in order.  Two texts are two paths: there are no links, and
    the statements that compare paths say which texts they take.  Modes
    and owners are not part of it: the process may read and write every
    entry, as the superuser may. *)

Inductive node : Type :=
| File (content : text)
| Dir
| Fifo.

Record inode : Type := {
  kind : node;
  mtime : Z
}.

Record fsys : Type := {
  entries : list (text * inode);
  now : Z;
  written : list (text * text)
}.

Fixpoint lookup (es : list (text * inode)) (p : text) : option inode :=
  match es with
  | [] => None
  | (q, i) :: es' => if text_eqb p q then Some i else lookup es' p
  end.

(** [os.path.exists(p)] *)
Definition path_exists (fs : fsys) (p : text) : bool :=
  match lookup (entries fs) p with Some _ => true | None => false end.

Definition unlink (es : list (text * inode)) (p : text) : list (text * inode) :=
  List.filter (fun e => negb (text_eqb p (fst e))) es.

(** The entry at [p] becomes [k], stamped with the clock, which advances. *)
Definition store (fs : fsys) (p : text) (k : node) : fsys :=
  {| entries := unlink (entries fs) p ++ [(p, {| kind := k; mtime := now fs |})];
     now := (now fs + 1)%Z;
     written := written fs |}.

(** [os.remove(p)] *)
Definition remove (fs : fsys) (p : text) : fsys :=
  {| entries := unlink (entries fs) p; now := now fs; written := written fs |}.

Definition log_write (fs : fsys) (p : text) (c : text) : fsys :=
  {| entries := entries fs; now := now fs; written := written fs ++ [(p, c)] |}.

Definition slash : char := 47%N.

(** [os.path.join(a, b)] *)
Definition path_join (a b : text) : text :=
  if head_is slash b then b
  else if is_nil a || ends_with [slash] a then a ++ b
  else a ++ [slash] ++ b.

(** [os.path.isabs(p)] *)
Definition isabs (p : text) : bool := head_is slash p.







(** A last component that names a directory that is already there: none
    (the path ends with a slash), [.] or [..]. *)
Definition names_directory (name : text) : bool :=
  is_nil name || text_eqb name (lit ".") || text_eqb name (lit "..").




(** The name of [q] inside the directory [p], when [q] is an immediate child. *)
Definition child_name (p q : text) : option text :=
  let prefix := path_join p [] in
  if starts_with prefix q
  then let n := skipn (List.length prefix) q in
       if negb (is_nil n) && negb (mem_char slash n) then Some n else None
  else None.

Fixpoint children (p : text) (es : list (text * inode)) : list text :=
  match es with
  | [] => []
  | (q, _) :: es' =>
      match child_name p q with
      | Some n => n :: children p es'
      | None => children p es'
      end
  end.

(** [os.listdir(p)] *)
Definition listdir (fs : fsys) (p : text) : result (list text) :=
  match lookup (entries fs) p with
  | None => Raise FileNotFoundError
  | Some i =>
      match kind i with
      | Dir => Ok (children p (entries fs))
      | _ => Raise NotADirectoryError
      end
  end.

(** [os.path.getmtime(p)] of a path that exists. *)
Definition getmtime (fs : fsys) (p : text) : Z :=
  match lookup (entries fs) p with Some i => mtime i | None => 0%Z end.

(** [shutil.rmtree(p)] *)
Definition rmtree (fs : fsys) (p : text) : result fsys :=
  match lookup (entries fs) p with
  | None => Raise FileNotFoundError
  | Some i =>
      match kind i with
      | Dir =>
          Ok {| entries :=
                  List.filter
                    (fun e => negb (text_eqb p (fst e)) &&
                              negb (starts_with (path_join p []) (fst e)))
                    (entries fs);
                now := now fs; written := written fs |}
      | _ => Raise NotADirectoryError
      end
  end.

(** What [f.read()] returns for a file opened in text mode with the default
    [newline=None]: CR LF and CR are translated to LF. *)
Fixpoint universal_newlines (t : text) : text :=
  match t with
  | [] => []
  | c :: t' =>
      if N.eqb c CR
      then match t' with
           | d :: t'' =>
               if N.eqb d LF then LF :: universal_newlines t''
               else LF :: universal_newlines t'
           | [] => [LF]
           end
      else c :: universal_newlines t'
  end.

(** [open(fn).read()] of a path that exists.  A reader of a pipe waits for
    its writer; the model reads a pipe as empty. *)
Definition read_text (fs : fsys) (fn : text) : result text :=
  match lookup (entries fs) fn with
  | None => Raise FileNotFoundError
  | Some i =>
      match kind i with
      | File c => Ok (universal_newlines c)
      | Dir => Raise IsADirectoryError
      | Fifo => Ok []
      end
  end.

(** ** cleanup_folder, cleanup_artifact_dir *)

(** [cleanup_folder(folder)]: the [try] around [shutil.rmtree] catches
    [FileNotFoundError] and [NotADirectoryError]. *)
Definition cleanup_folder (fs : fsys) (folder : text) : fsys * result bool :=
  match rmtree fs folder with
  | Ok fs' => (fs', Ok true)
  | Raise FileNotFoundError => (fs, Ok false)
  | Raise NotADirectoryError => (fs, Ok false)
  | Raise e => (fs, Raise e)
  end.

(** [for f in range(total_remove): shutil.rmtree(all_paths[f])] *)
Fixpoint remove_oldest (n : nat) (all_paths : list text) (fs : fsys)
  : fsys * outcome :=
  match n, all_paths with
  | O, _ => (fs, Returned)
  | S _, [] => (fs, Raised IndexError)
  | S n', p :: ps =>
      match rmtree fs p with
      | Ok fs' => remove_oldest n' ps fs'
      | Raise e => (fs, Raised e)
      end
  end.

(** [cleanup_artifact_dir(path, num_keep)] *)
Definition cleanup_artifact_dir (fs : fsys) (path : text) (num_keep : Z)
  : fsys * outcome :=
  if (num_keep <? 1)%Z then (fs, Returned)
  else
    match listdir fs path with
    | Raise e => (fs, Raised e)
    | Ok names =>
        let all_paths := sort_by (getmtime fs) (map (path_join path) names) in
        let total_remove := (Z.of_nat (List.length all_paths) - num_keep)%Z in
        remove_oldest (Z.to_nat total_remove) all_paths fs
    end.

(** ** dump_artifact *)

Section Artifacts.
Context {L : PyLib}.

Definition lock_name : text := lit ".artifact_write_lock".

(** The block under [if not os.path.exists(fn) or p_sha1 != c_sha1]: the lock
    file is opened with [O_CREAT], [obj] is written to [fn], and the lock
    file is removed. *)
Definition locked_write (fs : fsys) (path fn obj : text) : fsys :=
  let lock_fp := path_join path lock_name in
  let fs1 := if path_exists fs lock_fp then fs else store fs lock_fp (File []) in
  let fs2 := log_write (store fs1 fn (File obj)) fn obj in
  remove fs2 lock_fp.

(** [dump_artifact(obj, path, filename)] *)
Definition dump_artifact (fs : fsys) (obj path : text) (filename : option text)
  : fsys * result text :=
  let fs1 := if negb (path_exists fs path) then store fs path Dir else fs in
  let p_sha1 := sha1_hexdigest obj in
  let '(fs2, fn) :=
    match filename with
    | None =>
        let fn := mkstemp (map fst (entries fs1)) path in
        (store fs1 fn (File []), fn)
    | Some name => (fs1, path_join path name)
    end in
  if path_exists fs2 fn
  then match read_text fs2 fn with
       | Raise e => (fs2, Raise e)
       | Ok contents =>
           if negb (text_eqb p_sha1 (sha1_hexdigest contents))
           then (locked_write fs2 path fn obj, Ok fn)
           else (fs2, Ok fn)
       end
  else (locked_write fs2 path fn obj, Ok fn).

End Artifacts.

(** ** dump_artifacts

    The function works on the caller's dict and on the file system, and an
    exception leaves both as they are at that point: a computation takes the
    pair and gives it back with a value or an exception. *)

Record world : Type := {
  kwargs : dict;
  disk : fsys
}.

Definition M (A : Type) : Type := world -> world * result A.

Definition ret {A} (a : A) : M A := fun w => (w, Ok a).
Definition raise {A} (e : exn) : M A := fun w => (w, Raise e).
Definition bind {A B} (m : M A) (k : A -> M B) : M B :=
  fun w => match m w with
           | (w1, Ok a) => k a w1
           | (w1, Raise e) => (w1, Raise e)
           end.

Notation "x <- m ;; k" := (bind m (fun x => k))
  (at level 61, m at next level, right associativity).
Notation "m ;;; k" := (bind m (fun _ => k))
  (at level 61, right associativity).

(** [kwargs.get(k)] *)
Definition kw_get (k : text) : M (option pyval) :=
  fun w => (w, Ok (dict_get k (kwargs w))).

(** [kwargs[k] = v] *)
Definition kw_set (k : text) (v : pyval) : M unit :=
  fun w => ({| kwargs := dict_set k v (kwargs w); disk := disk w |}, Ok tt).

(** [kwargs.pop(k, default)]; [None] stands for the default. *)
Definition kw_pop (k : text) : M (option pyval) :=
  fun w => ({| kwargs := dict_del k (kwargs w); disk := disk w |},
            Ok (dict_get k (kwargs w))).

Definition exists_ (p : text) : M bool :=
  fun w => (w, Ok (path_exists (disk w) p)).

Definition lift_result {A} (r : result A) : M A := fun w => (w, r).

(** [isinstance(obj, Iterable) and not isinstance(obj, str) and
    not isinstance(obj, MutableMapping)] *)
Definition isplaybook (obj : pyval) : bool :=
  match obj with
  | PList _ | PBytes _ | PByteArray _ => true
  | _ => false
  end.

(** [isinstance(obj, (MutableMapping, str))] *)
Definition isinventory (obj : pyval) : bool :=
  match obj with
  | PDict _ | PStr _ => true
  | _ => false
  end.

Definition opt_truthy (o : option pyval) : bool :=
  match o with Some v => truthy v | None => false end.

Section DumpArtifacts.
Context {L : PyLib}.

Definition write_artifact (obj path : text) (filename : text) : M text :=
  fun w => let '(fs, r) := dump_artifact (disk w) obj path (Some filename) in
           ({| kwargs := kwargs w; disk := fs |}, r).

(** [tempfile.mkdtemp()] *)
Definition make_temp_dir : M text :=
  fun w => let d := mkdtemp (map fst (entries (disk w))) in
           ({| kwargs := kwargs w; disk := store (disk w) d Dir |}, Ok d).

(** The first lines: the directory of the run.  A [private_data_dir] that is
    true and not text is not a path of this model, and ends the call with
    [TypeError]. *)
Definition resolve_private_data_dir : M text :=
  v <- kw_get (lit "private_data_dir") ;;
  dir <- (if opt_truthy v
          then match v with
               | Some (PStr p) => ret p
               | _ => raise TypeError
               end
          else d <- make_temp_dir ;;
               kw_set (lit "private_data_dir") (PStr d) ;;;
               ret d) ;;
  found <- exists_ dir ;;
  if found then ret dir else raise ValueError.

(** [roles_path += f":{...}"] *)
Definition append_roles (roles_path : pyval) (suffix : text) : result pyval :=
  match roles_path with
  | PStr s => Ok (PStr (s ++ suffix))
  | PList l => Ok (PList (l ++ map (fun c => PStr [c]) suffix))
  | _ => Raise TypeError
  end.

(** The block under [if 'role' in kwargs:]. *)
Definition expand_role (private_data_dir : text) : M unit :=
  name <- kw_pop (lit "role") ;;
  has_vars <- (fun w => (w, Ok (dict_has (lit "role_vars") (kwargs w)))) ;;
  role <- (if has_vars : bool
           then vars <- kw_pop (lit "role_vars") ;;
                ret [(lit "name", match name with Some v => v | None => PNone end);
                     (lit "vars", match vars with Some v => v | None => PNone end)]
           else ret [(lit "name", match name with Some v => v | None => PNone end)]) ;;
  hosts <- kw_pop (lit "hosts") ;;
  skip <- kw_pop (lit "role_skip_facts") ;;
  let play0 := [(lit "hosts", match hosts with Some v => v | None => PStr (lit "all") end);
                (lit "roles", PList [PDict role])] in
  let play := if opt_truthy skip
              then dict_set (lit "gather_facts") (PBool false) play0
              else play0 in
  kw_set (lit "playbook") (PList [PDict play]) ;;;
  envvars <- kw_get (lit "envvars") ;;
  (match envvars with
   | Some _ => ret tt
   | None => kw_set (lit "envvars") (PDict [])
   end) ;;;
  given <- kw_pop (lit "roles_path") ;;
  let own := path_join private_data_dir (lit "roles") in
  roles_path <- (if opt_truthy given
                 then lift_result
                        (append_roles
                           (match given with Some v => v | None => PNone end)
                           (lit ":" ++ own))
                 else ret (PStr own)) ;;
  envvars <- kw_get (lit "envvars") ;;
  match envvars with
  | Some (PDict d) =>
      kw_set (lit "envvars")
             (PDict (dict_set (lit "ANSIBLE_ROLES_PATH") roles_path d))
  | _ => raise TypeError
  end.

(** [if isinstance(playbook, MutableMapping): playbook = [playbook]] *)
Definition as_plays (playbook : option pyval) : pyval :=
  match playbook with
  | Some (PDict d) => PList [PDict d]
  | Some v => v
  | None => PNone
  end.

(** The playbook. *)
Definition dump_playbook (private_data_dir : text) : M unit :=
  playbook <- kw_get (lit "playbook") ;;
  if opt_truthy playbook
  then
    let playbook1 := as_plays playbook in
    if isplaybook playbook1
    then
      let path := path_join private_data_dir (lit "project") in
      obj <- lift_result (dumps playbook1) ;;
      fn <- write_artifact obj path (lit "main.json") ;;
      kw_set (lit "playbook") (PStr fn)
    else ret tt
  else ret tt.

(** The inventory. *)
Definition dump_inventory (private_data_dir : text) : M unit :=
  obj <- kw_get (lit "inventory") ;;
  let path := path_join private_data_dir (lit "inventory") in
  match obj with
  | Some (PDict d) =>
      if truthy (PDict d)
      then
        s <- lift_result (dumps (PDict d)) ;;
        fn <- write_artifact s path (lit "hosts.json") ;;
        kw_set (lit "inventory") (PStr fn)
      else ret tt
  | Some (PStr s) =>
      if truthy (PStr s)
      then
        found <- exists_ (path_join path s) ;;
        if negb found
        then fn <- write_artifact s path (lit "hosts") ;;
             kw_set (lit "inventory") (PStr fn)
        else if isabs s
        then kw_set (lit "inventory") (PStr s)
        else kw_set (lit "inventory") (PStr (path_join path s))
      else ret tt
  | _ => ret tt
  end.

(** One turn of the loops over the keys of [env/]: [as_text] is
    [json.dumps] in the first loop and [str] in the second. *)
Definition dump_env_key (private_data_dir : text)
    (as_text : pyval -> result text) (key : text) : M unit :=
  obj <- kw_get key ;;
  found <- exists_ (path_join (path_join private_data_dir (lit "env")) key) ;;
  if opt_truthy obj && negb found
  then
    let path := path_join private_data_dir (lit "env") in
    s <- lift_result (as_text (match obj with Some v => v | None => PNone end)) ;;
    write_artifact s path key ;;;
    kw_pop key ;;;
    ret tt
  else ret tt.

Fixpoint for_each (keys : list text) (body : text -> M unit) : M unit :=
  match keys with
  | [] => ret tt
  | k :: ks => body k ;;; for_each ks body
  end.

Definition json_keys : list text :=
  [lit "envvars"; lit "extravars"; lit "passwords"; lit "settings"].

Definition str_keys : list text := [lit "ssh_key"; lit "cmdline"].

Definition dump_env (private_data_dir : text) : M unit :=
  suppress <- kw_get (lit "suppress_env_files") ;;
  if negb (opt_truthy suppress)
  then
    for_each json_keys (dump_env_key private_data_dir dumps) ;;;
    for_each str_keys (dump_env_key private_data_dir (fun v => Ok (py_str v)))
  else ret tt.

(** [dump_artifacts(kwargs)] *)
Definition dump_artifacts : M unit :=
  private_data_dir <- resolve_private_data_dir ;;
  has_role <- (fun w => (w, Ok (dict_has (lit "role") (kwargs w)))) ;;
  (if has_role : bool then expand_role private_data_dir else ret tt) ;;;
  dump_playbook private_data_dir ;;;
  dump_inventory private_data_dir ;;;
  dump_env private_data_dir.

End DumpArtifacts.

(** ** open_fifo_write *)


Section Fifo.
Context {L : PyLib}.


End Fifo.


(** ** The vocabulary of the statements *)

(** The last character of [a] ends a line when [b] follows. *)
Definition seam_ok (a b : text) : bool :=
  match a with
  | [] => true
  | _ :: _ => ends_line (last a 0%N) b
  end.

(** The counter values the delivered events carry, in order. *)
Definition counters (tr : list effect) : list pyval :=
  flat_map (fun ev => match dict_get (lit "counter") ev with
                      | Some v => [v]
                      | None => []
                      end) (delivered tr).

(** The delivered events that carry a counter, each with the piece of output
    it was made from. *)
Definition counted_from (tr : list effect) : list (text * dict) :=
  List.filter (fun ce => dict_has (lit "counter") (snd ce)) (delivered_from tr).

Definition line_range (ev : dict) : option (Z * Z) :=
  match dict_get (lit "start_line") ev, dict_get (lit "end_line") ev with
  | Some (PInt a), Some (PInt b) => Some (a, b)
  | _, _ => None
  end.

(** From line [n] on, each event starts where the one before it ended and
    spans as many lines as its piece of output has line feeds. *)
Inductive partitions : Z -> list (text * dict) -> Prop :=
| partitions_nil n : partitions n []
| partitions_cons n chunk ev rest :
    line_range ev = Some (n, (n + count_char LF chunk)%Z) ->
    partitions (n + count_char LF chunk)%Z rest ->
    partitions n ((chunk, ev) :: rest).

Definition eof_event : dict := [(lit "event", PStr (lit "EOF"))].

Definition event_ok (c sl : Z) (chunk : text) (ev : dict) : Prop :=
  dict_get (lit "counter") ev = Some (PInt (c + 1)) /\
  line_range ev = Some (sl, (sl + count_char LF chunk)%Z).

Definition is_callback (e : effect) : bool :=
  match e with Callback _ _ => true | _ => false end.

(** A trace that takes the counter from [c] to [c'] and the line cursor from
    [sl] to [sl']. *)
Inductive numbered : Z -> Z -> list effect -> Z -> Z -> Prop :=
| numbered_nil c sl : numbered c sl [] c sl
| numbered_event c sl chunk ev tr c' sl' :
    event_ok c sl chunk ev ->
    numbered (c + 1) (sl + count_char LF chunk) tr c' sl' ->
    numbered c sl (Callback chunk ev :: tr) c' sl'
| numbered_eof c sl tr c' sl' :
    numbered c sl tr c' sl' ->
    numbered c sl (Callback [] eof_event :: tr) c' sl'
| numbered_other c sl e tr c' sl' :
    is_callback e = false ->
    numbered c sl tr c' sl' ->
    numbered c sl (e :: tr) c' sl'.

Definition dict_ser (d : dict) : bool :=
  forallb (fun e => serializable (snd e)) d.

(** A decoded payload the rest of [write] can work with: a value that is
    false, or a mapping of values [json.dumps] accepts. *)
Definition payload_ok (v : pyval) : Prop :=
  truthy v = false \/ exists d, v = PDict d /\ dict_ser d = true.

Definition state_ok (s : OutputEventFilter) : Prop :=
  match current_event_data s with
  | Some d => dict_ser d = true
  | None => True
  end.

Definition failing_lib : PyLib :=
  {| uuid4 := fun n => lit "id" ++ [N.of_nat n];
     b64_json_loads := fun _ => Raise JSONDecodeError;
     json_dumps := fun _ => lit "{}";
     unicode_Nd := is_ascii_digit;
     json_load := fun _ => Raise JSONDecodeError;
     sha1_hexdigest := fun s => s;
     mkdtemp := fun _ => lit "/tmp/t";
     mkstemp := fun _ d => d ++ lit "/t";
     py_str := fun _ => [];
     str_encode := fun s => Ok s |}.

Definition plain_options : options :=
  {| handle := true; suppress_ansible_output := false; output_json := false |}.

(** [\x1b[KAAAA\x1b[1D\x1b[K]: a token whose payload does not decode. *)
Definition bad_token : text :=
  marker ++ lit "AAAA" ++ [27; 91]%N ++ lit "1D" ++ marker.


(** No token starts anywhere in [u]. *)
Definition tokenless {L : PyLib} (u : text) : Prop :=
  forall a b, u = a ++ b -> token_at b = None.

(** What is known of the Unicode decimal digits: below 128 they are the
    ASCII digits, and no line boundary is one. *)
Definition Nd_sane {L : PyLib} : Prop :=
  (forall c, (c < 128)%N -> unicode_Nd c = is_ascii_digit c) /\
  (forall c, is_linebreak c = true -> unicode_Nd c = false).

(** The part of an instance that numbers the events. *)
Record core : Type := {
  k_counter : Z;
  k_line : Z;
  k_uuid : nat
}.

Definition mk_state (k : core) (b l : text) (cur : option dict)
  : OutputEventFilter :=
  {| counter := k_counter k; start_line := k_line k; buffer := b;
     last_chunk := l; current_event_data := cur; uuid_drawn := k_uuid k |}.

Definition core0 : core := {| k_counter := 0; k_line := 0; k_uuid := 0 |}.

(** The event made from one line of output outside of event data. *)
Definition verbose_event {L : PyLib} (k : core) (chunk : text) : dict :=
  [(lit "event", PStr (lit "verbose"));
   (lit "uuid", PStr (uuid4 (k_uuid k)));
   (lit "counter", PInt (k_counter k + 1));
   (lit "stdout", PStr (rstrip [LF; CR] chunk));
   (lit "start_line", PInt (k_line k));
   (lit "end_line", PInt (k_line k + count_char LF chunk))].

Definition vnext (k : core) (chunk : text) : core :=
  {| k_counter := k_counter k + 1;
     k_line := k_line k + count_char LF chunk;
     k_uuid := S (k_uuid k) |}.

Fixpoint vadv (k : core) (chunks : list text) : core :=
  match chunks with
  | [] => k
  | c :: cs => vadv (vnext k c) cs
  end.

Fixpoint vevents {L : PyLib} (k : core) (chunks : list text) : list dict :=
  match chunks with
  | [] => []
  | c :: cs => verbose_event k c :: vevents (vnext k c) cs
  end.

(** The event made from the text that follows a token whose payload [d]
    is pending. *)
Definition attached_event {L : PyLib} (k : core) (d : dict) (chunk : text)
  : dict :=
  snd (fst (emit_chunk (mk_state k [] [] None) d chunk)).

(** What a session delivers, and how it ends, for a stream whose only token
    has the text [before] in front of it, the group [g] inside it and the
    text [rest] after it. *)
Definition expected {L : PyLib} (before g rest : text) : list dict * outcome :=
  let ev1 := vevents core0 (splitlines before) in
  let k1 := vadv core0 (splitlines before) in
  match decode_payload g with
  | Raise e => ([], Raised e)
  | Ok v =>
      match or_empty (Some v) with
      | PDict d =>
          if get_truthy (lit "uuid") d
          then (ev1 ++ (if is_nil rest then [] else [attached_event k1 d rest])
                    ++ [eof_event], Returned)
          else (ev1 ++ vevents k1 (splitlines rest) ++ [eof_event], Returned)
      | _ => (ev1, Raised AttributeError)
      end
  end.

(** Decoding the payload [g] gives a value or raises a [ValueError]: it
    raises nothing that [write] does not catch. *)
Definition decodes {L : PyLib} (g : text) : Prop :=
  forall e, b64_json_loads (re_sub_cursor g) = Raise e -> is_ValueError e = true.

(** The detection window of [write]: do two chunks written one after the
    other hold the characters of the stream from [lo] up to [hi]?  [prev] is
    the chunk written last and [off] the place in the stream where it
    starts. *)
Fixpoint window_covers (prev : text) (off : nat) (chunks : list text)
    (lo hi : nat) : bool :=
  match chunks with
  | [] => false
  | c :: cs =>
      ((off <=? lo)%nat && (hi <=? off + List.length prev + List.length c)%nat)
      || window_covers c (off + List.length prev) cs lo hi
  end.

Definition tstate_eq_dec (a b : tstate) : {a = b} + {a <> b}.
Proof. decide equality. Defined.

(** A stream with one embedded event token: the search finds a token, and
    none in the text after it. *)
Definition one_token {L : PyLib} (stream : text) : Prop :=
  exists before g rest,
    re_search stream = Some (before, g, rest) /\ re_search rest = None.

(** [out\n], the token whose payload does not decode, and [x]; and the same
    stream in four chunks, the last two of which share the closing marker. *)
Definition sample_stream : text := lit "out" ++ [LF] ++ bad_token ++ lit "x".

Definition sample_chunks : list text :=
  [lit "ou";
   lit "t" ++ [LF; 27; 91]%N;
   lit "KAAAA" ++ [27; 91]%N ++ lit "1D" ++ [27]%N;
   lit "[Kx"].

(** A library whose [json.load] raises [json.JSONDecodeError] on an empty
    file and otherwise gives the content back as a string. *)
Definition echo_lib : PyLib :=
  {| uuid4 := fun n => lit "id" ++ [N.of_nat n];
     b64_json_loads := fun _ => Raise JSONDecodeError;
     json_dumps := fun _ => lit "{}";
     unicode_Nd := is_ascii_digit;
     json_load := fun c => if is_nil c then Raise JSONDecodeError
                           else Ok (PStr c);
     sha1_hexdigest := fun s => s;
     mkdtemp := fun _ => lit "/tmp/t";
     mkstemp := fun _ d => d ++ lit "/t";
     py_str := fun v => match v with PStr s => s | _ => lit "?" end;
     str_encode := fun s => Ok s |}.

(** The names and events a call yields, in order. *)
Definition yields (ys : list yielded) : list (text * pyval) :=
  map (fun y => (y_file y, y_event y)) ys.

Definition by_sequence (a b : text) : Prop :=
  (sequence_number a <= sequence_number b)%Z.

Definition key_le {A} (key : A -> Z) (a b : A) : Prop := (key a <= key b)%Z.

(** An empty file system. *)
Definition empty_fs : fsys := {| entries := []; now := 0; written := [] |}.




(** The keys of the bag that [dump_artifacts] can change when the bag has
    no [role]: the directory, the playbook, the inventory and the keys of
    the files under [env/]. *)
Definition env_keys : list text := json_keys ++ str_keys.

Definition touched_keys : list text :=
  lit "private_data_dir" :: lit "playbook" :: lit "inventory" :: env_keys.

Definition env_file (private_data_dir key : text) : text :=
  path_join (path_join private_data_dir (lit "env")) key.

(** From [w] to [w'] the key [k] keeps its value, and no path of [avoid] is
    written. *)
Definition preserves (k : text) (avoid : text -> Prop) (w w' : world) : Prop :=
  dict_get k (kwargs w') = dict_get k (kwargs w) /\
  exists new,
    written (disk w') = written (disk w) ++ new /\
    forall p c, In (p, c) new -> ~ avoid p.

(** From [w] to [w'] the key [k], whose value was true, is removed, and the
    file [p] is written. *)
Definition dumped (p k : text) (w w' : world) : Prop :=
  opt_truthy (dict_get k (kwargs w)) = true /\
  dict_get k (kwargs w') = None /\
  exists new,
    written (disk w') = written (disk w) ++ new /\ exists c, In (p, c) new.

(** The directory [d] as the front of a path inside it. *)
Definition base (d : text) : text :=
  if is_nil d || ends_with [slash] d then d else d ++ [slash].


(** Every way the computation [m] can end relates the state before to the
    state after by [R]. *)
Definition always {A} (R : world -> world -> Prop) (m : M A) : Prop :=
  forall w w' r, m w = (w', r) -> R w w'.

(** The key [k] has the value it had. *)
Definition keeps (k : text) (w w' : world) : Prop :=
  dict_get k (kwargs w') = dict_get k (kwargs w).

(** The key [k] has the value it had, the file [p] was not written, and it
    is on disk if and only if it was. *)
Definition untouched (k p : text) (w w' : world) : Prop :=
  preserves k (eq p) w w' /\
  path_exists (disk w') p = path_exists (disk w) p.

(** The three directories of the run and the files written there. *)
Definition project_dir (private_data_dir : text) : text :=
  path_join private_data_dir (lit "project").
Definition inventory_dir (private_data_dir : text) : text :=
  path_join private_data_dir (lit "inventory").
Definition env_dir (private_data_dir : text) : text :=
  path_join private_data_dir (lit "env").

(** The test of the loops over the keys of [env/], on the state before the
    call. *)
Definition to_dump (private_data_dir key : text) (w : world) : bool :=
  negb (opt_truthy (dict_get (lit "suppress_env_files") (kwargs w))) &&
  opt_truthy (dict_get key (kwargs w)) &&
  negb (path_exists (disk w) (env_file private_data_dir key)).

(** A bag with a playbook, an inventory, variables, a key and a key the
    function does not know, on an empty disk; and a bag with a role. *)
Definition sample_bag : world :=
  {| kwargs := [(lit "playbook", PList [PDict [(lit "hosts", PStr (lit "all"))]]);
                (lit "inventory", PStr (lit "localhost,"));
                (lit "envvars", PDict [(lit "A", PStr (lit "b"))]);
                (lit "extravars", PDict []);
                (lit "ssh_key", PStr (lit "key"));
                (lit "verbosity", PInt 2)];
     disk := empty_fs |}.

Definition role_bag : world :=
  {| kwargs := [(lit "private_data_dir", PStr (lit "/d"));
                (lit "role", PStr (lit "web"))];
     disk := store empty_fs (lit "/d") Dir |}.

(* ------------------------------------------------------------------ *)
(** ** sanitize_container_name *)

(** The characters of the class [[a-zA-Z0-9_-]]. *)
Definition container_name_char (c : char) : bool :=
  ((97 <=? c) && (c <=? 122) || (65 <=? c) && (c <=? 90) ||
   (48 <=? c) && (c <=? 57) || (c =? 95) || (c =? 45))%N.

(** [re.sub('[^a-zA-Z0-9_-]', '_', str(original_name))] for a name that is
    text: every character outside the class becomes an underscore. *)
Definition sanitize_container_name (original_name : text) : text :=
  map (fun c => if container_name_char c then c else 95%N) original_name.

(** ** sanitize_json_response *)

(** The characters [str.strip()] removes: those for which [str.isspace] is
    true. *)
Definition whitespace : text :=
  [9; 10; 11; 12; 13; 28; 29; 30; 31; 32; 133; 160; 5760;
   8192; 8193; 8194; 8195; 8196; 8197; 8198; 8199; 8200; 8201; 8202;
   8232; 8233; 8239; 8287; 12288]%N.

(** [t.lstrip(cs)] *)
Fixpoint lstrip (cs : text) (t : text) : text :=
  match t with
  | [] => []
  | c :: t' => if mem_char c cs then lstrip cs t' else t
  end.

(** [t.strip()] *)
Definition strip (t : text) : text := rstrip whitespace (lstrip whitespace t).

Definition brace : char := 123%N.

(** [re.compile("{(.|\n)*", re.MULTILINE).search(data)], as [found.group()]:
    [(.|\n)] matches every character, so the match runs from the first
    brace to the end of the text. *)
Fixpoint start_re_search (data : text) : option text :=
  match data with
  | [] => None
  | c :: t => if N.eqb c brace then Some data else start_re_search t
  end.

Definition sanitize_json_response (data : text) : text :=
  match start_re_search data with
  | Some found => strip found
  | None => data
  end.

(** ** Bunch

    An instance is its [__dict__].  The values of this model are not
    callable: an attribute of the instance named like a method hides the
    method, and calling it raises [TypeError]; so does a keyword named
    [self], which collides with the first parameter. *)

(** [d.update(kwargs)] *)
Definition dict_update (d kwargs : dict) : dict :=
  fold_left (fun acc kv => dict_set (fst kv) (snd kv) acc) kwargs d.

(** [self.update( **kwargs)] *)
Definition Bunch_update (self kwargs : dict) : dict * outcome :=
  if dict_has (lit "update") self || dict_has (lit "self") kwargs
  then (self, Raised TypeError)
  else (dict_update self kwargs, Returned).

(** [Bunch( **kwargs)] *)
Definition Bunch_init (kwargs : dict) : result dict :=
  match Bunch_update [] kwargs with
  | (self, Returned) => Ok self
  | (_, Raised e) => Raise e
  end.

(** [self.get(key)] *)
Definition Bunch_get (self : dict) (key : text) : result pyval :=
  if dict_has (lit "get") self then Raise TypeError
  else Ok (match dict_get key self with Some v => v | None => PNone end).

(** ** Trees of the file system *)

(** The path [q] is [p] or lies under the directory [p]. *)
Definition in_tree (p q : text) : bool :=
  text_eqb p q || starts_with (path_join p []) q.

(** The file system without the trees at the paths [ps]. *)
Definition prune (ps : list text) (fs : fsys) : fsys :=
  {| entries := List.filter
                  (fun e => negb (existsb (fun p => in_tree p (fst e)) ps))
                  (entries fs);
     now := now fs;
     written := written fs |}.

(** A directory [/runs] with three run directories made one after the other,
    the first of which holds a file. *)
Definition runs_fs : fsys :=
  store (store (store (store (store empty_fs (lit "/runs") Dir)
                             (lit "/runs/a") Dir)
                      (lit "/runs/a/stdout") (File (lit "ok")))
               (lit "/runs/b") Dir)
        (lit "/runs/c") Dir.

(** A directory of three event files, the second of which is empty. *)
Definition sample_event_dir : event_dir :=
  [(lit "2-b.json", []); (lit "1-a.json", lit "{}"); (lit "3-c.json", lit "{}")].

(** ** What a trace shows on the console and in the transcript *)

(** The text written to [sys.stdout]. *)
Fixpoint console (tr : list effect) : text :=
  match tr with
  | [] => []
  | StdoutWrite t :: tr' => t ++ console tr'
  | _ :: tr' => console tr'
  end.

(** The text written to the handle. *)
Fixpoint transcript (tr : list effect) : text :=
  match tr with
  | [] => []
  | HandleWrite t :: tr' => t ++ transcript tr'
  | _ :: tr' => transcript tr'
  end.

Definition on_console (e : effect) : bool :=
  match e with
  | StdoutWrite _ | StdoutFlush => true
  | _ => false
  end.

Definition on_handle (e : effect) : bool :=
  match e with
  | HandleWrite _ | HandleFlush | HandleClose => true
  | _ => false
  end.

(** ** What dump_artifacts writes *)

(** What the turn of [key] in a loop over the keys of [env/] writes, read
    off the state [w]: [as_text] of the value, when the value is true and
    the file is not on disk. *)
Definition env_write (private_data_dir : text) (as_text : pyval -> result text)
    (w : world) (key : text) : list (text * text) :=
  if opt_truthy (dict_get key (kwargs w)) &&
     negb (path_exists (disk w) (env_file private_data_dir key))
  then match as_text (match dict_get key (kwargs w) with
                      | Some v => v
                      | None => PNone
                      end) with
       | Ok s => [(env_file private_data_dir key, s)]
       | Raise _ => []
       end
  else [].

(** The keys the block under [if 'role' in kwargs:] removes. *)
Definition role_keys : list text :=
  [lit "role"; lit "role_vars"; lit "hosts"; lit "role_skip_facts";
   lit "roles_path"].

(** The play that block builds from the bag. *)
Definition role_play (kw : dict) : pyval :=
  let name := match dict_get (lit "role") kw with Some v => v | None => PNone end in
  let role :=
    if dict_has (lit "role_vars") kw
    then [(lit "name", name);
          (lit "vars", match dict_get (lit "role_vars") kw with
                       | Some v => v
                       | None => PNone
                       end)]
    else [(lit "name", name)] in
  let play0 :=
    [(lit "hosts", match dict_get (lit "hosts") kw with
                   | Some v => v
                   | None => PStr (lit "all")
                   end);
     (lit "roles", PList [PDict role])] in
  PList [PDict (if opt_truthy (dict_get (lit "role_skip_facts") kw)
                then dict_set (lit "gather_facts") (PBool false) play0
                else play0)].

(** The base64 text of 1200 opening brackets, and an event file that holds
    as many: documents nested deeper than the recursion limit of 1000. *)
Definition deep_payload : text := concat (repeat (lit "W1tb") 400).

Definition deep_document : text := repeat 91%N 1200.

(** The token with that payload; [out\n], the token and [x]; and the same
    stream in four chunks, the last two of which share the closing
    marker. *)
Definition deep_token : text :=
  marker ++ deep_payload ++ [27; 91]%N ++ lit "1D" ++ marker.

Definition deep_stream : text := lit "out" ++ [LF] ++ deep_token ++ lit "x".

Definition deep_chunks : list text :=
  [lit "ou";
   lit "t" ++ [LF; 27; 91]%N;
   lit "K" ++ deep_payload ++ [27; 91]%N ++ lit "1D" ++ [27]%N;
   lit "[Kx"].

(** A directory of three event files, the second of which is nested too
    deeply. *)
Definition deep_event_dir : event_dir :=
  [(lit "2-b.json", deep_document); (lit "1-a.json", lit "{}");
   (lit "3-c.json", lit "{}")].

(** A library that does as Python does on these: [json.loads] and
    [json.load] raise [RecursionError] on the document nested too deeply.
    Other payloads do not decode, and other files are read as [echo_lib]
    reads them. *)
Definition deep_lib : PyLib :=
  {| uuid4 := fun n => lit "id" ++ [N.of_nat n];
     b64_json_loads := fun p => if text_eqb p deep_payload
                                then Raise RecursionError
                                else Raise JSONDecodeError;
     json_dumps := fun _ => lit "{}";
     unicode_Nd := is_ascii_digit;
     json_load := fun c => if text_eqb c deep_document
                           then Raise RecursionError
                           else if is_nil c then Raise JSONDecodeError
                           else Ok (PStr c);
     sha1_hexdigest := fun s => s;
     mkdtemp := fun _ => lit "/tmp/t";
     mkstemp := fun _ d => d ++ lit "/t";
     py_str := fun v => match v with PStr s => s | _ => lit "?" end;
     str_encode := fun s => Ok s |}.

(** A library whose payloads all decode to the number 1. *)
Definition number_lib : PyLib :=
  {| uuid4 := fun n => lit "id" ++ [N.of_nat n];
     b64_json_loads := fun _ => Ok (PInt 1);
     json_dumps := fun _ => lit "{}";
     unicode_Nd := is_ascii_digit;
     json_load := fun c => if is_nil c then Raise JSONDecodeError
                           else Ok (PStr c);
     sha1_hexdigest := fun s => s;
     mkdtemp := fun _ => lit "/tmp/t";
     mkstemp := fun _ d => d ++ lit "/t";
     py_str := fun v => match v with PStr s => s | _ => lit "?" end;
     str_encode := fun s => Ok s |}.

(** The directory [/runs] with a run directory and, made after it, a stray
    file and another run directory. *)
Definition stray_fs : fsys :=
  store (store (store (store empty_fs (lit "/runs") Dir)
                      (lit "/runs/a") Dir)
               (lit "/runs/notes") (File (lit "n")))
        (lit "/runs/c") Dir.

(** ** dump_artifacts, called again *)

(** A path that is on disk stays on disk. *)
Definition stays (p : text) (w w' : world) : Prop :=
  path_exists (disk w) p = true -> path_exists (disk w') p = true.

(** The inventory of the bag is one the inventory phase leaves as it is:
    not a mapping or a string, or false, or an absolute path that is on
    disk. *)
Definition inventory_settled (w : world) : Prop :=
  match dict_get (lit "inventory") (kwargs w) with
  | Some (PStr s) =>
      truthy (PStr s) = true ->
      isabs s = true /\ path_exists (disk w) s = true
  | Some (PDict d) => truthy (PDict d) = false
  | _ => True
  end.

(** ** Where dump_artifact works

    [dump_artifact] calls [os.makedirs], [os.open] on the lock file and
    [open] on the target, and encodes the content.  The statements about
    calls that go through keep to a place where none of these calls can
    fail for a reason of the path or of the content. *)

(** [p.split('/')] *)
Fixpoint split_slash (p : text) : list text :=
  match p with
  | [] => [[]]
  | c :: p' =>
      if N.eqb c slash then [] :: split_slash p'
      else match split_slash p' with
           | [] => [[c]]
           | x :: xs => (c :: x) :: xs
           end
  end.

(** A path in normal form: after the slash it may start with, its
    components are names, none of them empty, [.] or [..].  Two such paths
    that are both absolute, or both relative, name the same entry only if
    they are the same text. *)
Definition plain (p : text) : bool :=
  negb (is_nil p) &&
  forallb (fun c => negb (names_directory c))
          (split_slash (if head_is slash p then tl p else p)).




(* ================================================================== *)
(** * Part II: lemmas and theorems *)
(* ================================================================== *)

Unset Implicit Arguments.

(** ** Text and dicts *)

Lemma text_eqb_eq (a b : text) : text_eqb a b = true <-> a = b.
Proof.
  unfold text_eqb. destruct (list_eq_dec N.eq_dec a b); split; congruence.
Qed.

Lemma text_eqb_refl (a : text) : text_eqb a a = true.
Proof. apply text_eqb_eq. reflexivity. Qed.

Lemma text_eqb_neq (a b : text) : text_eqb a b = false <-> a <> b.
Proof.
  unfold text_eqb. destruct (list_eq_dec N.eq_dec a b); split; congruence.
Qed.

Lemma dict_get_set_eq (k : text) (v : pyval) (d : dict) :
  dict_get k (dict_set k v d) = Some v.
Proof.
  induction d as [|[k' v'] d IH]; simpl.
  - now rewrite text_eqb_refl.
  - destruct (text_eqb k k') eqn:E; simpl; rewrite ?text_eqb_refl, ?E; auto.
Qed.

Lemma dict_get_set_neq (k k' : text) (v : pyval) (d : dict) :
  k <> k' -> dict_get k (dict_set k' v d) = dict_get k d.
Proof.
  intros Hne. induction d as [|[k2 v2] d IH]; simpl.
  - apply text_eqb_neq in Hne. now rewrite Hne.
  - destruct (text_eqb k' k2) eqn:E; simpl.
    + apply text_eqb_eq in E. subst k2.
      apply text_eqb_neq in Hne. now rewrite Hne.
    + now rewrite IH.
Qed.

Lemma dict_get_del_eq (k : text) (d : dict) : dict_get k (dict_del k d) = None.
Proof.
  unfold dict_del. induction d as [|[k' v'] d IH]; simpl; auto.
  destruct (text_eqb k k') eqn:E; simpl; auto. now rewrite E.
Qed.

Lemma dict_get_del_neq (k k' : text) (d : dict) :
  k <> k' -> dict_get k (dict_del k' d) = dict_get k d.
Proof.
  intros Hne. unfold dict_del. induction d as [|[k2 v2] d IH]; simpl; auto.
  destruct (text_eqb k' k2) eqn:E; simpl.
  - apply text_eqb_eq in E. subst k2.
    apply text_eqb_neq in Hne. now rewrite Hne.
  - now rewrite IH.
Qed.

Lemma lit_neq (a b : string) : text_eqb (lit a) (lit b) = false -> lit a <> lit b.
Proof. intros H. now apply text_eqb_neq. Qed.

(** ** Lines *)

Lemma ends_line_head (c : char) (a b : text) :
  a <> [] -> ends_line c (a ++ b) = ends_line c a.
Proof. destruct a; [congruence|reflexivity]. Qed.

Lemma seam_ok_cons (c : char) (a b : text) :
  a <> [] -> seam_ok (c :: a) b = seam_ok a b.
Proof. destruct a; [congruence|reflexivity]. Qed.

Lemma seam_ok_app_l (a1 a2 b : text) :
  a2 <> [] -> seam_ok (a1 ++ a2) b = seam_ok a2 b.
Proof.
  intros H. induction a1 as [|c a1 IH]; simpl app; auto.
  rewrite seam_ok_cons; auto. destruct a1; simpl; [assumption|discriminate].
Qed.

Lemma seam_ok_app_r (a b x : text) :
  b <> [] -> seam_ok a (b ++ x) = seam_ok a b.
Proof.
  intros H. destruct a; simpl; auto. now apply ends_line_head.
Qed.

Lemma seam_ok_linebreak (a b : text) :
  a <> [] -> seam_ok a b = true -> is_linebreak (last a 0%N) = true.
Proof.
  destruct a; [congruence|]. intros _. unfold seam_ok, ends_line.
  intros H. apply andb_prop in H. tauto.
Qed.

Lemma splitlines_nil (t : text) : splitlines t = [] -> t = [].
Proof.
  destruct t as [|c t]; auto. simpl.
  destruct (ends_line c t); [discriminate|].
  destruct (splitlines t); discriminate.
Qed.

Lemma splitlines_concat (t : text) : concat (splitlines t) = t.
Proof.
  induction t as [|c t IH]; simpl; auto.
  destruct (ends_line c t); simpl.
  - now rewrite IH.
  - destruct (splitlines t) as [|l ls] eqn:E; simpl in *.
    + now rewrite <- IH.
    + now rewrite <- IH.
Qed.

Lemma splitlines_nonempty (t l : text) : In l (splitlines t) -> l <> [].
Proof.
  revert l. induction t as [|c t IH]; simpl; intros l H; [contradiction|].
  destruct (ends_line c t).
  - destruct H as [<-|H]; [discriminate|auto].
  - destruct (splitlines t) as [|l0 ls] eqn:E.
    + destruct H as [<-|[]]. discriminate.
    + destruct H as [<-|H]; [discriminate|]. apply IH. now right.
Qed.

Lemma splitlines_app (a b : text) :
  seam_ok a b = true -> splitlines (a ++ b) = splitlines a ++ splitlines b.
Proof.
  induction a as [|c a IH]; intros H; auto.
  destruct a as [|d a].
  - simpl in *. rewrite H. destruct (ends_line c []); reflexivity.
  - rewrite seam_ok_cons in H by discriminate. specialize (IH H).
    remember (d :: a) as a' eqn:Ea.
    assert (Hne : a' <> []) by (subst; discriminate).
    simpl. rewrite IH, ends_line_head by assumption.
    destruct (ends_line c a'); auto.
    destruct (splitlines a') as [|l ls] eqn:E.
    + apply splitlines_nil in E. contradiction.
    + reflexivity.
Qed.

(** A cut between two lines of a text is a seam, and the lines on each side
    are the lines of that side. *)
Lemma splitlines_split (t : text) : forall ls1 ls2,
  splitlines t = ls1 ++ ls2 -> ls2 <> [] ->
  seam_ok (concat ls1) (concat ls2) = true /\
  splitlines (concat ls1) = ls1 /\ splitlines (concat ls2) = ls2.
Proof.
  induction t as [|c t IH]; intros ls1 ls2 H Hne.
  - simpl in H. symmetry in H. apply app_eq_nil in H. tauto.
  - destruct ls1 as [|l1 ls1].
    + simpl in *. repeat split; auto. rewrite <- H.
      change (splitlines (concat (splitlines (c :: t))) = splitlines (c :: t)).
      now rewrite splitlines_concat.
    + simpl in H. destruct (ends_line c t) eqn:Ec.
      * injection H as <- H.
        destruct (IH _ _ H Hne) as (Hs & H1 & H2).
        assert (Ht : t = concat ls1 ++ concat ls2).
        { rewrite <- (splitlines_concat t), H. apply concat_app. }
        destruct ls1 as [|l ls1].
        -- simpl in *. subst t. rewrite Ec. repeat split; auto.
           destruct (ends_line c []); reflexivity.
        -- assert (Hc : concat (l :: ls1) <> []).
           { simpl. intro E. apply app_eq_nil in E. destruct E as [E _].
             apply (splitlines_nonempty t l); [|assumption].
             rewrite H. now left. }
           split; [|split]; auto.
           ++ change (concat ([c] :: l :: ls1)) with (c :: concat (l :: ls1)).
              rewrite seam_ok_cons; auto.
           ++ change (concat ([c] :: l :: ls1)) with (c :: concat (l :: ls1)).
              cbn [splitlines]. rewrite H1.
              rewrite Ht, ends_line_head in Ec by assumption. now rewrite Ec.
      * destruct (splitlines t) as [|l ls] eqn:E.
        -- injection H as <- H. symmetry in H. apply app_eq_nil in H. tauto.
        -- injection H as <- H.
           destruct (IH (l :: ls1) ls2) as (Hs & H1 & H2); auto.
           { simpl. now rewrite H. }
           assert (Hl : l <> []).
           { apply (splitlines_nonempty t). rewrite E. now left. }
           assert (Ht : t = concat (l :: ls1) ++ concat ls2).
           { rewrite <- (splitlines_concat t), E, H. simpl.
             now rewrite concat_app, app_assoc. }
           assert (Hc : concat (l :: ls1) <> []).
           { simpl. intro E'. apply app_eq_nil in E'. tauto. }
           split; [|split]; auto.
           ++ change (concat ((c :: l) :: ls1)) with (c :: concat (l :: ls1)).
              rewrite seam_ok_cons; auto.
           ++ change (concat ((c :: l) :: ls1)) with (c :: concat (l :: ls1)).
              cbn [splitlines]. rewrite H1.
              rewrite Ht, ends_line_head in Ec by assumption. now rewrite Ec.
Qed.

Lemma splitlines_piece (t l : text) : In l (splitlines t) -> splitlines l = [l].
Proof.
  intros H. apply in_split in H. destruct H as (ls1 & ls2 & H).
  destruct (splitlines_split t ls1 (l :: ls2) H) as (_ & _ & H2); [discriminate|].
  assert (H3 : splitlines (concat (l :: ls2)) = [l] ++ ls2) by exact H2.
  destruct ls2 as [|l2 ls2].
  - simpl in H2. now rewrite app_nil_r in H2.
  - destruct (splitlines_split _ [l] (l2 :: ls2) H3) as (_ & H4 & _);
      [discriminate|].
    simpl in H4. now rewrite app_nil_r in H4.
Qed.

Lemma contains_single (c : char) (t : text) :
  contains [c] t = true <-> In c t.
Proof.
  induction t as [|d t IH]; simpl.
  - split; [discriminate|contradiction].
  - rewrite orb_true_iff, andb_true_r, N.eqb_eq, IH.
    split; intros [H|H]; auto.
Qed.

(** A line feed stands only at the end of a line. *)
Lemma splitlines_LF_last (t : text) : forall l u v,
  In l (splitlines t) -> l = u ++ LF :: v -> v = [].
Proof.
  induction t as [|c t IH]; simpl; intros l u v H Hl; [contradiction|].
  destruct (ends_line c t) eqn:Ec.
  - destruct H as [<-|H]; [|eauto].
    destruct u as [|x u]; [now injection Hl|].
    injection Hl as _ Hl. now destruct u.
  - assert (Hu : u <> [] \/ c <> LF).
    { destruct u; [right|left; discriminate]. intros ->.
      unfold ends_line in Ec. simpl in Ec. discriminate. }
    destruct (splitlines t) as [|l0 ls] eqn:E.
    + destruct H as [<-|[]]. destruct u as [|x u].
      * injection Hl as -> _. destruct Hu; congruence.
      * injection Hl as _ Hl. now destruct u.
    + destruct H as [<-|H].
      * destruct u as [|x u].
        -- injection Hl as -> _. destruct Hu; congruence.
        -- injection Hl as _ Hl. apply (IH l0 u v); auto. now left.
      * apply (IH l u v); auto. now right.
Qed.

Lemma last_app_cons (a : text) (c : char) (b : text) :
  last (a ++ c :: b) 0%N = last (c :: b) 0%N.
Proof.
  induction a as [|x a IH]; auto.
  simpl app. destruct (a ++ c :: b) eqn:E.
  - destruct a; discriminate.
  - rewrite <- IH. reflexivity.
Qed.

Lemma line_with_LF (t l : text) :
  In l (splitlines t) -> contains [LF] l = true -> last l 0%N = LF.
Proof.
  intros H Hc. apply contains_single in Hc. apply in_split in Hc.
  destruct Hc as (u & v & Hl).
  rewrite (splitlines_LF_last t l u v H Hl) in Hl. subst l.
  now rewrite last_app_cons.
Qed.

(** ** Counters and line ranges of the delivered events *)

Ltac keys_differ :=
  let H := fresh in intro H; vm_compute in H; discriminate H.

#[local] Hint Constructors numbered partitions : core.

Lemma numbered_app c sl t1 c1 sl1 t2 c2 sl2 :
  numbered c sl t1 c1 sl1 -> numbered c1 sl1 t2 c2 sl2 ->
  numbered c sl (t1 ++ t2) c2 sl2.
Proof. induction 1; simpl; auto. Qed.

Lemma numbered_others c sl tr :
  forallb (fun e => negb (is_callback e)) tr = true -> numbered c sl tr c sl.
Proof.
  induction tr as [|e tr IH]; simpl; auto.
  intros H. apply andb_prop in H. destruct H as [He H].
  apply numbered_other; auto. now apply negb_true_iff.
Qed.

Lemma numbered_counters c sl tr c' sl' :
  numbered c sl tr c' sl' ->
  exists n, c' = (c + Z.of_nat n)%Z /\
            counters tr = map (fun i => PInt (c + Z.of_nat i)) (seq 1 n).
Proof.
  induction 1 as [c sl|c sl chunk ev tr c' sl' [Hc _] _ (n & -> & IH)
                 |c sl tr c' sl' _ (n & -> & IH)|c sl e tr c' sl' He _ (n & -> & IH)].
  - exists 0%nat. split; [lia|reflexivity].
  - exists (S n). split; [lia|].
    unfold counters in *. cbn [delivered flat_map]. rewrite Hc, IH.
    cbn [app seq map]. f_equal.
    rewrite <- (seq_shift n 1), map_map. apply map_ext. intros i. f_equal. lia.
  - exists n. split; auto.
  - exists n. split; auto. destruct e; try discriminate; exact IH.
Qed.

Lemma numbered_partitions c sl tr c' sl' :
  numbered c sl tr c' sl' -> partitions sl (counted_from tr).
Proof.
  induction 1 as [c sl|c sl chunk ev tr c' sl' [Hc Hr] _ IH
                 |c sl tr c' sl' _ IH|c sl e tr c' sl' He _ IH].
  - constructor.
  - unfold counted_from in *. cbn [delivered_from List.filter snd].
    unfold dict_has at 1. rewrite Hc. now constructor.
  - exact IH.
  - destruct e; try discriminate; exact IH.
Qed.

Arguments emit_chunk : simpl never.
Arguments _emit_event : simpl never.
Arguments flush_lines : simpl never.
Arguments write : simpl never.
Arguments close : simpl never.

Section Numbering.
Context {L : PyLib}.
Variable opt : options.

Lemma emit_chunk_numbered s ed chunk s1 ed1 e :
  emit_chunk s ed chunk = (s1, ed1, e) ->
  numbered (counter s) (start_line s) [e] (counter s1) (start_line s1).
Proof.
  unfold emit_chunk. intros H. cbv zeta in H. injection H as H1 H2 H3.
  subst s1 ed1 e. cbn [counter start_line].
  apply numbered_event; [|constructor].
  split.
  - rewrite !dict_get_set_neq by keys_differ. apply dict_get_set_eq.
  - unfold line_range.
    rewrite dict_get_set_neq by keys_differ.
    now rewrite !dict_get_set_eq.
Qed.

Lemma emit_chunks_numbered chunks : forall s ed s1 ed1 tr,
  emit_chunks s ed chunks = (s1, ed1, tr) ->
  numbered (counter s) (start_line s) tr (counter s1) (start_line s1).
Proof.
  induction chunks as [|c cs IH]; cbn [emit_chunks]; intros s ed s1 ed1 tr H.
  - injection H as <- <- <-. constructor.
  - destruct (emit_chunk s ed c) as [[s' ed'] e] eqn:E1.
    destruct (emit_chunks s' ed' cs) as [[s'' ed''] es] eqn:E2.
    injection H as <- <- <-.
    change (e :: es) with ([e] ++ es).
    eapply numbered_app; eauto using emit_chunk_numbered.
Qed.

Lemma _emit_event_numbered s buffered next s1 tr r :
  _emit_event s buffered next = (s1, tr, r) ->
  numbered (counter s) (start_line s) tr (counter s1) (start_line s1).
Proof.
  unfold _emit_event.
  destruct (match pending s with
            | Some d => (d, [buffered])
            | None => if negb (is_nil buffered)
                      then ([(lit "event", PStr (lit "verbose"))], splitlines buffered)
                      else ([], [])
            end) as [ed0 chunks].
  destruct (emit_chunks s ed0 chunks) as [[s' ed'] tr'] eqn:E.
  apply emit_chunks_numbered in E.
  destruct (or_empty next); intros H; injection H as <- <- <-; auto.
Qed.

Lemma echo_silent t : forallb (fun e => negb (is_callback e)) (echo opt t) = true.
Proof.
  unfold echo. destruct (suppress_ansible_output opt), (handle opt); reflexivity.
Qed.

Lemma shown_silent v es :
  shown opt v = Ok es -> forallb (fun e => negb (is_callback e)) es = true.
Proof.
  unfold shown. destruct v as [[]|];
    repeat match goal with
           | |- context [if ?b then _ else _] => destruct b
           end; intros H; try discriminate; injection H as <-;
    auto using echo_silent.
Qed.

Lemma search_loop_numbered fuel : forall s s1 tr o,
  search_loop opt fuel s = Some (s1, tr, o) ->
  numbered (counter s) (start_line s) tr (counter s1) (start_line s1).
Proof.
  induction fuel as [|fuel IH]; cbn [search_loop]; intros s s1 tr o H;
    [discriminate|].
  destruct (re_search (buffer s)) as [[[before g] rest]|].
  2:{ injection H as <- <- <-. constructor. }
  destruct (decode_payload g) as [v|e0].
  2:{ injection H as <- <- <-. constructor. }
  destruct (_emit_event s before (Some v)) as [[s' tr'] [ed|e]] eqn:E;
    apply _emit_event_numbered in E.
  2:{ injection H as <- <- <-. exact E. }
  destruct (if negb (output_json opt) then Ok (dict_get (lit "stdout") ed)
            else match dumps (PDict ed) with
                 | Ok t => Ok (Some (PStr t))
                 | Raise e => Raise e
                 end) as [sa|e].
  2:{ injection H as <- <- <-. exact E. }
  destruct (shown opt sa) as [es|e] eqn:Es.
  2:{ injection H as <- <- <-. exact E. }
  destruct (search_loop opt fuel _) as [[[s3 tr3] o3]|] eqn:E3; [|discriminate].
  injection H as <- <- <-. apply IH in E3. cbn in E3.
  eapply numbered_app; [exact E|].
  eapply numbered_app; [apply numbered_others; eauto using shown_silent|exact E3].
Qed.

Lemma emit_lines_numbered lines : forall s s1 tr,
  emit_lines opt s lines = (s1, tr) ->
  numbered (counter s) (start_line s) tr (counter s1) (start_line s1).
Proof.
  induction lines as [|l ls IH]; cbn [emit_lines]; intros s s1 tr H.
  - injection H as <- <-. constructor.
  - destruct (_emit_event s l None) as [[s' tr'] r] eqn:E.
    destruct (emit_lines opt s' ls) as [s'' tr''] eqn:E2.
    injection H as <- <-. apply _emit_event_numbered in E. apply IH in E2.
    eapply numbered_app; [exact E|].
    eapply numbered_app; [apply numbered_others|exact E2].
    destruct (suppress_ansible_output opt), (handle opt); reflexivity.
Qed.

Lemma flush_lines_numbered s data s1 tr o :
  flush_lines opt s data = (s1, tr, o) ->
  numbered (counter s) (start_line s) tr (counter s1) (start_line s1).
Proof.
  unfold flush_lines.
  destruct (negb (is_nil data) && contains [LF] data &&
            match current_event_data s with None => true | Some _ => false end).
  2:{ intros H. injection H as <- <- <-. constructor. }
  destruct (splitlines (buffer s)) as [|l ls].
  { intros H. injection H as <- <- <-. constructor. }
  destruct (if negb (contains [LF] (last (l :: ls) []))
            then (removelast (l :: ls), Some (last (l :: ls) []))
            else (l :: ls, None)) as [lines1 remainder].
  destruct (emit_lines opt s lines1) as [s' tr'] eqn:E.
  intros H. injection H as <- <- <-. apply emit_lines_numbered in E. exact E.
Qed.

Lemma write_numbered s data s1 tr o :
  write opt s data = (s1, tr, o) ->
  numbered (counter s) (start_line s) tr (counter s1) (start_line s1).
Proof.
  unfold write.
  destruct (contains marker (last_chunk s ++ data)).
  - destruct (search_loop opt _ _) as [[[s' tr'] o']|] eqn:E.
    + intros H. injection H as <- <- <-.
      apply search_loop_numbered in E. exact E.
    + intros H. injection H as <- <- <-. constructor.
  - intros H. apply flush_lines_numbered in H. exact H.
Qed.

Lemma close_numbered s s1 tr :
  close opt s = (s1, tr) ->
  numbered (counter s) (start_line s) tr (counter s1) (start_line s1).
Proof.
  unfold close.
  destruct (negb (is_nil (buffer s))).
  - destruct (_emit_event s (buffer s) None) as [[s' tr'] r] eqn:E.
    intros H. injection H as <- <-. apply _emit_event_numbered in E.
    eapply numbered_app; [exact E|].
    apply numbered_eof. apply numbered_others.
    destruct (handle opt); reflexivity.
  - intros H. injection H as <- <-.
    apply numbered_eof. apply numbered_others.
    destruct (handle opt); reflexivity.
Qed.

Lemma feed_numbered chunks : forall s s1 tr o,
  feed opt s chunks = (s1, tr, o) ->
  numbered (counter s) (start_line s) tr (counter s1) (start_line s1).
Proof.
  induction chunks as [|c cs IH]; cbn [feed]; intros s s1 tr o H.
  - injection H as <- <- <-. constructor.
  - destruct (write opt s c) as [[s' tr'] [|e]] eqn:E;
      apply write_numbered in E.
    + destruct (feed opt s' cs) as [[s'' tr''] o''] eqn:E2.
      injection H as <- <- <-. apply IH in E2.
      eapply numbered_app; eauto.
    + injection H as <- <- <-. exact E.
Qed.

Lemma session_numbered chunks :
  exists c sl, numbered 0 0 (fst (session opt chunks)) c sl.
Proof.
  unfold session.
  destruct (feed opt new_filter chunks) as [[s tr] [|e]] eqn:E;
    apply feed_numbered in E; cbn in E.
  - destruct (close opt s) as [s' tr'] eqn:E2. apply close_numbered in E2.
    cbn [fst]. eauto using numbered_app.
  - cbn [fst]. eauto.
Qed.

End Numbering.

(** C3.  The counter values carried by the events that one instance delivers
    over a sequence of writes followed by [close] are 1, 2, ..., N, in that
    order. *)
Theorem counter_values_are_1_to_N :
  forall (L : PyLib) (opt : options) (chunks : list text),
  exists N : nat,
    counters (fst (session opt chunks)) =
    map (fun i => PInt (Z.of_nat i)) (seq 1 N).
Proof.
  intros L opt chunks.
  destruct (session_numbered opt chunks) as (c & sl & H).
  apply numbered_counters in H. destruct H as (n & _ & H).
  exists n. exact H.
Qed.

(** C4.  The line ranges of the events that one instance delivers over a
    sequence of writes (and over such a sequence followed by [close]) start
    at line 0; each event spans as many lines as its piece of output has
    line feeds, and starts on the line where the event before it ended. *)
Theorem line_ranges_partition_the_output :
  forall (L : PyLib) (opt : options) (chunks : list text),
    partitions 0 (counted_from (snd (fst (feed opt new_filter chunks)))) /\
    partitions 0 (counted_from (fst (session opt chunks))).
Proof.
  intros L opt chunks. split.
  - destruct (feed opt new_filter chunks) as [[s tr] o] eqn:E.
    apply feed_numbered in E. cbn in *. eapply numbered_partitions; eauto.
  - destruct (session_numbered opt chunks) as (c & sl & H).
    eapply numbered_partitions; eauto.
Qed.

(** ** The search loop ends, and what can raise in [write] *)

Section Searching.
Context {L : PyLib}.
Variable opt : options.

Lemma token_at_marker t n : token_at t = Some n -> starts_with marker t = true.
Proof. unfold token_at. destruct (starts_with marker t); [auto|discriminate]. Qed.

Lemma token_at_long t n : token_at t = Some n -> (4 <= n)%nat /\ t <> [].
Proof.
  intros H. pose proof (token_at_marker _ _ H) as Hm.
  unfold token_at in H. rewrite Hm in H.
  destruct (token_run TStart (skipn 3 t)) as [m|] eqn:E; [|discriminate].
  injection H as <-. split.
  - destruct (skipn 3 t); [discriminate|]. cbn [token_run token_step] in E.
    destruct (is_b64 c); [|discriminate].
    destruct (token_run TFrag l); [|discriminate]. injection E as <-. lia.
  - destruct t; [discriminate|discriminate].
Qed.

Lemma re_search_shorter t : forall p g r,
  re_search t = Some (p, g, r) -> (List.length r < List.length t)%nat.
Proof.
  induction t as [|c t IH]; intros p g r H.
  - cbn in H. discriminate.
  - cbn [re_search] in H. destruct (token_at (c :: t)) as [n|] eqn:E.
    + injection H as _ _ <-. apply token_at_long in E. destruct E as [E _].
      rewrite length_skipn. cbn [List.length]. lia.
    + destruct (re_search t) as [[[p' g'] r']|] eqn:E2; [|discriminate].
      injection H as _ _ <-. specialize (IH _ _ _ eq_refl). cbn [List.length]. lia.
Qed.

(** Fuel above the length of the buffer is never used up: the loop of
    [write] always ends. *)
Lemma search_loop_fuel fuel : forall s,
  (List.length (buffer s) < fuel)%nat -> search_loop opt fuel s <> None.
Proof.
  induction fuel as [|fuel IH]; intros s Hlen; [lia|].
  cbn [search_loop].
  destruct (re_search (buffer s)) as [[[before g] rest]|] eqn:Er; [|discriminate].
  apply re_search_shorter in Er.
  destruct (decode_payload g) as [v|e0]; [|discriminate].
  destruct (_emit_event s before (Some v)) as [[s1 tr] [ed|e]];
    [|discriminate].
  destruct (if negb (output_json opt) then _ else _) as [sa|e]; [|discriminate].
  destruct (shown opt sa); [|discriminate].
  specialize (IH (with_last_chunk (with_buffer s1 rest) rest)).
  destruct (search_loop opt fuel _) as [[[s3 tr3] o3]|]; [discriminate|].
  apply IH. cbn. lia.
Qed.

(** More fuel than the loop needs changes nothing. *)
Lemma search_loop_more fuel : forall s r,
  search_loop opt fuel s = Some r ->
  forall fuel', (fuel <= fuel')%nat -> search_loop opt fuel' s = Some r.
Proof.
  induction fuel as [|fuel IH]; intros s r H fuel' Hle; [discriminate|].
  destruct fuel' as [|fuel']; [lia|]. cbn [search_loop] in *.
  destruct (re_search (buffer s)) as [[[before g] rest]|]; [|exact H].
  destruct (decode_payload g) as [v|e0]; [|exact H].
  destruct (_emit_event s before (Some v)) as [[s' tr'] [ed|e]];
    [|exact H].
  destruct (if negb (output_json opt) then Ok (dict_get (lit "stdout") ed)
            else match dumps (PDict ed) with
                 | Ok t => Ok (Some (PStr t))
                 | Raise e => Raise e
                 end) as [sa|e]; [|exact H].
  destruct (shown opt sa) as [es|e]; [|exact H].
  destruct (search_loop opt fuel _) as [r3|] eqn:E3; [|discriminate].
  rewrite (IH _ _ E3 fuel') by lia. exact H.
Qed.

Lemma write_searches s data :
  contains marker (last_chunk s ++ data) = true ->
  search_loop opt (S (List.length (buffer s ++ data)))
    (with_last_chunk (with_buffer s (buffer s ++ data)) data)
  = Some (write opt s data).
Proof.
  intros H. unfold write. rewrite H. cbn [buffer with_last_chunk with_buffer].
  destruct (search_loop opt _ _) eqn:E; auto.
  exfalso. revert E. apply search_loop_fuel. cbn. lia.
Qed.

End Searching.

(** ** Payloads that fail to decode *)

Lemma serializable_dict d : serializable (PDict d) = dict_ser d.
Proof.
  induction d as [|[k v] d IH]; cbn; auto.
  cbn in IH. now rewrite IH.
Qed.

Lemma dict_ser_set k v d :
  serializable v = true -> dict_ser d = true -> dict_ser (dict_set k v d) = true.
Proof.
  intros Hv. induction d as [|[k' v'] d IH]; cbn; intros H.
  - now rewrite Hv.
  - apply andb_prop in H. destruct H as [H1 H2].
    destruct (text_eqb k k'); cbn; rewrite ?Hv, ?H1; auto.
Qed.

Lemma delivered_app t1 t2 : delivered (t1 ++ t2) = delivered t1 ++ delivered t2.
Proof.
  induction t1 as [|e t1 IH]; cbn; auto. destruct e; cbn; now rewrite ?IH.
Qed.

Lemma delivered_silent tr :
  forallb (fun e => negb (is_callback e)) tr = true -> delivered tr = [].
Proof.
  induction tr as [|e tr IH]; cbn; auto. intros H.
  apply andb_prop in H. destruct H as [He H]. destruct e; try discriminate; auto.
Qed.

Section DecodeFailure.
Context {L : PyLib}.
Variable opt : options.

Lemma emit_chunk_shape s ed chunk s1 ed1 e :
  emit_chunk s ed chunk = (s1, ed1, e) ->
  current_event_data s1 = current_event_data s /\
  buffer s1 = buffer s /\ last_chunk s1 = last_chunk s /\
  (exists t, dict_get (lit "stdout") ed1 = Some (PStr t)) /\
  (dict_ser ed = true -> dict_ser ed1 = true).
Proof.
  unfold emit_chunk. intros H. cbv zeta in H. injection H as H1 H2 H3.
  subst s1 ed1 e. cbn. repeat split.
  - eexists. rewrite !dict_get_set_neq by keys_differ. apply dict_get_set_eq.
  - intros Hs. repeat apply dict_ser_set; auto.
    destruct (is_verbose ed); auto. now apply dict_ser_set.
Qed.

Lemma emit_chunks_shape chunks : forall s ed s1 ed1 tr,
  emit_chunks s ed chunks = (s1, ed1, tr) ->
  current_event_data s1 = current_event_data s /\
  buffer s1 = buffer s /\ last_chunk s1 = last_chunk s /\
  (chunks = [] /\ ed1 = ed \/
   exists t, dict_get (lit "stdout") ed1 = Some (PStr t)) /\
  (dict_ser ed = true -> dict_ser ed1 = true).
Proof.
  induction chunks as [|c cs IH]; cbn [emit_chunks]; intros s ed s1 ed1 tr H.
  - injection H as <- <- <-. auto 10.
  - destruct (emit_chunk s ed c) as [[s' ed'] e] eqn:E1.
    destruct (emit_chunks s' ed' cs) as [[s'' ed''] es] eqn:E2.
    injection H as <- <- <-.
    apply emit_chunk_shape in E1. apply IH in E2.
    destruct E1 as (A1 & A2 & A3 & A4 & A5).
    destruct E2 as (B1 & B2 & B3 & B4 & B5).
    repeat split; try congruence; auto.
    right. destruct B4 as [[_ ->]|B4]; auto.
Qed.

(** What [_emit_event] returns and leaves behind when the next event is a
    mapping (or nothing). *)
Lemma _emit_event_mapping s buffered next d :
  or_empty next = PDict d ->
  state_ok s -> dict_ser d = true ->
  exists s1 tr ed,
    _emit_event s buffered next = (s1, tr, Ok ed) /\
    state_ok s1 /\ buffer s1 = buffer s /\ last_chunk s1 = last_chunk s /\
    dict_ser ed = true /\
    (dict_get (lit "stdout") ed = None \/
     exists t, dict_get (lit "stdout") ed = Some (PStr t)).
Proof.
  intros Hn Hs Hd. unfold _emit_event. rewrite Hn.
  assert (H0 : exists ed0 chunks,
             match pending s with
             | Some d => (d, [buffered])
             | None => if negb (is_nil buffered)
                       then ([(lit "event", PStr (lit "verbose"))],
                             splitlines buffered)
                       else ([], [])
             end = (ed0, chunks) /\ dict_ser ed0 = true /\
             (chunks = [] -> ed0 = [])).
  { unfold pending, state_ok in *. destruct (current_event_data s) as [d0|].
    - destruct (is_nil d0).
      + destruct (negb (is_nil buffered)) eqn:Eb; eauto 10.
        do 2 eexists. split; [reflexivity|]. split; [reflexivity|].
        intros E. apply splitlines_nil in E. subst. discriminate.
      + do 2 eexists. split; [reflexivity|]. split; [assumption|discriminate].
    - destruct (negb (is_nil buffered)) eqn:Eb; eauto 10.
      do 2 eexists. split; [reflexivity|]. split; [reflexivity|].
      intros E. apply splitlines_nil in E. subst. discriminate. }
  destruct H0 as (ed0 & chunks & -> & Hs0 & Hc).
  destruct (emit_chunks s ed0 chunks) as [[s1 ed] tr] eqn:E.
  apply emit_chunks_shape in E. destruct E as (A1 & A2 & A3 & A4 & A5).
  do 3 eexists. split; [reflexivity|].
  repeat split; auto.
  - unfold state_ok. cbn [with_current current_event_data].
    destruct (get_truthy (lit "uuid") d); auto.
  - destruct A4 as [[-> ->]|A4]; auto. rewrite Hc; auto.
Qed.

Lemma or_empty_ok next :
  match next with Some v => payload_ok v | None => True end ->
  exists d, or_empty next = PDict d /\ dict_ser d = true.
Proof.
  unfold or_empty. destruct next as [v|].
  2:{ intros _. exists []. auto. }
  intros [H|(d & -> & H)].
  - rewrite H. exists []. auto.
  - destruct (truthy (PDict d)); eauto.
Qed.

Lemma shown_text t : exists es, shown opt (Some (PStr t)) = Ok es.
Proof.
  unfold shown. destruct (negb (is_nil t) && negb (text_eqb t (lit "{}"))); eauto.
Qed.

Lemma echo_of_event ed :
  dict_ser ed = true ->
  (dict_get (lit "stdout") ed = None \/
   exists t, dict_get (lit "stdout") ed = Some (PStr t)) ->
  exists sa es,
    (if negb (output_json opt) then Ok (dict_get (lit "stdout") ed)
     else match dumps (PDict ed) with
          | Ok t => Ok (Some (PStr t))
          | Raise e => Raise e
          end) = Ok sa /\
    shown opt sa = Ok es /\ delivered es = [].
Proof.
  intros Hed Hout.
  assert (Ht : forall t, exists es,
               shown opt (Some (PStr t)) = Ok es /\ delivered es = []).
  { intros t. destruct (shown_text t) as (es & Hes). exists es.
    split; auto. apply delivered_silent. eapply shown_silent; eauto. }
  destruct (negb (output_json opt)).
  - destruct Hout as [->|(t & ->)].
    + exists None, []. auto.
    + destruct (Ht t) as (es & H1 & H2). eauto.
  - unfold dumps. rewrite serializable_dict, Hed.
    destruct (Ht (json_dumps (PDict ed))) as (es & H1 & H2). eauto.
Qed.

(** [_emit_event] with the empty mapping as the next event: the call
    returns, and no event is pending afterwards. *)
Lemma _emit_event_empty s buffered :
  state_ok s ->
  exists s1 tr ed,
    _emit_event s buffered (Some (PDict [])) = (s1, tr, Ok ed) /\
    current_event_data s1 = None /\
    dict_ser ed = true /\
    (dict_get (lit "stdout") ed = None \/
     exists t, dict_get (lit "stdout") ed = Some (PStr t)).
Proof.
  intros Hs.
  destruct (_emit_event_mapping s buffered (Some (PDict [])) [] eq_refl Hs eq_refl)
    as (s1 & tr & ed & E & _ & _ & _ & Hed & Hout).
  exists s1, tr, ed. repeat split; auto.
  unfold _emit_event in E. cbn [or_empty truthy is_nil negb] in E.
  destruct (match pending s with
            | Some d => (d, [buffered])
            | None => if negb (is_nil buffered)
                      then ([(lit "event", PStr (lit "verbose"))],
                            splitlines buffered)
                      else ([], [])
            end) as [ed0 chunks].
  destruct (emit_chunks s ed0 chunks) as [[s1' ed'] tr'].
  injection E as <- _ _. reflexivity.
Qed.

(** The [write] that completes a token whose payload raises a [ValueError]:
    the turn of the loop goes on with the empty mapping, and the loop with
    the text after the token. *)
Lemma failing_write s data before g rest e :
  state_ok s ->
  contains marker (last_chunk s ++ data) = true ->
  re_search (buffer s ++ data) = Some (before, g, rest) ->
  b64_json_loads (re_sub_cursor g) = Raise e ->
  is_ValueError e = true ->
  exists s1 tr ed es r,
    _emit_event (with_last_chunk (with_buffer s (buffer s ++ data)) data)
                before (Some (PDict [])) = (s1, tr, Ok ed) /\
    current_event_data s1 = None /\
    delivered es = [] /\
    search_loop opt (S (List.length rest))
                (with_last_chunk (with_buffer s1 rest) rest) = Some r /\
    write opt s data = (fst (fst r), tr ++ es ++ snd (fst r), snd r).
Proof.
  intros Hs Hwin Hr Hd He.
  pose proof (write_searches opt s data Hwin) as Hw.
  set (s2 := with_last_chunk (with_buffer s (buffer s ++ data)) data) in *.
  assert (Hs2 : state_ok s2) by exact Hs.
  destruct (_emit_event_empty s2 before Hs2)
    as (s1 & tr & ed & E & Hcur & Hed & Hout).
  destruct (echo_of_event ed Hed Hout) as (sa & es & E1 & E2 & Hes).
  cbn [search_loop] in Hw.
  change (buffer s2) with (buffer s ++ data) in Hw.
  rewrite Hr in Hw. unfold decode_payload in Hw.
  rewrite Hd, He, E, E1, E2 in Hw.
  set (s3 := with_last_chunk (with_buffer s1 rest) rest) in *.
  destruct (search_loop opt (S (List.length rest)) s3) as [r|] eqn:E3.
  2:{ exfalso. revert E3. apply search_loop_fuel. cbn. lia. }
  apply re_search_shorter in Hr.
  rewrite (search_loop_more opt _ _ _ E3) in Hw by lia.
  destruct r as [[s4 tr4] o4]. injection Hw as Hw.
  exists s1, tr, ed, es, (s4, tr4, o4). auto.
Qed.

(** The same [write] when the payload raises another exception: nothing is
    delivered, and the buffer keeps the token. *)
Lemma raising_write s data before g rest e :
  contains marker (last_chunk s ++ data) = true ->
  re_search (buffer s ++ data) = Some (before, g, rest) ->
  b64_json_loads (re_sub_cursor g) = Raise e ->
  is_ValueError e = false ->
  write opt s data =
  (with_last_chunk (with_buffer s (buffer s ++ data)) data, [], Raised e).
Proof.
  intros Hwin Hr Hd He.
  pose proof (write_searches opt s data Hwin) as Hw.
  cbn [search_loop] in Hw.
  change (buffer (with_last_chunk (with_buffer s (buffer s ++ data)) data))
    with (buffer s ++ data) in Hw.
  rewrite Hr in Hw. unfold decode_payload in Hw. rewrite Hd, He in Hw.
  now injection Hw as <-.
Qed.

End DecodeFailure.

(** C7, as stated, fails: [json.loads] raises [RecursionError] on a payload
    nested deeper than the recursion limit; that is no [ValueError], and it
    leaves [write]. *)
Lemma decoding_can_raise_out_of_write :
  ~ (forall (L : PyLib) (opt : options) (s : OutputEventFilter)
            (data before group1 rest : text) (e : exn),
        contains marker (last_chunk s ++ data) = true ->
        re_search (buffer s ++ data) = Some (before, group1, rest) ->
        b64_json_loads (re_sub_cursor group1) = Raise e ->
        decode_payload group1 = Ok (PDict []) /\
        snd (write opt s data) = Returned).
Proof.
  intros H.
  specialize (H deep_lib plain_options new_filter deep_token []
                (deep_payload ++ [27; 91]%N ++ lit "1D") [] RecursionError).
  destruct H as [H _]; try (vm_compute; reflexivity).
  vm_compute in H. discriminate H.
Qed.

(** C7, amended.  A [write] after which the buffer holds a token, in a
    window that shows the marker, when decoding the payload of the token
    raises [e].  When [e] is a [ValueError] (as [binascii.Error],
    [UnicodeDecodeError] and [json.JSONDecodeError] are), the payload is
    taken to be the empty mapping: the text in front of the token is
    emitted with [{}] as the next event, no event is pending afterwards,
    what is echoed delivers no event, the loop goes on with the text after
    the token, and [write] ends as that loop ends.  When [e] is no
    [ValueError], [write] raises [e] with nothing delivered and the token
    still in the buffer. *)
Theorem payload_failure_gives_empty_mapping :
  forall (L : PyLib) (opt : options) (s : OutputEventFilter)
         (data before group1 rest : text) (e : exn),
    state_ok s ->
    contains marker (last_chunk s ++ data) = true ->
    re_search (buffer s ++ data) = Some (before, group1, rest) ->
    b64_json_loads (re_sub_cursor group1) = Raise e ->
    let s2 := with_last_chunk (with_buffer s (buffer s ++ data)) data in
    (is_ValueError e = true ->
     decode_payload group1 = Ok (PDict []) /\
     exists s1 tr ed es r,
       _emit_event s2 before (Some (PDict [])) = (s1, tr, Ok ed) /\
       current_event_data s1 = None /\
       delivered es = [] /\
       search_loop opt (S (List.length rest))
                   (with_last_chunk (with_buffer s1 rest) rest) = Some r /\
       write opt s data = (fst (fst r), tr ++ es ++ snd (fst r), snd r)) /\
    (is_ValueError e = false ->
     decode_payload group1 = Raise e /\
     write opt s data = (s2, [], Raised e)).
Proof.
  intros L opt s data before g rest e Hs Hwin Hr Hd s2. split; intros He.
  - split.
    + unfold decode_payload. now rewrite Hd, He.
    + exact (failing_write opt s data before g rest e Hs Hwin Hr Hd He).
  - split.
    + unfold decode_payload. now rewrite Hd, He.
    + exact (raising_write opt s data before g rest e Hwin Hr Hd He).
Qed.

Lemma payload_failure_witness :
  @decode_payload failing_lib (lit "AAAA" ++ [27; 91]%N ++ lit "1D") =
  Ok (PDict []) /\
  exists s1 tr ed es r,
    @_emit_event failing_lib
      (with_last_chunk (with_buffer new_filter sample_stream) sample_stream)
      (lit "out" ++ [LF]) (Some (PDict [])) = (s1, tr, Ok ed) /\
    current_event_data s1 = None /\
    delivered es = [] /\
    @search_loop failing_lib plain_options 2
      (with_last_chunk (with_buffer s1 (lit "x")) (lit "x")) = Some r /\
    @write failing_lib plain_options new_filter sample_stream =
    (fst (fst r), tr ++ es ++ snd (fst r), snd r).
Proof.
  apply (proj1 (payload_failure_gives_empty_mapping failing_lib plain_options
                  new_filter sample_stream (lit "out" ++ [LF])
                  (lit "AAAA" ++ [27; 91]%N ++ lit "1D") (lit "x")
                  JSONDecodeError I eq_refl eq_refl eq_refl)).
  reflexivity.
Defined.

(** ** Tokens *)

Lemma linebreak_cases c :
  is_linebreak c = true ->
  In c [10; 11; 12; 13; 28; 29; 30; 133; 8232; 8233]%N.
Proof.
  unfold is_linebreak, mem_char. intros H.
  apply existsb_exists in H. destruct H as (x & Hx & E).
  apply N.eqb_eq in E. now subst.
Qed.

Lemma b64_not_linebreak c : is_b64 c = true -> is_linebreak c = false.
Proof.
  intros H. destruct (is_linebreak c) eqn:E; auto.
  apply linebreak_cases in E. cbn in E.
  repeat (destruct E as [<-|E]; [discriminate H|]). contradiction.
Qed.

Lemma starts_with_marker_inv v :
  starts_with marker v = true -> exists v', v = (27 :: 91 :: 75 :: v')%N.
Proof.
  destruct v as [|x [|y [|z v]]]; unfold marker; cbn [starts_with];
    rewrite ?andb_false_r; try discriminate.
  intros H. apply andb_prop in H. destruct H as [Hx H].
  apply andb_prop in H. destruct H as [Hy H].
  apply andb_prop in H. destruct H as [Hz _].
  apply N.eqb_eq in Hx, Hy, Hz. subst. eauto.
Qed.

Section TokenFacts.
Context {L : PyLib}.
Hypothesis sane : Nd_sane.

Lemma Nd_small c : (c < 128)%N -> unicode_Nd c = is_ascii_digit c.
Proof. apply sane. Qed.

Lemma Nd_not_linebreak c : unicode_Nd c = true -> is_linebreak c = false.
Proof.
  intros H. destruct (is_linebreak c) eqn:E; auto.
  apply sane in E. congruence.
Qed.

Lemma token_step_char q c :
  token_step q c <> Dead -> is_linebreak c = false.
Proof.
  destruct q; cbn;
    repeat match goal with
           | |- context [if is_b64 c then _ else _] =>
               destruct (is_b64 c) eqn:?; [intros _; now apply b64_not_linebreak|]
           | |- context [if unicode_Nd c then _ else _] =>
               destruct (unicode_Nd c) eqn:?; [intros _; now apply Nd_not_linebreak|]
           | |- context [if N.eqb c ?k then _ else _] =>
               destruct (N.eqb_spec c k); [intros _; subst; reflexivity|]
           end; congruence.
Qed.

Lemma token_run_extend q a b : forall k,
  token_run q a = Some k -> token_run q (a ++ b) = Some k.
Proof.
  revert q. induction a as [|c a IH]; intros q k H; [discriminate|].
  cbn [token_run app] in *. destruct (token_step q c); auto.
  destruct (token_run q0 a) eqn:E; [|discriminate].
  now rewrite (IH _ _ E).
Qed.

Lemma token_run_length q a : forall k,
  token_run q a = Some k -> (k <= List.length a)%nat.
Proof.
  revert q. induction a as [|c a IH]; intros q k H; [discriminate|].
  cbn [token_run] in H. destruct (token_step q c); try discriminate.
  - injection H as <-. cbn. lia.
  - destruct (token_run q0 a) eqn:E; [|discriminate].
    injection H as <-. apply IH in E. cbn. lia.
Qed.

Lemma token_run_prefix q a b : forall k,
  token_run q (a ++ b) = Some k -> (k <= List.length a)%nat ->
  token_run q a = Some k.
Proof.
  revert q. induction a as [|c a IH]; intros q k H Hk.
  - cbn in Hk. assert (k = 0)%nat by lia. subst.
    destruct b; [discriminate|]. cbn in H.
    destruct (token_step q c); try discriminate.
    destruct (token_run q0 b); discriminate.
  - cbn [token_run app] in *. destruct (token_step q c); auto.
    destruct (token_run q0 (a ++ b)) eqn:E; [|discriminate].
    injection H as <-. cbn in Hk. rewrite (IH _ _ E); auto. lia.
Qed.

Lemma token_run_chars q u : forall k c,
  token_run q u = Some k -> In c (firstn k u) -> is_linebreak c = false.
Proof.
  revert q. induction u as [|d u IH]; intros q k c H Hin; [discriminate|].
  cbn [token_run] in H.
  assert (Hd : is_linebreak d = false).
  { apply (token_step_char q). destruct (token_step q d); congruence. }
  destruct (token_step q d); try discriminate.
  - injection H as <-. cbn in Hin. destruct Hin as [<-|[]]. exact Hd.
  - destruct (token_run q0 u) eqn:E; [|discriminate].
    injection H as <-. cbn in Hin. destruct Hin as [<-|Hin]; eauto.
Qed.

(** Inside a token the marker stands only at its end. *)
Lemma token_run_marker a : forall q v k,
  token_run q (a ++ v) = Some k -> starts_with marker v = true ->
  (List.length a + 3 <= k)%nat -> (List.length a + 3 = k)%nat.
Proof.
  induction a as [|c a IH]; intros q v k H Hv Hk.
  - cbn [app List.length] in *.
    apply starts_with_marker_inv in Hv. destruct Hv as (v' & ->).
    pose proof (Nd_small 27 eq_refl) as N27.
    pose proof (Nd_small 75 eq_refl) as N75.
    destruct q; cbn in H; rewrite ?N27, ?N75 in H; cbn in H;
      try discriminate.
    injection H as <-. reflexivity.
  - cbn [token_run app List.length] in *.
    destruct (token_step q c); try discriminate.
    + injection H as <-. lia.
    + destruct (token_run q0 (a ++ v)) eqn:E; [|discriminate].
      injection H as <-. apply IH in E; auto; lia.
Qed.

Lemma starts_with_app p t x :
  starts_with p t = true -> starts_with p (t ++ x) = true.
Proof.
  revert t. induction p as [|a p IH]; intros [|b t] H; auto; try discriminate.
  cbn in *. apply andb_prop in H. destruct H as [-> H]. cbn. auto.
Qed.

Lemma starts_with_length p t :
  starts_with p t = true -> (List.length p <= List.length t)%nat.
Proof.
  revert t. induction p as [|a p IH]; intros [|b t] H; cbn in *;
    try lia; try discriminate.
  apply andb_prop in H. destruct H as [_ H]. apply IH in H. lia.
Qed.

Lemma starts_with_prefix p a b :
  starts_with p (a ++ b) = true -> (List.length p <= List.length a)%nat ->
  starts_with p a = true.
Proof.
  revert a. induction p as [|x p IH]; intros [|y a] H Hl; cbn in *; auto;
    try lia.
  apply andb_prop in H. destruct H as [-> H]. cbn. apply IH; auto. lia.
Qed.

Lemma token_at_extend a b n :
  token_at a = Some n -> token_at (a ++ b) = Some n.
Proof.
  unfold token_at. destruct (starts_with marker a) eqn:E; [|discriminate].
  rewrite (starts_with_app _ _ b E).
  apply starts_with_length in E. cbn in E.
  rewrite skipn_app.
  replace (3 - List.length a)%nat with 0%nat by lia.
  change (skipn 0 b) with b.
  destruct (token_run TStart (skipn 3 a)) eqn:E2; [|discriminate].
  now rewrite (token_run_extend _ _ b _ E2).
Qed.

Lemma token_at_length a n : token_at a = Some n -> (n <= List.length a)%nat.
Proof.
  unfold token_at. destruct (starts_with marker a) eqn:E; [|discriminate].
  apply starts_with_length in E. cbn in E.
  destruct (token_run TStart (skipn 3 a)) eqn:E2; [|discriminate].
  intros H. injection H as <-. apply token_run_length in E2.
  rewrite length_skipn in E2. lia.
Qed.

Lemma token_at_prefix a b n :
  token_at (a ++ b) = Some n -> (n <= List.length a)%nat ->
  token_at a = Some n.
Proof.
  intros H Hn. pose proof (token_at_long _ _ H) as [H4 _].
  unfold token_at in *.
  destruct (starts_with marker (a ++ b)) eqn:E; [|discriminate].
  rewrite (starts_with_prefix _ _ _ E) by (cbn; lia).
  rewrite skipn_app in H.
  replace (3 - List.length a)%nat with 0%nat in H by lia.
  change (skipn 0 b) with b in H.
  destruct (token_run TStart (skipn 3 a ++ b)) eqn:E2; [|discriminate].
  injection H as <-.
  rewrite (token_run_prefix _ _ _ _ E2); auto.
  rewrite length_skipn. lia.
Qed.

Lemma token_chars tok c :
  token_at tok = Some (List.length tok) -> In c tok -> is_linebreak c = false.
Proof.
  intros H Hin. unfold token_at in H.
  destruct (starts_with marker tok) eqn:E; [|discriminate].
  apply starts_with_marker_inv in E. destruct E as (t & ->).
  cbn [skipn] in H.
  destruct (token_run TStart t) eqn:E2; [|discriminate].
  cbn in H. injection H as H. subst n.
  destruct Hin as [<-|[<-|[<-|Hin]]]; auto.
  apply (token_run_chars _ _ _ _ E2). now rewrite firstn_all.
Qed.

(** A second token that starts inside a token runs past its end. *)
Lemma no_inner_token tok a u m :
  token_at tok = Some (List.length tok) -> tok = a ++ u -> a <> [] ->
  token_at u = Some m -> (List.length tok < List.length a + m)%nat.
Proof.
  intros H Ht Ha Hu.
  pose proof (token_at_long _ _ Hu) as [H4 _].
  destruct (Nat.le_gt_cases (List.length a + 3) (List.length tok)) as [Hle|]; [|lia].
  pose proof (token_at_marker _ _ Hu) as Hm.
  unfold token_at in H.
  destruct (starts_with marker tok) eqn:E; [|discriminate].
  destruct (token_run TStart (skipn 3 tok)) eqn:E2; [|discriminate].
  injection H as H.
  subst tok.
  apply starts_with_marker_inv in Hm. destruct Hm as (u' & ->).
  apply starts_with_marker_inv in E. destruct E as (t' & E).
  destruct a as [|x [|y [|z a]]]; try congruence; try discriminate E.
  - cbn [skipn app] in E2. rewrite length_app in *. cbn [List.length] in *.
    apply token_run_marker in E2; auto; lia.
Qed.

End TokenFacts.

(** ** Searching for a token *)

Section SearchFacts.
Context {L : PyLib}.
Hypothesis sane : Nd_sane.

Lemma tokenless_search u : tokenless u -> re_search u = None.
Proof.
  induction u as [|c u IH]; intros H.
  - reflexivity.
  - cbn [re_search]. rewrite (H [] (c :: u) eq_refl).
    rewrite IH; auto. intros a b ->. apply (H (c :: a) b). reflexivity.
Qed.

Lemma search_none_tokenless u : re_search u = None -> tokenless u.
Proof.
  induction u as [|c u IH]; intros H a b E.
  - symmetry in E. apply app_eq_nil in E. destruct E as [_ ->]. reflexivity.
  - cbn [re_search] in H. destruct (token_at (c :: u)) eqn:E1; [discriminate|].
    destruct (re_search u) as [[[p g] r]|] eqn:E2; [discriminate|].
    destruct a as [|x a].
    + cbn in E. now subst b.
    + injection E as _ E. exact (IH eq_refl a b E).
Qed.

Lemma tokenless_suffix a b : tokenless (a ++ b) -> tokenless b.
Proof. intros H x y ->. apply (H (a ++ x) y). now rewrite app_assoc. Qed.

Lemma tokenless_prefix a b : tokenless (a ++ b) -> tokenless a.
Proof.
  intros H x y ->. destruct (token_at y) eqn:E; auto.
  apply (token_at_extend _ b) in E.
  rewrite (H x (y ++ b)) in E; [discriminate|]. now rewrite app_assoc.
Qed.

(** What a successful search found: the token, and no token further left. *)
Lemma re_search_inv t : forall p g r,
  re_search t = Some (p, g, r) ->
  exists tok,
    t = p ++ tok ++ r /\
    token_at tok = Some (List.length tok) /\
    g = firstn (List.length tok - 6) (skipn 3 tok) /\
    (forall p1 p2, p = p1 ++ p2 -> p2 <> [] -> token_at (p2 ++ tok ++ r) = None).
Proof.
  induction t as [|c t IH]; intros p g r H.
  - cbn in H. discriminate.
  - cbn [re_search] in H. destruct (token_at (c :: t)) as [n|] eqn:E.
    + injection H as <- <- <-.
      pose proof (token_at_length _ _ E) as Hn.
      exists (firstn n (c :: t)).
      assert (Hl : List.length (firstn n (c :: t)) = n)
        by (rewrite length_firstn; lia).
      rewrite Hl. repeat split.
      * cbn [app]. now rewrite firstn_skipn.
      * apply (token_at_prefix _ (skipn n (c :: t))); [|lia].
        now rewrite firstn_skipn.
      * pose proof (token_at_long _ _ E) as [H4 _].
        rewrite skipn_firstn_comm. rewrite firstn_firstn.
        f_equal. lia.
      * intros p1 p2 Hp. symmetry in Hp. apply app_eq_nil in Hp.
        destruct Hp as [_ ->]. congruence.
    + destruct (re_search t) as [[[p' g'] r']|] eqn:E2; [|discriminate].
      injection H as <- <- <-.
      destruct (IH _ _ _ eq_refl) as (tok & Ht & Htok & Hg & Hmin).
      exists tok. repeat split; auto.
      * cbn [app]. now rewrite <- Ht.
      * intros p1 p2 Hp Hne. destruct p1 as [|x p1].
        -- cbn in Hp. subst p2. cbn [app]. now rewrite <- Ht.
        -- injection Hp as _ Hp. eauto.
Qed.

Lemma re_search_intro p : forall tok r,
  token_at tok = Some (List.length tok) ->
  (forall p1 p2, p = p1 ++ p2 -> p2 <> [] -> token_at (p2 ++ tok ++ r) = None) ->
  re_search (p ++ tok ++ r) =
  Some (p, firstn (List.length tok - 6) (skipn 3 tok), r).
Proof.
  induction p as [|c p IH]; intros tok r Htok Hmin.
  - cbn [app]. pose proof (token_at_long _ _ Htok) as [H4 Hne].
    destruct tok as [|x tok]; [congruence|].
    cbn [re_search app].
    change (x :: tok ++ r) with ((x :: tok) ++ r).
    rewrite (token_at_extend _ r _ Htok).
    f_equal. f_equal; [f_equal|].
    + rewrite skipn_app, firstn_app.
      replace (List.length (x :: tok) - 6 - List.length (skipn 3 (x :: tok)))%nat
        with 0%nat by (rewrite length_skipn; lia).
      cbn [firstn]. now rewrite app_nil_r.
    + rewrite skipn_app, skipn_all, Nat.sub_diag. reflexivity.
  - cbn [re_search app].
    change (c :: p ++ tok ++ r) with ((c :: p) ++ tok ++ r).
    rewrite (Hmin [] (c :: p) eq_refl) by discriminate.
    cbn [app]. rewrite IH; auto.
    intros p1 p2 -> Hne. apply (Hmin (c :: p1) p2); auto.
Qed.

(** Before the token is complete, nothing that was written holds a token. *)
Lemma incomplete_tokenless before tok rest w z :
  token_at tok = Some (List.length tok) ->
  (forall p1 p2, before = p1 ++ p2 -> p2 <> [] ->
                 token_at (p2 ++ tok ++ rest) = None) ->
  w ++ z = before ++ tok -> z <> [] -> tokenless w.
Proof.
  intros Htok Hmin Hw Hz a b -> .
  destruct (token_at b) as [m|] eqn:E; auto. exfalso.
  pose proof (token_at_length _ _ E) as Hm.
  rewrite <- app_assoc in Hw.
  apply app_eq_app in Hw. destruct Hw as (l & [[Ha Hb]|[Ha Hb]]).
  - (* the match starts in the token *)
    destruct l as [|x l].
    + cbn in Hb. rewrite app_nil_r in Ha. subst tok.
      apply (token_at_extend _ z) in E. rewrite E in Htok.
      injection Htok as Htok. rewrite length_app in Htok.
      destruct z; [congruence|cbn in Htok; lia].
    + apply (token_at_extend _ z) in E.
      pose proof (no_inner_token sane tok (x :: l) (b ++ z) m Htok Hb
                    ltac:(discriminate) E) as Hin.
      rewrite Hb, !length_app in Hin. lia.
  - (* the match starts before the token *)
    destruct l as [|x l].
    + cbn in Hb. rewrite app_nil_r in Ha. subst tok.
      apply (token_at_extend _ z) in E. rewrite E in Htok.
      injection Htok as Htok. rewrite length_app in Htok.
      destruct z; [congruence|cbn in Htok; lia].
    + apply (token_at_extend _ (z ++ rest)) in E.
      rewrite (app_assoc b z rest), Hb, <- app_assoc in E.
      rewrite (Hmin a (x :: l) Ha) in E; discriminate.
Qed.

End SearchFacts.

(** ** Output outside of event data *)

Section Verbose.
Context {L : PyLib}.
Variable opt : options.

Lemma vadv_app k l1 l2 : vadv k (l1 ++ l2) = vadv (vadv k l1) l2.
Proof. revert k. induction l1; cbn; auto. Qed.

Lemma vevents_app k l1 l2 :
  vevents k (l1 ++ l2) = vevents k l1 ++ vevents (vadv k l1) l2.
Proof. revert k. induction l1 as [|c l1 IH]; cbn; intros k; auto. now rewrite IH. Qed.

Definition vshape (ed : dict) : Prop :=
  ed = [(lit "event", PStr (lit "verbose"))] \/ exists k c, ed = verbose_event k c.

Lemma emit_chunk_verbose k b l cur ed chunk :
  vshape ed ->
  emit_chunk (mk_state k b l cur) ed chunk =
  (mk_state (vnext k chunk) b l cur, verbose_event k chunk,
   Callback chunk (verbose_event k chunk)).
Proof.
  intros [->|(k' & c' & ->)]; reflexivity.
Qed.

Lemma emit_chunks_verbose chunks : forall k b l cur ed,
  vshape ed ->
  exists ed',
    emit_chunks (mk_state k b l cur) ed chunks =
    (mk_state (vadv k chunks) b l cur, ed',
     map (fun ce => Callback (fst ce) (snd ce))
         (combine chunks (vevents k chunks))) /\
    (chunks = [] /\ ed' = ed \/ exists k' c', ed' = verbose_event k' c').
Proof.
  induction chunks as [|c cs IH]; intros k b l cur ed Hed; cbn [emit_chunks].
  - exists ed. split; auto.
  - rewrite emit_chunk_verbose by assumption.
    destruct (IH (vnext k c) b l cur (verbose_event k c)) as (ed' & -> & H).
    { right. eauto. }
    exists ed'. split; [reflexivity|].
    right. destruct H as [[_ ->]|H]; eauto.
Qed.

Lemma delivered_combine chunks evs :
  List.length evs = List.length chunks ->
  delivered (map (fun ce => Callback (fst ce) (snd ce)) (combine chunks evs)) = evs.
Proof.
  revert evs. induction chunks as [|c cs IH]; intros [|e evs] H; cbn in *;
    try discriminate; auto.
  f_equal. apply IH. lia.
Qed.

Lemma vevents_length k chunks : List.length (vevents k chunks) = List.length chunks.
Proof. revert k. induction chunks; cbn; auto. Qed.

(** [_emit_event] when no payload is pending and the next one is a mapping
    (or nothing). *)
Lemma _emit_event_verbose k b l buffered next d :
  or_empty next = PDict d ->
  exists tr ed,
    _emit_event (mk_state k b l None) buffered next =
    (mk_state (vadv k (splitlines buffered)) b l
              (if get_truthy (lit "uuid") d then Some d else None), tr, Ok ed) /\
    delivered tr = vevents k (splitlines buffered) /\
    dict_ser ed = true /\
    (dict_get (lit "stdout") ed = None \/
     exists t, dict_get (lit "stdout") ed = Some (PStr t)).
Proof.
  intros Hn. unfold _emit_event. rewrite Hn. cbn [pending mk_state current_event_data].
  destruct buffered as [|x buffered].
  - cbn. do 2 eexists. split; [reflexivity|]. auto.
  - cbn [is_nil negb].
    destruct (emit_chunks_verbose (splitlines (x :: buffered)) k b l None
                [(lit "event", PStr (lit "verbose"))]) as (ed' & -> & H).
    { now left. }
    do 2 eexists. split; [reflexivity|].
    split; [apply delivered_combine, vevents_length|].
    destruct H as [[E _]|(k' & c' & ->)].
    + apply splitlines_nil in E. discriminate.
    + split; [reflexivity|]. right. eexists. reflexivity.
Qed.

Lemma _emit_event_verbose_raises k b l buffered v :
  truthy v = true -> (forall d, v <> PDict d) ->
  exists tr,
    _emit_event (mk_state k b l None) buffered (Some v) =
    (mk_state (vadv k (splitlines buffered)) b l None, tr, Raise AttributeError) /\
    delivered tr = vevents k (splitlines buffered).
Proof.
  intros Hv Hd. unfold _emit_event, or_empty. rewrite Hv.
  cbn [pending mk_state current_event_data].
  destruct buffered as [|x buffered].
  - cbn. destruct v; try (exfalso; eapply Hd; reflexivity);
      (eexists; split; reflexivity).
  - cbn [is_nil negb].
    destruct (emit_chunks_verbose (splitlines (x :: buffered)) k b l None
                [(lit "event", PStr (lit "verbose"))]) as (ed' & -> & H).
    { now left. }
    destruct v; try (exfalso; eapply Hd; reflexivity);
      (eexists; split; [reflexivity|apply delivered_combine, vevents_length]).
Qed.

Lemma emit_lines_verbose lines : forall k b l,
  (forall x, In x lines -> splitlines x = [x]) ->
  exists tr,
    emit_lines opt (mk_state k b l None) lines =
    (mk_state (vadv k lines) b l None, tr) /\
    delivered tr = vevents k lines.
Proof.
  induction lines as [|x lines IH]; intros k b l Hl; cbn [emit_lines].
  - eexists. split; reflexivity.
  - destruct (_emit_event_verbose k b l x None [] eq_refl)
      as (tr1 & ed & -> & Hd & _).
    rewrite (Hl x) in * by now left.
    cbn [vadv get_truthy dict_get] in *.
    destruct (IH (vnext k x) b l) as (tr2 & -> & Hd2).
    { intros y Hy. apply Hl. now right. }
    eexists. split; [reflexivity|].
    rewrite delivered_app, Hd.
    destruct (suppress_ansible_output opt), (handle opt); cbn; now rewrite Hd2.
Qed.

End Verbose.

Lemma last_app_nonempty (a b : text) (d : char) :
  b <> [] -> last (a ++ b) d = last b d.
Proof.
  intros H. destruct b as [|x b]; [congruence|].
  induction a as [|y a IH]; auto.
  cbn [app]. rewrite <- IH. cbn. destruct (a ++ x :: b) eqn:E; auto.
  destruct a; discriminate.
Qed.

Lemma last_cons_default {A} (c : A) (cs : list A) (d : A) :
  last (c :: cs) d = last cs c.
Proof.
  revert c d. induction cs as [|x cs IH]; intros c d; auto.
  change (last (c :: x :: cs) d) with (last (x :: cs) d).
  rewrite (IH x d), (IH x c). reflexivity.
Qed.

Lemma seam_ok_LF (a x : text) : a <> [] -> last a 0%N = LF -> seam_ok a x = true.
Proof.
  destruct a; [congruence|]. intros _ H. unfold seam_ok. rewrite H. reflexivity.
Qed.

Section VerbosePhase.
Context {L : PyLib}.
Variable opt : options.

(** The [else] branch on a buffer [B]: the lines [E] it emits and the text
    [R] it holds back. *)
Lemma flush_lines_verbose k B c :
  (c <> [] -> B <> []) ->
  exists E R tr,
    flush_lines opt (mk_state k B c None) c =
    (mk_state (vadv k (splitlines E)) R c None, tr, Returned) /\
    B = E ++ R /\
    delivered tr = vevents k (splitlines E) /\
    (forall X, seam_ok E (R ++ X) = true) /\
    (E = [] \/ is_linebreak (last E 0%N) = true).
Proof.
  intros Hne. unfold flush_lines.
  change (current_event_data (mk_state k B c None)) with (@None dict).
  change (buffer (mk_state k B c None)) with B.
  destruct (negb (is_nil c) && contains [LF] c && true) eqn:Ec.
  2:{ exists [], B, []. repeat split; auto. }
  assert (HB : B <> []).
  { apply Hne. destruct c; [discriminate|discriminate]. }
  destruct (splitlines B) as [|l0 ls0] eqn:El.
  { apply splitlines_nil in El. contradiction. }
  assert (Hlast : l0 :: ls0 = removelast (l0 :: ls0) ++ [last (l0 :: ls0) []]).
  { apply app_removelast_last. discriminate. }
  set (lines := l0 :: ls0) in *.
  assert (Hin : In (last lines []) lines).
  { rewrite Hlast at 2. apply in_or_app. right. now left. }
  assert (Hnl : last lines [] <> []).
  { apply (splitlines_nonempty B). now rewrite El. }
  assert (Hpiece : forall x, In x lines -> splitlines x = [x]).
  { intros x Hx. apply (splitlines_piece B). now rewrite El. }
  destruct (contains [LF] (last lines [])) eqn:Ecl; cbn [negb].
  - (* every line is complete *)
    destruct (emit_lines_verbose opt lines k B c Hpiece) as (tr & -> & Hd).
    assert (HE : splitlines B = lines) by exact El.
    exists B, [], tr. rewrite HE, app_nil_r. repeat split; auto.
    + intros X. apply seam_ok_LF; auto.
      rewrite <- (splitlines_concat B), El. fold lines. rewrite Hlast.
      rewrite concat_app. cbn [concat]. rewrite app_nil_r.
      rewrite last_app_nonempty by assumption.
      apply (line_with_LF B); auto. now rewrite El.
    + right. rewrite <- (splitlines_concat B), El. fold lines. rewrite Hlast.
      rewrite concat_app. cbn [concat]. rewrite app_nil_r.
      rewrite last_app_nonempty by assumption.
      rewrite (line_with_LF B); auto. now rewrite El.
  - (* the last line is held back *)
    destruct (splitlines_split B (removelast lines) [last lines []])
      as (Hs & H1 & _); [now rewrite El|discriminate|].
    cbn [concat] in Hs. rewrite app_nil_r in Hs.
    destruct (emit_lines_verbose opt (removelast lines) k B c) as (tr & -> & Hd).
    { intros x Hx. apply Hpiece. rewrite Hlast. apply in_or_app. now left. }
    exists (concat (removelast lines)), (last lines []), tr.
    rewrite H1. repeat split; auto.
    + rewrite <- (splitlines_concat B), El. fold lines. rewrite Hlast at 1.
      rewrite concat_app. cbn [concat]. now rewrite app_nil_r.
    + intros X. now rewrite seam_ok_app_r.
    + destruct (concat (removelast lines)) eqn:E; auto.
      right. rewrite <- E in *. eapply seam_ok_linebreak; eauto.
      rewrite E. discriminate.
Qed.

(** A [write] while no payload is pending and the buffer holds no token. *)
Lemma write_verbose k B lc c :
  tokenless (B ++ c) ->
  exists E R tr,
    write opt (mk_state k B lc None) c =
    (mk_state (vadv k (splitlines E)) R c None, tr, Returned) /\
    B ++ c = E ++ R /\
    delivered tr = vevents k (splitlines E) /\
    (forall X, seam_ok E (R ++ X) = true) /\
    (E = [] \/ is_linebreak (last E 0%N) = true).
Proof.
  intros Ht. unfold write.
  change (with_last_chunk (with_buffer (mk_state k B lc None)
                                       (buffer (mk_state k B lc None) ++ c)) c)
    with (mk_state k (B ++ c) c None).
  change (last_chunk (mk_state k B lc None)) with lc.
  destruct (contains marker (lc ++ c)).
  - cbn [search_loop]. change (buffer (mk_state k (B ++ c) c None)) with (B ++ c).
    rewrite (tokenless_search _ Ht).
    exists [], (B ++ c), []. repeat split; auto.
  - apply flush_lines_verbose.
    intros Hc. destruct B; [cbn; assumption|discriminate].
Qed.

Lemma feed_verbose k0 chunks : forall F B lc,
  (forall X, seam_ok F (B ++ X) = true) ->
  (F = [] \/ is_linebreak (last F 0%N) = true) ->
  tokenless (B ++ concat chunks) ->
  exists F' B' tr,
    feed opt (mk_state (vadv k0 (splitlines F)) B lc None) chunks =
    (mk_state (vadv k0 (splitlines F')) B' (last chunks lc) None, tr, Returned) /\
    F ++ B ++ concat chunks = F' ++ B' /\
    vevents k0 (splitlines F) ++ delivered tr = vevents k0 (splitlines F') /\
    (forall X, seam_ok F' (B' ++ X) = true) /\
    (F' = [] \/ is_linebreak (last F' 0%N) = true).
Proof.
  induction chunks as [|c cs IH]; intros F B lc Hseam Hbr Ht; cbn [feed].
  - exists F, B, []. cbn [concat last]. rewrite !app_nil_r. auto.
  - cbn [concat] in Ht.
    assert (Ht1 : tokenless (B ++ c)).
    { apply (tokenless_prefix _ (concat cs)). now rewrite <- app_assoc. }
    destruct (write_verbose (vadv k0 (splitlines F)) B lc c Ht1)
      as (E & R & tr1 & -> & HER & Hd1 & Hs1 & Hb1).
    assert (Hsp : splitlines (F ++ E) = splitlines F ++ splitlines E).
    { destruct E as [|x E]; [now rewrite app_nil_r, app_nil_r|].
      apply splitlines_app.
      rewrite <- (seam_ok_app_r F (x :: E) R) by discriminate.
      rewrite <- HER. apply Hseam. }
    rewrite <- vadv_app, <- Hsp.
    destruct (IH (F ++ E) R c) as (F' & B' & tr2 & -> & HFB & Hd2 & Hs2 & Hb2).
    + intros X. destruct E as [|x E].
      * rewrite app_nil_r. cbn [app] in HER. rewrite <- HER, <- app_assoc.
        apply Hseam.
      * rewrite seam_ok_app_l by discriminate. apply Hs1.
    + destruct E as [|x E]; [now rewrite app_nil_r|].
      right. rewrite last_app_nonempty by discriminate.
      destruct Hb1 as [Hb1|Hb1]; [discriminate|exact Hb1].
    + apply (tokenless_suffix E). rewrite app_assoc, <- HER.
      now rewrite <- app_assoc.
    + exists F', B', (tr1 ++ tr2). rewrite last_cons_default.
      repeat split; auto.
      * cbn [concat]. rewrite <- HFB.
        rewrite (app_assoc B c), HER, <- !app_assoc. reflexivity.
      * rewrite delivered_app, app_assoc, Hd1, <- Hd2.
        f_equal. rewrite Hsp. now rewrite vevents_app.
Qed.

(** A [feed] while a payload is pending and the buffer holds no token: the
    text is kept for the pending event. *)
Lemma feed_attached k d chunks : forall B lc,
  tokenless (B ++ concat chunks) ->
  feed opt (mk_state k B lc (Some d)) chunks =
  (mk_state k (B ++ concat chunks) (last chunks lc) (Some d), [], Returned).
Proof.
  induction chunks as [|c cs IH]; intros B lc Ht; cbn [feed concat].
  - cbn [last]. now rewrite app_nil_r.
  - cbn [concat] in Ht.
    assert (Ht1 : tokenless (B ++ c)).
    { apply (tokenless_prefix _ (concat cs)). now rewrite <- app_assoc. }
    assert (Hw : write opt (mk_state k B lc (Some d)) c =
                 (mk_state k (B ++ c) c (Some d), [], Returned)).
    { unfold write.
      change (with_last_chunk (with_buffer (mk_state k B lc (Some d))
                                 (buffer (mk_state k B lc (Some d)) ++ c)) c)
        with (mk_state k (B ++ c) c (Some d)).
      change (last_chunk (mk_state k B lc (Some d))) with lc.
      destruct (contains marker (lc ++ c)).
      - cbn [search_loop].
        change (buffer (mk_state k (B ++ c) c (Some d))) with (B ++ c).
        now rewrite (tokenless_search _ Ht1).
      - unfold flush_lines.
        change (current_event_data (mk_state k (B ++ c) c (Some d)))
          with (Some d).
        now rewrite andb_false_r. }
    rewrite Hw, IH by (now rewrite <- app_assoc).
    rewrite <- app_assoc. now rewrite last_cons_default.
Qed.

End VerbosePhase.

(** ** The write that completes the token *)

Lemma starts_with_self p z : starts_with p (p ++ z) = true.
Proof. induction p as [|a p IH]; cbn; auto. now rewrite N.eqb_refl. Qed.

Lemma contains_inside a p z : contains p (a ++ p ++ z) = true.
Proof.
  induction a as [|x a IH]; cbn [app].
  - destruct (p ++ z) eqn:E; cbn; rewrite <- E, starts_with_self; reflexivity.
  - cbn [contains]. rewrite IH. apply orb_true_r.
Qed.

Section TokenEnd.
Context {L : PyLib}.

Lemma token_run_close_bracket u k :
  token_run TCloseBracket u = Some k -> firstn k u = [75%N].
Proof.
  destruct u as [|c u]; [discriminate|]. cbn.
  destruct (N.eqb_spec c 75); [|discriminate].
  intros H. injection H as <-. now subst.
Qed.

Lemma token_run_close_esc u k :
  token_run TCloseEsc u = Some k -> firstn k u = [91; 75]%N.
Proof.
  destruct u as [|c u]; [discriminate|]. cbn [token_run token_step].
  destruct (N.eqb_spec c 91); [|discriminate]. subst.
  destruct (token_run TCloseBracket u) eqn:E; [|discriminate].
  intros H. injection H as <-. cbn [firstn].
  now rewrite (token_run_close_bracket _ _ E).
Qed.

Lemma token_run_ends q u : forall k,
  token_run q u = Some k ->
  q <> TCloseEsc -> q <> TCloseBracket ->
  exists pre, firstn k u = pre ++ marker.
Proof.
  revert q. induction u as [|c u IH]; intros q k H H1 H2; [discriminate|].
  cbn [token_run] in H.
  destruct (token_step q c) as [| |q'] eqn:Es; try discriminate.
  - destruct q; cbn in Es;
      repeat match type of Es with
             | context [if ?b then _ else _] => destruct b
             end; congruence.
  - destruct (token_run q' u) as [k'|] eqn:E; [|discriminate].
    injection H as <-. cbn [firstn].
    assert (Hq : q' = TCloseBracket -> False).
    { intros ->. destruct q; cbn in Es;
        repeat match type of Es with
               | context [if ?b then _ else _] => destruct b
               end; congruence. }
    destruct (tstate_eq_dec q' TCloseEsc) as [->|Hne].
    + assert (c = 27%N).
      { destruct q; cbn in Es;
          repeat match type of Es with
                 | context [if N.eqb c ?n then _ else _] =>
                     destruct (N.eqb_spec c n)
                 | context [if ?b then _ else _] => destruct b
                 end; congruence. }
      subst c. rewrite (token_run_close_esc _ _ E). exists []. reflexivity.
    + destruct (IH q' k' E Hne) as (pre & ->).
      { intros ->. now apply Hq. }
      exists (c :: pre). reflexivity.
Qed.

Lemma token_ends_with_marker tok :
  token_at tok = Some (List.length tok) -> exists t0, tok = t0 ++ marker.
Proof.
  intros H. unfold token_at in H.
  destruct (starts_with marker tok) eqn:E; [|discriminate].
  apply starts_with_marker_inv in E. destruct E as (t & ->).
  cbn [skipn] in H. destruct (token_run TStart t) as [k|] eqn:E; [|discriminate].
  cbn in H. injection H as H. subst k.
  destruct (token_run_ends _ _ _ E) as (pre & Hp); try discriminate.
  rewrite firstn_all in Hp. rewrite Hp.
  exists (27 :: 91 :: 75 :: pre)%N. reflexivity.
Qed.

End TokenEnd.

Section Completing.
Context {L : PyLib}.
Variable opt : options.

(** The [write] after which the buffer holds the whole token, when the
    window shows the marker: the text [p] in front of the token is emitted
    and the text [r] after it stays in the buffer. *)
Lemma write_token k0 F B lc c p tok r :
  token_at tok = Some (List.length tok) ->
  (forall p1 p2, p = p1 ++ p2 -> p2 <> [] -> token_at (p2 ++ tok ++ r) = None) ->
  tokenless r ->
  B ++ c = p ++ tok ++ r ->
  (forall X, seam_ok F (B ++ X) = true) ->
  contains marker (lc ++ c) = true ->
  let g := firstn (List.length tok - 6) (skipn 3 tok) in
  exists s1 tr o,
    write opt (mk_state (vadv k0 (splitlines F)) B lc None) c = (s1, tr, o) /\
    match decode_payload g with
    | Raise e => tr = [] /\ o = Raised e
    | Ok v =>
        vevents k0 (splitlines F) ++ delivered tr =
        vevents k0 (splitlines (F ++ p)) /\
        match or_empty (Some v) with
        | PDict d =>
            s1 = mk_state (vadv k0 (splitlines (F ++ p))) r r
                          (if get_truthy (lit "uuid") d then Some d else None) /\
            o = Returned
        | _ => o = Raised AttributeError
        end
    end.
Proof.
  intros Htok Hmin Hr HBc Hseam Hwin g.
  set (k := vadv k0 (splitlines F)).
  assert (Hsp : splitlines (F ++ p) = splitlines F ++ splitlines p).
  { destruct p as [|x p]; [now rewrite !app_nil_r|].
    apply splitlines_app.
    rewrite <- (seam_ok_app_r F (x :: p) (tok ++ r)) by discriminate.
    rewrite <- HBc. apply Hseam. }
  assert (Hk : vadv k0 (splitlines (F ++ p)) = vadv k (splitlines p)).
  { now rewrite Hsp, vadv_app. }
  assert (Hev : forall tr, delivered tr = vevents k (splitlines p) ->
                vevents k0 (splitlines F) ++ delivered tr =
                vevents k0 (splitlines (F ++ p))).
  { intros tr ->. now rewrite Hsp, vevents_app. }
  pose proof (write_searches opt (mk_state k B lc None) c Hwin) as Hw.
  change (with_last_chunk (with_buffer (mk_state k B lc None)
                                       (buffer (mk_state k B lc None) ++ c)) c)
    with (mk_state k (B ++ c) c None) in Hw.
  change (buffer (mk_state k B lc None)) with B in Hw.
  cbn [search_loop] in Hw.
  change (buffer (mk_state k (B ++ c) c None)) with (B ++ c) in Hw.
  rewrite HBc, (re_search_intro p tok r Htok Hmin) in Hw. fold g in Hw.
  destruct (decode_payload g) as [v|e0].
  2:{ (* decoding raises *)
    injection Hw as Hw. do 3 eexists. split; [symmetry; exact Hw|]. auto. }
  destruct (or_empty (Some v)) eqn:Eo.
  9:{ (* the payload is a mapping *)
    destruct (_emit_event_verbose k (p ++ tok ++ r) c p
                (Some v) d Eo)
      as (tr & ed & E & Hd & Hser & Hout).
    rewrite E in Hw.
    destruct (echo_of_event opt ed Hser Hout) as (sa & es & E1 & E2 & Hes).
    rewrite E1, E2 in Hw.
    match type of Hw with
    | context [with_last_chunk (with_buffer ?s r) r] =>
        change (with_last_chunk (with_buffer s r) r)
          with (mk_state (vadv k (splitlines p)) r r
                  (if get_truthy (lit "uuid") d then Some d else None)) in Hw
    end.
    pose proof (token_at_long _ _ Htok) as [H4 _].
    destruct (List.length (p ++ tok ++ r)) as [|n] eqn:El.
    { rewrite !length_app in El. lia. }
    cbn [search_loop] in Hw.
    match type of Hw with
    | context [buffer (mk_state ?a ?b ?c ?d)] =>
        change (buffer (mk_state a b c d)) with b in Hw
    end.
    rewrite (tokenless_search _ Hr) in Hw.
    injection Hw as Hw. do 3 eexists. split; [symmetry; exact Hw|].
    split; [|rewrite Hk; auto].
    apply Hev. rewrite !delivered_app, Hes, Hd. cbn. now rewrite app_nil_r. }
  all: assert (Hv : truthy v = true /\
                    forall d, v <> PDict d)
    by (unfold or_empty in Eo; destruct (truthy v);
        [split; [reflexivity|intros d; congruence]|discriminate]);
    destruct Hv as [Hv1 Hv2];
    destruct (_emit_event_verbose_raises k (p ++ tok ++ r) c p
                v Hv1 Hv2) as (tr & E & Hd);
    rewrite E in Hw; injection Hw as Hw;
    do 3 eexists; (split; [symmetry; exact Hw|]); split; auto.
Qed.

Lemma close_verbose k B lc :
  exists s1 tr,
    close opt (mk_state k B lc None) = (s1, tr) /\
    delivered tr = vevents k (splitlines B) ++ [eof_event].
Proof.
  unfold close. change (buffer (mk_state k B lc None)) with B.
  destruct B as [|x B]; cbn [is_nil negb].
  - do 2 eexists. split; [reflexivity|].
    destruct (handle opt); reflexivity.
  - destruct (_emit_event_verbose k (x :: B) lc (x :: B) None [] eq_refl)
      as (tr & ed & -> & Hd & _).
    do 2 eexists. split; [reflexivity|].
    rewrite delivered_app, Hd. destruct (handle opt); reflexivity.
Qed.

Lemma close_attached k B lc d :
  d <> [] ->
  exists s1 tr,
    close opt (mk_state k B lc (Some d)) = (s1, tr) /\
    delivered tr =
    (if is_nil B then [] else [attached_event k d B]) ++ [eof_event].
Proof.
  intros Hd. unfold close. change (buffer (mk_state k B lc (Some d))) with B.
  destruct B as [|x B]; cbn [is_nil negb].
  - do 2 eexists. split; [reflexivity|].
    destruct (handle opt); reflexivity.
  - unfold _emit_event, pending.
    change (current_event_data (mk_state k (x :: B) lc (Some d))) with (Some d).
    destruct d as [|e d]; [congruence|]. cbn [is_nil or_empty emit_chunks].
    do 2 eexists. split; [reflexivity|].
    destruct (handle opt); reflexivity.
Qed.

Lemma feed_app cs1 : forall s cs2,
  feed opt s (cs1 ++ cs2) =
  match feed opt s cs1 with
  | (s1, tr1, Returned) =>
      let '(s2, tr2, o) := feed opt s1 cs2 in (s2, tr1 ++ tr2, o)
  | (s1, tr1, Raised e) => (s1, tr1, Raised e)
  end.
Proof.
  induction cs1 as [|c cs1 IH]; intros s cs2; cbn [feed app].
  - destruct (feed opt s cs2) as [[s2 tr2] o]. reflexivity.
  - destruct (write opt s c) as [[s1 tr1] [|e]]; auto.
    rewrite IH. destruct (feed opt s1 cs1) as [[s2 tr2] [|e]]; auto.
    + destruct (feed opt s2 cs2) as [[s3 tr3] o]. now rewrite app_assoc.
Qed.

End Completing.

(** ** The detection window *)

Lemma app_split_le {A} (x y u v : list A) :
  x ++ y = u ++ v -> (List.length u <= List.length x)%nat ->
  exists t, x = u ++ t /\ v = t ++ y.
Proof.
  intros H Hl. apply app_eq_app in H. destruct H as (l & [[H1 H2]|[H1 H2]]).
  - eauto.
  - subst u. rewrite length_app in Hl.
    destruct l; [|cbn in Hl; lia].
    exists []. rewrite !app_nil_r. cbn in H2. auto.
Qed.

Lemma window_covers_off chunks : forall prev off lo hi,
  window_covers prev off chunks lo hi = true -> (off <= lo)%nat.
Proof.
  induction chunks as [|c cs IH]; intros prev off lo hi H; [discriminate|].
  cbn [window_covers] in H. apply orb_prop in H. destruct H as [H|H].
  - apply andb_prop in H. destruct H as [H _]. now apply Nat.leb_le in H.
  - apply IH in H. lia.
Qed.

Lemma marker_in_window (w0 prev c y a z : text) :
  w0 ++ prev ++ c ++ y = a ++ marker ++ z ->
  (List.length w0 <= List.length a)%nat ->
  (List.length a + 3 <= List.length (w0 ++ prev ++ c))%nat ->
  contains marker (prev ++ c) = true.
Proof.
  intros H H1 H2. symmetry in H.
  destruct (app_split_le _ _ _ _ H H1) as (a' & -> & H3).
  rewrite !length_app in *.
  assert (H4 : (prev ++ c) ++ y = (a' ++ marker) ++ z)
    by (now rewrite <- !app_assoc).
  destruct (app_split_le _ _ _ _ H4) as (t & -> & _).
  { rewrite !length_app. cbn in *. lia. }
  rewrite <- app_assoc. apply contains_inside.
Qed.

Lemma window_split (stream a z : text) (lo hi : nat) :
  stream = a ++ marker ++ z -> List.length a = lo -> hi = (lo + 3)%nat ->
  forall chunks prev w0,
    w0 ++ prev ++ concat chunks = stream ->
    (List.length (w0 ++ prev) < hi)%nat ->
    window_covers prev (List.length w0) chunks lo hi = true ->
    exists cs1 c cs2,
      chunks = cs1 ++ c :: cs2 /\
      (List.length (w0 ++ prev ++ concat cs1) < hi)%nat /\
      (hi <= List.length (w0 ++ prev ++ concat cs1 ++ c))%nat /\
      contains marker (last cs1 prev ++ c) = true.
Proof.
  intros Hs Ha Hhi. induction chunks as [|c cs IH]; intros prev w0 Hw Hlt Hc;
    [discriminate|].
  cbn [window_covers] in Hc. cbn [concat] in Hw.
  destruct (Nat.le_gt_cases hi (List.length (w0 ++ prev ++ c))) as [Hle|Hgt].
  - exists [], c, cs. cbn [app concat last].
    repeat split; auto.
    + now rewrite app_nil_r.
    + apply (marker_in_window w0 prev c (concat cs) a z); try (subst; lia).
      * now rewrite Hw.
      * apply orb_prop in Hc. destruct Hc as [Hc|Hc].
        -- apply andb_prop in Hc. destruct Hc as [Hc _].
           apply Nat.leb_le in Hc. lia.
        -- apply window_covers_off in Hc. lia.
  - apply orb_prop in Hc. destruct Hc as [Hc|Hc].
    { apply andb_prop in Hc. destruct Hc as [_ Hc]. apply Nat.leb_le in Hc.
      rewrite !length_app in Hgt. lia. }
    destruct (IH c (w0 ++ prev)) as (cs1 & c' & cs2 & -> & H1 & H2 & H3).
    + now rewrite <- app_assoc.
    + now rewrite <- app_assoc.
    + now rewrite length_app.
    + exists (c :: cs1), c', cs2. rewrite last_cons_default.
      cbn [concat app]. rewrite <- !app_assoc in *. auto.
Qed.

(** ** Chunks *)

Section Chunking.
Context {L : PyLib}.
Variable opt : options.
Hypothesis sane : Nd_sane.

Lemma get_truthy_nonempty k (d : dict) : get_truthy k d = true -> d <> [].
Proof. intros H ->. discriminate. Qed.

(** What a session delivers when the closing marker of the token falls
    within two chunks written one after the other. *)
Lemma session_expected stream before g rest chunks :
  re_search stream = Some (before, g, rest) ->
  re_search rest = None ->
  concat chunks = stream ->
  window_covers [] 0 chunks (List.length stream - List.length rest - 3)
                (List.length stream - List.length rest) = true ->
  snd (session opt chunks) = snd (expected before g rest) /\
  (decodes g ->
   delivered (fst (session opt chunks)) = fst (expected before g rest)).
Proof.
  intros Hs Hr Hc Hw.
  destruct (re_search_inv _ _ _ _ Hs) as (tok & Hst & Htok & Hg & Hmin).
  apply search_none_tokenless in Hr.
  destruct (token_ends_with_marker tok Htok) as (t0 & Ht0).
  pose proof (token_at_long _ _ Htok) as [H4 _].
  assert (Hlt : List.length tok = (List.length t0 + 3)%nat)
    by (rewrite Ht0, length_app; reflexivity).
  assert (Hhi : (List.length stream - List.length rest)%nat =
                (List.length (before ++ t0) + 3)%nat).
  { rewrite Hst, !length_app. lia. }
  rewrite Hhi in Hw.
  replace (List.length (before ++ t0) + 3 - 3)%nat
    with (List.length (before ++ t0)) in Hw by lia.
  destruct (window_split stream (before ++ t0) rest
              (List.length (before ++ t0)) (List.length (before ++ t0) + 3))
    with (chunks := chunks) (prev := @nil char) (w0 := @nil char)
    as (cs1 & c & cs2 & -> & H1 & H2 & H3); auto.
  { rewrite Hst, Ht0, <- !app_assoc. reflexivity. }
  { cbn. lia. }
  cbn [app] in H1, H2.
  rewrite concat_app in Hc. cbn [concat] in Hc.
  (* the text [z] that completes the token and the text [r] after it *)
  assert (Hc' : (before ++ tok) ++ rest = concat cs1 ++ c ++ concat cs2)
    by (now rewrite Hc, Hst, <- app_assoc).
  destruct (app_split_le _ _ _ _ Hc') as (z & Hz1 & Hz2).
  { rewrite !length_app in *. lia. }
  assert (Hzne : z <> []).
  { intros ->. rewrite app_nil_r in Hz1. rewrite <- Hz1 in H1.
    rewrite !length_app in *. lia. }
  destruct (app_split_le c (concat cs2) z rest) as (r & -> & Hrest); auto.
  { apply (f_equal (@List.length char)) in Hz1.
    rewrite !length_app in *. lia. }
  (* the chunks before the token is complete *)
  destruct (feed_verbose opt core0 cs1 [] [] []) as (F & B & tr1 & E1 & HFB & Hd1 & Hseam & Hbr);
    auto.
  { cbn [app]. eapply (incomplete_tokenless sane before tok rest); eauto. }
  cbn [app splitlines vevents] in HFB, Hd1.
  assert (Hp : exists p, before = F ++ p /\ B ++ z = p ++ tok).
  { assert (H0 : F ++ (B ++ z) = before ++ tok)
      by (now rewrite Hz1, HFB, <- app_assoc).
    apply app_eq_app in H0. destruct H0 as (l & [[Ha Hb]|[Ha Hb]]).
    - destruct l as [|x l].
      + exists []. rewrite app_nil_r in *. cbn in Hb. auto.
      + exfalso. destruct Hbr as [->|Hbr]; [destruct before; discriminate|].
        rewrite Ha, last_app_nonempty in Hbr by discriminate.
        rewrite (token_chars sane tok) in Hbr; [discriminate|assumption|].
        rewrite Hb. apply in_or_app. left.
        assert (Hl : x :: l <> []) by discriminate.
        apply (exists_last) in Hl. destruct Hl as (l' & y & ->).
        rewrite last_last. apply in_or_app. right. now left.
    - eauto. }
  destruct Hp as (p & Hbefore & HBz).
  assert (HBc : B ++ z ++ r = p ++ tok ++ r)
    by (now rewrite app_assoc, HBz, <- app_assoc).
  destruct (write_token opt core0 F B (last cs1 []) (z ++ r) p tok r)
    as (s1 & tr & o & Ew & Hcase); auto.
  { intros p1 p2 -> Hne.
    destruct (token_at (p2 ++ tok ++ r)) eqn:Et; auto.
    apply (token_at_extend _ (concat cs2)) in Et.
    rewrite <- !app_assoc, <- Hrest in Et.
    rewrite (Hmin (F ++ p1) p2) in Et; [discriminate| |assumption].
    now rewrite Hbefore, app_assoc. }
  { apply (tokenless_prefix r (concat cs2)). now rewrite <- Hrest. }
  rewrite <- Hg in Hcase.
  (* the session *)
  unfold session, expected.
  change new_filter with (mk_state (vadv core0 (splitlines [])) [] [] None).
  rewrite feed_app, E1. cbn [feed]. rewrite Ew.
  destruct (decode_payload g) as [v|e0] eqn:Edec.
  2:{ (* decoding raises: the session ends there *)
    destruct Hcase as [-> ->]. cbn [fst snd]. split; [reflexivity|].
    intros Hdec. exfalso. unfold decode_payload in Edec.
    destruct (b64_json_loads (re_sub_cursor g)) as [v|e1] eqn:Eb;
      [discriminate|].
    rewrite (Hdec e1 Eb) in Edec. discriminate. }
  destruct Hcase as [Hdw Hcase]. rewrite <- Hbefore in Hdw, Hcase.
  match goal with
  | |- snd ?X = snd ?Y /\ _ =>
      enough (Hpair : (delivered (fst X), snd X) = Y)
        by (rewrite <- Hpair; split; [reflexivity|intros _; reflexivity])
  end.
  assert (Hev1 : delivered (tr1 ++ tr) = vevents core0 (splitlines before)).
  { now rewrite delivered_app, Hd1. }
  destruct (or_empty (Some v)) eqn:Eo;
    try (subst o; cbn [fst snd]; now rewrite Hev1).
  destruct Hcase as [-> ->].
  destruct (get_truthy (lit "uuid") d) eqn:Eu.
  - (* the payload is pending: the text after the token is attached to it *)
    rewrite (feed_attached opt _ d cs2 r r)
      by (now rewrite <- Hrest).
    rewrite <- Hrest. cbv beta iota zeta.
    destruct (close_attached opt (vadv core0 (splitlines before)) rest
                (last cs2 r) d (get_truthy_nonempty _ _ Eu))
      as (s2 & tr2 & E2 & Hd2).
    unfold dict in *. rewrite E2.
    cbn [fst snd]. rewrite app_nil_r.
    now rewrite delivered_app, Hev1, Hd2.
  - (* no payload is pending: the text after the token is plain output *)
    change (mk_state (vadv core0 (splitlines before)) r r None)
      with (mk_state (vadv (vadv core0 (splitlines before)) (splitlines []))
                     r r None).
    destruct (feed_verbose opt (vadv core0 (splitlines before)) cs2 [] r r)
      as (F2 & B2 & tr2 & -> & HFB2 & Hd2 & Hseam2 & _); auto.
    { now rewrite <- Hrest. }
    cbn [app splitlines vevents] in HFB2, Hd2. cbv beta iota zeta.
    destruct (close_verbose opt (vadv (vadv core0 (splitlines before))
                                      (splitlines F2)) B2 (last cs2 r))
      as (s3 & tr3 & -> & Hd3).
    cbn [fst snd]. f_equal.
    rewrite (app_assoc tr1), delivered_app, delivered_app, Hev1, Hd2, Hd3.
    rewrite <- app_assoc. f_equal. rewrite app_assoc. f_equal.
    rewrite <- vevents_app, <- splitlines_app, <- HFB2, <- Hrest; auto.
    rewrite <- (app_nil_r B2). apply Hseam2.
Qed.

End Chunking.

Lemma failing_lib_sane : @Nd_sane failing_lib.
Proof.
  split; intros c H; [reflexivity|].
  apply linebreak_cases in H. cbn in H.
  repeat (destruct H as [<-|H]; [reflexivity|]). contradiction.
Qed.

(** C1, as stated, fails: written one character at a time, the token is
    never searched for, and [close] delivers it as a line of plain output;
    written in one piece, it is decoded and delivers nothing. *)
Lemma chunking_can_change_events :
  ~ (forall (L : PyLib) (opt : options) (stream : text) (chunks : list text),
        one_token stream -> concat chunks = stream ->
        delivered (fst (session opt chunks)) =
        delivered (fst (session opt [stream]))).
Proof.
  intros H.
  specialize (H failing_lib plain_options bad_token
                (map (fun c => [c]) bad_token)).
  assert (H1 : @one_token failing_lib bad_token).
  { exists [], (lit "AAAA" ++ [27; 91]%N ++ lit "1D"), []. vm_compute. auto. }
  specialize (H H1 eq_refl). vm_compute in H. discriminate H.
Qed.

(** C1, amended.  For a stream with one embedded event token, every
    splitting into chunks in which the closing marker of the token lies
    within two chunks written one after the other ends the same way as the
    stream written in one piece, and delivers the same events when decoding
    the payload of the token returns or raises a [ValueError]. *)
Theorem chunking_within_window :
  forall (L : PyLib) (opt : options) (stream before g rest : text)
         (chunks : list text),
    Nd_sane ->
    re_search stream = Some (before, g, rest) ->
    re_search rest = None ->
    concat chunks = stream ->
    window_covers [] 0 chunks (List.length stream - List.length rest - 3)
                  (List.length stream - List.length rest) = true ->
    (decodes g ->
     delivered (fst (session opt chunks)) =
     delivered (fst (session opt [stream]))) /\
    snd (session opt chunks) = snd (session opt [stream]).
Proof.
  intros L opt stream before g rest chunks sane Hs Hr Hc Hw.
  destruct (session_expected opt sane stream before g rest chunks Hs Hr Hc Hw)
    as [H1 H2].
  destruct (session_expected opt sane stream before g rest [stream] Hs Hr)
    as [H3 H4].
  { cbn. apply app_nil_r. }
  { cbn [window_covers]. apply orb_true_intro. left.
    apply andb_true_intro. split; [reflexivity|].
    apply Nat.leb_le. cbn [List.length]. lia. }
  split.
  - intros Hdec. now rewrite (H2 Hdec), (H4 Hdec).
  - now rewrite H1, H3.
Qed.

Lemma chunking_within_window_witness :
  delivered (fst (@session failing_lib plain_options sample_chunks)) =
  delivered (fst (@session failing_lib plain_options [sample_stream])) /\
  snd (@session failing_lib plain_options sample_chunks) =
  snd (@session failing_lib plain_options [sample_stream]).
Proof.
  destruct (chunking_within_window failing_lib plain_options sample_stream
              (lit "out" ++ [LF]) (lit "AAAA" ++ [27; 91]%N ++ lit "1D")
              (lit "x") sample_chunks) as [H1 H2].
  - exact failing_lib_sane.
  - vm_compute. reflexivity.
  - vm_compute. reflexivity.
  - vm_compute. reflexivity.
  - vm_compute. reflexivity.
  - split; [apply H1|exact H2].
    intros e He. injection He as <-. reflexivity.
Defined.

(** The condition on the payload cannot be dropped.  When decoding raises
    an exception that [write] does not catch, the stream written in one
    piece delivers nothing, and the stream written in chunks has delivered
    the lines that were complete before the token was. *)
Lemma raising_decoder_cuts_the_session :
  ~ (forall (L : PyLib) (opt : options) (stream before g rest : text)
            (chunks : list text),
        Nd_sane ->
        re_search stream = Some (before, g, rest) ->
        re_search rest = None ->
        concat chunks = stream ->
        window_covers [] 0 chunks (List.length stream - List.length rest - 3)
                      (List.length stream - List.length rest) = true ->
        delivered (fst (session opt chunks)) =
        delivered (fst (session opt [stream]))).
Proof.
  intros H.
  specialize (H deep_lib plain_options deep_stream (lit "out" ++ [LF])
                (deep_payload ++ [27; 91]%N ++ lit "1D") (lit "x") deep_chunks).
  assert (Hsane : @Nd_sane deep_lib).
  { split; intros c Hc; [reflexivity|].
    apply linebreak_cases in Hc. cbn in Hc.
    repeat (destruct Hc as [<-|Hc]; [reflexivity|]). contradiction. }
  specialize (H Hsane).
  assert (H1 : List.length
                 (delivered (fst (@session deep_lib plain_options deep_chunks)))
               = 1%nat) by (vm_compute; reflexivity).
  assert (H2 : delivered (fst (@session deep_lib plain_options [deep_stream]))
               = []) by (vm_compute; reflexivity).
  rewrite H, H2 in H1; try (vm_compute; reflexivity).
  discriminate H1.
Qed.

(** ** The stable sort *)

Section SortFacts.
Variable A : Type.
Variable key : A -> Z.

Lemma insert_by_perm x l : Permutation (insert_by key x l) (x :: l).
Proof.
  induction l as [|y l IH]; cbn; auto.
  destruct (key x <=? key y)%Z; auto.
  rewrite IH. apply perm_swap.
Qed.

Lemma sort_by_perm l : Permutation (sort_by key l) l.
Proof.
  induction l as [|x l IH]; cbn; auto.
  rewrite insert_by_perm. now constructor.
Qed.

Lemma insert_by_sorted x l :
  StronglySorted (key_le key) l -> StronglySorted (key_le key) (insert_by key x l).
Proof.
  induction 1 as [|y l Hs IH Hy]; cbn.
  - repeat constructor.
  - destruct (key x <=? key y)%Z eqn:E.
    + apply Z.leb_le in E. constructor; [now constructor|].
      constructor; auto.
      eapply Forall_impl; [|exact Hy]. unfold key_le. intros; lia.
    + apply Z.leb_gt in E. constructor; auto.
      eapply Permutation_Forall; [symmetry; apply insert_by_perm|].
      constructor; auto. unfold key_le. lia.
Qed.

Lemma sort_by_sorted l : StronglySorted (key_le key) (sort_by key l).
Proof.
  induction l as [|x l IH]; cbn; [constructor|]. now apply insert_by_sorted.
Qed.

Lemma sort_by_two l a b :
  Permutation l [a; b] -> (key a < key b)%Z -> sort_by key l = [a; b].
Proof.
  intros H Hlt. symmetry in H. apply Permutation_length_2_inv in H.
  destruct H as [->| ->]; cbn.
  - destruct (Z.leb_spec (key a) (key b)); [reflexivity|lia].
  - destruct (Z.leb_spec (key b) (key a)); [lia|reflexivity].
Qed.

End SortFacts.

Lemma filter_perm {A} (f : A -> bool) l l' :
  Permutation l l' -> Permutation (List.filter f l) (List.filter f l').
Proof.
  induction 1 as [|x l l' _ IH|x y l|l l' l'' _ IH1 _ IH2]; cbn; auto.
  - destruct (f x); auto.
  - destruct (f x), (f y); auto. apply perm_swap.
  - now rewrite IH1.
Qed.

Lemma StronglySorted_app_l {A} (R : A -> A -> Prop) l1 l2 :
  StronglySorted R (l1 ++ l2) -> StronglySorted R l1.
Proof.
  induction l1 as [|x l1 IH]; cbn; intros H; [constructor|].
  apply StronglySorted_inv in H. destruct H as [H1 H2].
  constructor; auto. apply Forall_app in H2. tauto.
Qed.

(** ** collect_new_events *)

Section PollerFacts.
Context {L : PyLib}.

(** The files read are the files up to the first one that does not parse;
    the call returns unless that file raised something else than a
    [ValueError]. *)
Lemma read_events_spec files : forall old ys final o,
  read_events files old = (ys, final, o) ->
  exists done rest,
    files = done ++ rest /\
    map y_file ys = map fst done /\
    Forall2 (fun y f => y_file y = fst f /\ json_load (snd f) = Ok (y_event y))
            ys done /\
    match o with
    | Returned =>
        rest = [] \/
        exists f rest' e, rest = f :: rest' /\ json_load (snd f) = Raise e /\
                          is_ValueError e = true
    | Raised e =>
        exists f rest', rest = f :: rest' /\ json_load (snd f) = Raise e /\
                        is_ValueError e = false
    end /\
    (forall k, dict_has k final = dict_has k old || existsb (text_eqb k) (map fst done)).
Proof.
  induction files as [|[name content] files IH]; intros old ys final o H;
    cbn [read_events] in H.
  - injection H as <- <- <-. exists [], []. cbn. repeat split; auto.
    intros k. now rewrite orb_false_r.
  - destruct (json_load content) as [ev|e] eqn:E.
    + destruct (read_events files (dict_set name (PBool true) old))
        as [[ys' final'] o'] eqn:E2.
      injection H as <- <- <-.
      destruct (IH _ _ _ _ E2) as (done & rest & -> & Hn & Hf & Hr & Hk).
      exists ((name, content) :: done), rest. cbn. repeat split; auto.
      * now rewrite Hn.
      * intros k. rewrite Hk. unfold dict_has.
        destruct (text_eqb k name) eqn:Ek.
        -- apply text_eqb_eq in Ek. subst k. rewrite dict_get_set_eq.
           cbn. now rewrite orb_true_r.
        -- apply text_eqb_neq in Ek. rewrite dict_get_set_neq by assumption.
           reflexivity.
    + destruct (is_ValueError e) eqn:Ev; injection H as <- <- <-;
        exists [], ((name, content) :: files); cbn; repeat split; auto;
        try (intros k; now rewrite orb_false_r).
      * right. exists (name, content), files, e. auto.
      * exists (name, content), files. auto.
Qed.

Lemma read_events_until done : forall f rest old e,
  (forall x e', In x done -> json_load (snd x) <> Raise e') ->
  json_load (snd f) = Raise e ->
  exists ys final,
    read_events (done ++ f :: rest) old =
    (ys, final, if is_ValueError e then Returned else Raised e) /\
    map y_file ys = map fst done /\
    Forall2 (fun y x => json_load (snd x) = Ok (y_event y)) ys done /\
    (forall k, dict_has k final = dict_has k old || existsb (text_eqb k) (map fst done)).
Proof.
  induction done as [|[name content] done IH];
    intros [fname fcontent] rest old e Hd Hf; cbn [read_events app].
  - cbn in Hf. rewrite Hf. exists [], old.
    split; [destruct (is_ValueError e); reflexivity|].
    cbn. repeat split; auto. intros k. now rewrite orb_false_r.
  - destruct (json_load content) as [ev|e1] eqn:E.
    2:{ exfalso. apply (Hd (name, content) e1); [now left|exact E]. }
    destruct (IH (fname, fcontent) rest (dict_set name (PBool true) old) e)
      as (ys & final & -> & Hn & Hf2 & Hk); auto.
    { intros x e' Hx. apply Hd. now right. }
    do 2 eexists. split; [reflexivity|]. cbn. repeat split; auto.
    + now rewrite Hn.
    + intros k. rewrite Hk. unfold dict_has.
      destruct (text_eqb k name) eqn:Ek.
      * apply text_eqb_eq in Ek. subst k. rewrite dict_get_set_eq.
        cbn. now rewrite orb_true_r.
      * apply text_eqb_neq in Ek. rewrite dict_get_set_neq by assumption.
        reflexivity.
Qed.

Lemma dir_events_actual_perm dir old :
  Permutation (dir_events_actual dir old)
              (List.filter (fun f => selected old (fst f)) dir).
Proof. apply sort_by_perm. Qed.

Lemma dir_events_actual_in dir old f :
  In f (dir_events_actual dir old) -> In f dir /\ selected old (fst f) = true.
Proof.
  intros H. eapply Permutation_in in H; [|apply dir_events_actual_perm].
  now apply filter_In in H.
Qed.

End PollerFacts.

Lemma Forall2_in_left {A B} (R : A -> B -> Prop) l1 l2 x :
  Forall2 R l1 l2 -> In x l1 -> exists y, In y l2 /\ R x y.
Proof.
  induction 1 as [|a b l1 l2 Hab _ IH]; intros Hin; [contradiction|].
  destruct Hin as [<-|Hin].
  - exists b. split; [now left|assumption].
  - destruct (IH Hin) as (y & Hy & Hr). exists y. split; [now right|assumption].
Qed.

Lemma StronglySorted_map_fst (l : list (text * text)) :
  StronglySorted (key_le (fun f => sequence_number (fst f))) l ->
  StronglySorted by_sequence (map fst l).
Proof.
  induction 1 as [|x l _ IH Hx]; cbn; constructor; auto.
  apply Forall_map. exact Hx.
Qed.

Lemma selected_inv old name :
  selected old name = true ->
  event_file_re name = true /\
  contains (lit "-partial") name = false /\
  dict_has name old = false.
Proof.
  unfold selected. intros H. apply andb_prop in H. destruct H as [H1 H].
  apply andb_prop in H. destruct H as [H2 H3].
  apply negb_true_iff in H2, H3. auto.
Qed.

(** C6.  A call yields only events of files whose names match the pattern,
    hold no [-partial] and are not in the seen set, each parsed from the
    content of its file, in ascending order of the sequence number before
    the first dash; and given [1-a.json], [2-b.json] and [3-b-partial.json],
    listed in any order, and an empty seen set, it yields the event of
    [1-a.json], then that of [2-b.json], and nothing else. *)
Theorem poll_yields_selected_files_in_order :
  forall (L : PyLib) (dir : event_dir) (old_events : dict),
    (forall y, In y (fst (fst (collect_new_events dir old_events))) ->
       event_file_re (y_file y) = true /\
       contains (lit "-partial") (y_file y) = false /\
       dict_has (y_file y) old_events = false /\
       exists content,
         In (y_file y, content) dir /\ json_load content = Ok (y_event y)) /\
    StronglySorted by_sequence
      (map y_file (fst (fst (collect_new_events dir old_events)))) /\
    (forall listing c1 c2 c3 e1 e2,
       Permutation listing [(lit "1-a.json", c1); (lit "2-b.json", c2);
                            (lit "3-b-partial.json", c3)] ->
       json_load c1 = Ok e1 -> json_load c2 = Ok e2 ->
       yields (fst (fst (collect_new_events listing []))) =
       [(lit "1-a.json", e1); (lit "2-b.json", e2)]).
Proof.
  intros L dir old. unfold collect_new_events.
  destruct (read_events (dir_events_actual dir old) old) as [[ys final] o] eqn:E.
  destruct (read_events_spec _ _ _ _ _ E) as (done & rest & Hd & Hn & Hf & _ & _).
  cbn [fst]. split; [|split].
  - intros y Hy.
    destruct (Forall2_in_left _ _ _ _ Hf Hy) as ([name content] & Hin & Hname & Hload).
    cbn in Hname, Hload.
    assert (Hin' : In (name, content) (dir_events_actual dir old)).
    { rewrite Hd. apply in_or_app. now left. }
    apply dir_events_actual_in in Hin'. destruct Hin' as [Hdir Hsel].
    apply selected_inv in Hsel. cbn in Hsel. rewrite Hname.
    destruct Hsel as (H1 & H2 & H3). repeat split; auto.
    exists content. auto.
  - rewrite Hn. apply StronglySorted_map_fst.
    apply (StronglySorted_app_l _ done rest). rewrite <- Hd.
    apply sort_by_sorted.
  - intros listing c1 c2 c3 e1 e2 Hp H1 H2.
    assert (Hs : dir_events_actual listing [] =
                 [(lit "1-a.json", c1); (lit "2-b.json", c2)]).
    { unfold dir_events_actual. apply sort_by_two; [|vm_compute; reflexivity].
      rewrite (filter_perm _ _ _ Hp). cbn [List.filter fst].
      change (selected [] (lit "1-a.json")) with true.
      change (selected [] (lit "2-b.json")) with true.
      change (selected [] (lit "3-b-partial.json")) with false.
      reflexivity. }
    rewrite Hs. cbn [read_events]. rewrite H1, H2. reflexivity.
Qed.

Lemma poll_example_witness :
  yields (fst (fst (@collect_new_events echo_lib
                 [(lit "3-b-partial.json", lit "{}"); (lit "2-b.json", lit "{2}");
                  (lit "1-a.json", lit "{1}")] []))) =
  [(lit "1-a.json", PStr (lit "{1}")); (lit "2-b.json", PStr (lit "{2}"))].
Proof.
  apply (proj2 (proj2 (poll_yields_selected_files_in_order echo_lib [] []))
           _ (lit "{1}") (lit "{2}") (lit "{}")).
  - apply Permutation_rev.
  - reflexivity.
  - reflexivity.
Defined.

(** C2, as stated, fails: a file that does not parse is not marked as
    seen. *)
Lemma unparsable_file_is_not_marked :
  ~ (forall (L : PyLib) (dir : event_dir) (old_events : dict) done f rest e,
        dir_events_actual dir old_events = done ++ f :: rest ->
        (forall x e', In x done -> json_load (snd x) <> Raise e') ->
        json_load (snd f) = Raise e ->
        snd (collect_new_events dir old_events) = Returned /\
        dict_has (fst f) (snd (fst (collect_new_events dir old_events))) = true).
Proof.
  intros H.
  specialize (H echo_lib [(lit "1-a.json", [])] [] [] (lit "1-a.json", []) []
                JSONDecodeError eq_refl).
  cbn in H. destruct H as [_ H]; [intros x e' []|reflexivity|discriminate H].
Qed.

(** C2, amended.  When [json.load] raises [e] on a selected file, the call
    yields the events of the files before it and stops there: it returns
    when [e] is a [ValueError] (as [json.JSONDecodeError] and
    [UnicodeDecodeError] are), and raises [e] to its caller otherwise.  It
    marks the files before that one as seen and no other: the file that did
    not parse stays unmarked, and a poll with the seen set as the call left
    it selects that file again. *)
Theorem unparsable_file_stops_the_poll :
  forall (L : PyLib) (dir : event_dir) (old_events : dict) done f rest e,
    NoDup (map fst dir) ->
    dir_events_actual dir old_events = done ++ f :: rest ->
    (forall x e', In x done -> json_load (snd x) <> Raise e') ->
    json_load (snd f) = Raise e ->
    exists ys seen,
      collect_new_events dir old_events =
      (ys, seen, if is_ValueError e then Returned else Raised e) /\
      map y_file ys = map fst done /\
      Forall2 (fun y x => json_load (snd x) = Ok (y_event y)) ys done /\
      (forall k, dict_has k seen =
                 dict_has k old_events || existsb (text_eqb k) (map fst done)) /\
      dict_has (fst f) seen = false /\
      selected seen (fst f) = true.
Proof.
  intros L dir old done f rest e Hnd Hd Hok Hbad.
  unfold collect_new_events. rewrite Hd.
  destruct (read_events_until done f rest old e Hok Hbad)
    as (ys & seen & E & Hn & Hf & Hk).
  assert (Hsel : selected old (fst f) = true).
  { apply (dir_events_actual_in dir old). rewrite Hd.
    apply in_or_app. right. now left. }
  assert (Hfresh : existsb (text_eqb (fst f)) (map fst done) = false).
  { destruct (existsb (text_eqb (fst f)) (map fst done)) eqn:Ex; auto.
    exfalso. apply existsb_exists in Ex. destruct Ex as (n & Hin & Heq).
    apply text_eqb_eq in Heq. subst n.
    assert (Hnd' : NoDup (map fst (done ++ f :: rest))).
    { rewrite <- Hd.
      eapply Permutation_NoDup;
        [apply Permutation_map; symmetry; apply dir_events_actual_perm|].
      clear -Hnd. induction dir as [|[n c] dir IH]; cbn; [constructor|].
      cbn in Hnd. apply NoDup_cons_iff in Hnd. destruct Hnd as [Hn Hnd].
      destruct (selected old n); cbn; auto.
      constructor; auto. intros Hin. apply Hn.
      apply in_map_iff in Hin. destruct Hin as (x & <- & Hx).
      apply filter_In in Hx. apply in_map. tauto. }
    rewrite map_app in Hnd'. cbn [map] in Hnd'.
    apply NoDup_remove_2 in Hnd'. apply Hnd'.
    apply in_or_app. now left. }
  assert (Hun : dict_has (fst f) seen = false).
  { rewrite Hk, Hfresh. apply selected_inv in Hsel. now rewrite (proj2 (proj2 Hsel)). }
  exists ys, seen.
  split; [exact E|]. split; [exact Hn|]. split; [exact Hf|].
  split; [exact Hk|]. split; [exact Hun|].
  apply selected_inv in Hsel. destruct Hsel as (H1 & H2 & _).
  unfold selected. now rewrite H1, H2, Hun.
Qed.

Lemma unparsable_file_witness :
  exists ys seen,
    @collect_new_events echo_lib
      [(lit "2-b.json", []); (lit "1-a.json", lit "{1}"); (lit "3-c.json", lit "{3}")]
      [] = (ys, seen, Returned) /\
    map y_file ys = [lit "1-a.json"] /\
    Forall2 (fun y x => @json_load echo_lib (snd x) = Ok (y_event y)) ys
            [(lit "1-a.json", lit "{1}")] /\
    (forall k, dict_has k seen =
               dict_has k [] || existsb (text_eqb k) [lit "1-a.json"]) /\
    dict_has (lit "2-b.json") seen = false /\
    selected seen (lit "2-b.json") = true.
Proof.
  apply (unparsable_file_stops_the_poll echo_lib
           [(lit "2-b.json", []); (lit "1-a.json", lit "{1}"); (lit "3-c.json", lit "{3}")]
           [] [(lit "1-a.json", lit "{1}")] (lit "2-b.json", [])
           [(lit "3-c.json", lit "{3}")] JSONDecodeError).
  - repeat constructor; cbn; intuition discriminate.
  - vm_compute. reflexivity.
  - intros x e' [<-|[]]. discriminate.
  - reflexivity.
Defined.

(** A directory whose second file is nested too deeply for [json.load]: the
    generator yields the event of the first file and then raises
    [RecursionError]. *)
Lemma deep_file_raises_out_of_the_poll :
  map y_file (fst (fst (@collect_new_events deep_lib deep_event_dir []))) =
  [lit "1-a.json"] /\
  snd (@collect_new_events deep_lib deep_event_dir []) = Raised RecursionError.
Proof. vm_compute. auto. Qed.

(** ** cleanup_folder and cleanup_artifact_dir on a missing path *)





(** ** open_fifo_write with data that is neither text nor bytes *)










(** ** The file system *)

Lemma lookup_unlink_eq es p : lookup (unlink es p) p = None.
Proof.
  unfold unlink. induction es as [|[q i] es IH]; cbn; auto.
  destruct (text_eqb p q) eqn:E; cbn; auto. now rewrite E.
Qed.

Lemma lookup_unlink_neq es p q : p <> q -> lookup (unlink es q) p = lookup es p.
Proof.
  intros Hne. unfold unlink. induction es as [|[r i] es IH]; cbn; auto.
  destruct (text_eqb q r) eqn:E; cbn.
  - apply text_eqb_eq in E. subst r.
    apply text_eqb_neq in Hne. now rewrite Hne.
  - now rewrite IH.
Qed.

Lemma lookup_app es1 es2 p :
  lookup (es1 ++ es2) p =
  match lookup es1 p with Some i => Some i | None => lookup es2 p end.
Proof.
  induction es1 as [|[q i] es1 IH]; cbn; auto. destruct (text_eqb p q); auto.
Qed.

Lemma lookup_store_eq fs p k :
  lookup (entries (store fs p k)) p = Some {| kind := k; mtime := now fs |}.
Proof.
  cbn. rewrite lookup_app, lookup_unlink_eq. cbn. now rewrite text_eqb_refl.
Qed.

Lemma lookup_store_neq fs p q k :
  q <> p -> lookup (entries (store fs p k)) q = lookup (entries fs) q.
Proof.
  intros Hne. cbn. rewrite lookup_app, lookup_unlink_neq by assumption.
  destruct (lookup (entries fs) q); auto.
  cbn. apply text_eqb_neq in Hne. now rewrite Hne.
Qed.

Lemma lookup_remove_neq fs p q :
  q <> p -> lookup (entries (remove fs p)) q = lookup (entries fs) q.
Proof. intros Hne. cbn. now apply lookup_unlink_neq. Qed.


Section ArtifactFacts.
Context {L : PyLib}.

Lemma locked_write_spec fs path fn obj :
  fn <> path_join path lock_name ->
  (exists t, lookup (entries (locked_write fs path fn obj)) fn =
             Some {| kind := File obj; mtime := t |}) /\
  written (locked_write fs path fn obj) = written fs ++ [(fn, obj)].
Proof.
  intros Hne. unfold locked_write. split.
  - rewrite lookup_remove_neq by assumption. cbn [log_write entries].
    rewrite lookup_store_eq. eauto.
  - destruct (path_exists fs (path_join path lock_name)); reflexivity.
Qed.

(** A first call on a target that does not exist writes it. *)
Lemma dump_artifact_fresh fs obj path name :
  let fn := path_join path name in
  fn <> path -> fn <> path_join path lock_name ->
  path_exists fs fn = false ->
  exists fs1 t,
    dump_artifact fs obj path (Some name) = (fs1, Ok fn) /\
    lookup (entries fs1) fn = Some {| kind := File obj; mtime := t |} /\
    written fs1 = written fs ++ [(fn, obj)].
Proof.
  intros fn Hp Hl Hfn. unfold dump_artifact. fold fn.
  set (fs1 := if negb (path_exists fs path) then store fs path Dir else fs).
  assert (H1 : path_exists fs1 fn = false /\ written fs1 = written fs).
  { unfold fs1. destruct (negb (path_exists fs path)); auto.
    split; [|reflexivity]. unfold path_exists in *.
    now rewrite lookup_store_neq. }
  destruct H1 as [H1 H2]. rewrite H1.
  destruct (locked_write_spec fs1 path fn obj Hl) as ((t & Ht) & Hw).
  do 2 eexists. split; [reflexivity|]. split; [exact Ht|]. now rewrite Hw, H2.
Qed.

(** A call on a target that holds [c] compares digests: that of [obj] and
    that of [c] as [read] returns it. *)
Lemma dump_artifact_existing fs obj path name c t :
  let fn := path_join path name in
  fn <> path -> fn <> path_join path lock_name ->
  lookup (entries fs) fn = Some {| kind := File c; mtime := t |} ->
  exists fs1,
    dump_artifact fs obj path (Some name) = (fs1, Ok fn) /\
    written fs1 =
    written fs ++
    (if text_eqb (sha1_hexdigest obj) (sha1_hexdigest (universal_newlines c))
     then [] else [(fn, obj)]) /\
    exists t',
      lookup (entries fs1) fn =
      Some {| kind := File (if text_eqb (sha1_hexdigest obj)
                                        (sha1_hexdigest (universal_newlines c))
                            then c else obj);
              mtime := t' |}.
Proof.
  intros fn Hp Hl Hfn. unfold dump_artifact. fold fn.
  set (fs1 := if negb (path_exists fs path) then store fs path Dir else fs).
  assert (H1 : lookup (entries fs1) fn = Some {| kind := File c; mtime := t |}
               /\ written fs1 = written fs).
  { unfold fs1. destruct (negb (path_exists fs path)); auto.
    split; [|reflexivity]. now rewrite lookup_store_neq. }
  destruct H1 as [H1 H2]. unfold path_exists, read_text. rewrite H1.
  cbn [kind].
  destruct (text_eqb (sha1_hexdigest obj)
                     (sha1_hexdigest (universal_newlines c))); cbn [negb].
  - eexists. split; [reflexivity|]. rewrite app_nil_r. eauto.
  - destruct (locked_write_spec fs1 path fn obj Hl) as ((t' & Ht) & Hw).
    eexists. split; [reflexivity|]. rewrite Hw, H2. eauto.
Qed.

(** Two calls in a row on a target that did not exist. *)
Lemma dump_artifact_twice fs obj obj2 path name :
  let fn := path_join path name in
  fn <> path -> fn <> path_join path lock_name ->
  path_exists fs fn = false ->
  exists fs1 fs2,
    dump_artifact fs obj path (Some name) = (fs1, Ok fn) /\
    written fs1 = written fs ++ [(fn, obj)] /\
    dump_artifact fs1 obj2 path (Some name) = (fs2, Ok fn) /\
    written fs2 =
    written fs1 ++
    (if text_eqb (sha1_hexdigest obj2) (sha1_hexdigest (universal_newlines obj))
     then [] else [(fn, obj2)]).
Proof.
  intros fn Hp Hl Hfn.
  destruct (dump_artifact_fresh fs obj path name Hp Hl Hfn)
    as (fs1 & t & E1 & Hk1 & Hw1).
  destruct (dump_artifact_existing fs1 obj2 path name obj t Hp Hl Hk1)
    as (fs2 & E2 & Hw2 & _).
  exists fs1, fs2. auto.
Qed.

End ArtifactFacts.

(** C5: the code at the failing input.  Content that holds a carriage
    return is read back with the carriage return translated, so the digest
    of the file differs from the digest of the content: the second of two
    identical calls writes the file again. *)
Theorem identical_content_with_carriage_return_is_rewritten :
  forall (L : PyLib) (fs : fsys),
    let obj := lit "a" ++ [CR; LF] in
    sha1_hexdigest obj <> sha1_hexdigest (lit "a" ++ [LF]) ->
    path_exists fs (lit "/d/f") = false ->
    exists fs1 fs2,
      dump_artifact fs obj (lit "/d") (Some (lit "f")) = (fs1, Ok (lit "/d/f")) /\
      dump_artifact fs1 obj (lit "/d") (Some (lit "f")) = (fs2, Ok (lit "/d/f")) /\
      written fs2 = written fs ++ [(lit "/d/f", obj); (lit "/d/f", obj)].
Proof.
  intros L fs obj Hsha Hfn.
  destruct (dump_artifact_twice fs obj obj (lit "/d") (lit "f"))
    as (fs1 & fs2 & E1 & Hw1 & E2 & Hw2); auto; try keys_differ.
  exists fs1, fs2. split; [exact E1|]. split; [exact E2|].
  rewrite Hw2, Hw1, <- app_assoc.
  change (universal_newlines obj) with (lit "a" ++ [LF]).
  apply text_eqb_neq in Hsha. rewrite Hsha. reflexivity.
Qed.

Lemma carriage_return_witness :
  exists fs1 fs2,
    @dump_artifact echo_lib empty_fs (lit "a" ++ [CR; LF]) (lit "/d")
      (Some (lit "f")) = (fs1, Ok (lit "/d/f")) /\
    @dump_artifact echo_lib fs1 (lit "a" ++ [CR; LF]) (lit "/d")
      (Some (lit "f")) = (fs2, Ok (lit "/d/f")) /\
    written fs2 = written empty_fs ++
                  [(lit "/d/f", lit "a" ++ [CR; LF]);
                   (lit "/d/f", lit "a" ++ [CR; LF])].
Proof.
  apply (identical_content_with_carriage_return_is_rewritten echo_lib empty_fs).
  - keys_differ.
  - reflexivity.
Defined.

(** ** Paths under the private data directory *)

Lemma path_join_relative a b :
  head_is slash b = false -> path_join a b = base a ++ b.
Proof.
  intros H. unfold path_join, base. rewrite H.
  destruct (is_nil a || ends_with [slash] a); auto. now rewrite <- app_assoc.
Qed.

Lemma ends_with_app_last a b c :
  ends_with [c] (a ++ b) = ends_with [c] b \/ b = [].
Proof.
  destruct b as [|x b]; auto. left. unfold ends_with.
  rewrite rev_app_distr. cbn [rev].
  destruct (rev b ++ [x]) eqn:E; [destruct (rev b); discriminate|].
  reflexivity.
Qed.

Lemma base_sub d s :
  s <> [] -> ends_with [slash] s = false -> base (base d ++ s) = base d ++ s ++ [slash].
Proof.
  intros Hs He. unfold base at 1.
  destruct (ends_with_app_last (base d) s slash) as [H|H]; [|contradiction].
  rewrite H, He.
  destruct (base d ++ s) eqn:E.
  - apply app_eq_nil in E. tauto.
  - cbn [is_nil orb]. now rewrite <- E, <- app_assoc.
Qed.

Lemma under_dir d s f :
  head_is slash s = false -> head_is slash f = false ->
  s <> [] -> ends_with [slash] s = false ->
  path_join (path_join d s) f = base d ++ s ++ [slash] ++ f.
Proof.
  intros H1 H2 H3 H4.
  rewrite (path_join_relative d s H1), (path_join_relative _ f H2).
  rewrite base_sub by assumption. now rewrite <- !app_assoc.
Qed.

Lemma under_dir_differ d s f s' f' :
  head_is slash s = false -> head_is slash f = false ->
  s <> [] -> ends_with [slash] s = false ->
  head_is slash s' = false -> head_is slash f' = false ->
  s' <> [] -> ends_with [slash] s' = false ->
  s ++ [slash] ++ f <> s' ++ [slash] ++ f' ->
  path_join (path_join d s) f <> path_join (path_join d s') f'.
Proof.
  intros. rewrite !under_dir by assumption.
  intros E. apply app_inv_head in E. contradiction.
Qed.

Lemma under_dir_not_dir d s f :
  head_is slash s = false -> head_is slash f = false ->
  s <> [] -> ends_with [slash] s = false ->
  path_join (path_join d s) f <> path_join d s.
Proof.
  intros H1 H2 H3 H4. rewrite under_dir by assumption.
  rewrite (path_join_relative d s H1). intros E.
  apply app_inv_head in E. rewrite <- (app_nil_r s) in E at 2.
  apply app_inv_head in E. discriminate.
Qed.

(** ** The frame of dump_artifacts *)

Lemma preserves_refl k avoid w : preserves k avoid w w.
Proof.
  split; auto. exists []. split; [now rewrite app_nil_r|]. intros p c [].
Qed.

Lemma preserves_trans k avoid w w1 w2 :
  preserves k avoid w w1 -> preserves k avoid w1 w2 -> preserves k avoid w w2.
Proof.
  intros [H1 (n1 & Hn1 & Ha1)] [H2 (n2 & Hn2 & Ha2)]. split; [congruence|].
  exists (n1 ++ n2). split; [now rewrite Hn2, Hn1, app_assoc|].
  intros p c Hin. apply in_app_or in Hin. destruct Hin; eauto.
Qed.

Lemma keeps_refl k w : keeps k w w.
Proof. reflexivity. Qed.

Lemma keeps_trans k a b c : keeps k a b -> keeps k b c -> keeps k a c.
Proof. unfold keeps. congruence. Qed.

Lemma untouched_refl k p w : untouched k p w w.
Proof. split; [apply preserves_refl|reflexivity]. Qed.

Lemma untouched_trans k p a b c :
  untouched k p a b -> untouched k p b c -> untouched k p a c.
Proof.
  intros [H1 E1] [H2 E2]. split; [eapply preserves_trans; eauto|congruence].
Qed.

Lemma bind_ok {A B} (m : M A) (f : A -> M B) w w' b :
  bind m f w = (w', Ok b) ->
  exists w1 a, m w = (w1, Ok a) /\ f a w1 = (w', Ok b).
Proof.
  unfold bind. destruct (m w) as [w1 [a|e]]; [eauto|discriminate].
Qed.

Section Always.
Variable R : world -> world -> Prop.
Hypothesis R_refl : forall w, R w w.
Hypothesis R_trans : forall a b c, R a b -> R b c -> R a c.

Lemma always_ret {A} (a : A) : always R (ret a).
Proof. intros w w' r H. injection H as <- _. apply R_refl. Qed.

Lemma always_raise {A} e : always R (@raise A e).
Proof. intros w w' r H. injection H as <- _. apply R_refl. Qed.

Lemma always_lift {A} (x : result A) : always R (lift_result x).
Proof. intros w w' r H. injection H as <- _. apply R_refl. Qed.

Lemma always_get k : always R (kw_get k).
Proof. intros w w' r H. injection H as <- _. apply R_refl. Qed.

Lemma always_has k : always R (fun w => (w, Ok (dict_has k (kwargs w)))).
Proof. intros w w' r H. injection H as <- _. apply R_refl. Qed.

Lemma always_exists p : always R (exists_ p).
Proof. intros w w' r H. injection H as <- _. apply R_refl. Qed.

Lemma always_bind {A B} (m : M A) (f : A -> M B) :
  always R m -> (forall a, always R (f a)) -> always R (bind m f).
Proof.
  intros Hm Hf w w' r H. unfold bind in H.
  destruct (m w) as [w1 [a|e]] eqn:E.
  - eapply R_trans; [eapply Hm; eauto|eapply Hf; eauto].
  - injection H as <- _. eapply Hm; eauto.
Qed.

Section Phases.
Context {L : PyLib}.
Variable pdd : text.

Lemma always_resolve :
  always R make_temp_dir ->
  (forall v, always R (kw_set (lit "private_data_dir") v)) ->
  always R resolve_private_data_dir.
Proof.
  intros Ht Hs. unfold resolve_private_data_dir.
  apply always_bind; [apply always_get|]. intros v.
  apply always_bind.
  - destruct (opt_truthy v).
    + destruct v as [[]|]; auto using always_ret, always_raise.
    + apply always_bind; [exact Ht|]. intros d.
      apply always_bind; [apply Hs|]. intros _. apply always_ret.
  - intros dir. apply always_bind; [apply always_exists|].
    intros []; auto using always_ret, always_raise.
Qed.

Lemma always_playbook :
  (forall obj, always R (write_artifact obj (project_dir pdd) (lit "main.json"))) ->
  (forall v, always R (kw_set (lit "playbook") v)) ->
  always R (dump_playbook pdd).
Proof.
  intros Hw Hs. unfold dump_playbook.
  apply always_bind; [apply always_get|]. intros playbook.
  destruct (opt_truthy playbook); [|apply always_ret].
  destruct (isplaybook _); [|apply always_ret].
  apply always_bind; [apply always_lift|]. intros obj.
  apply always_bind; [apply Hw|]. intros fn. apply Hs.
Qed.

Lemma always_inventory :
  (forall obj, always R (write_artifact obj (inventory_dir pdd) (lit "hosts.json"))) ->
  (forall obj, always R (write_artifact obj (inventory_dir pdd) (lit "hosts"))) ->
  (forall v, always R (kw_set (lit "inventory") v)) ->
  always R (dump_inventory pdd).
Proof.
  intros Hw1 Hw2 Hs. unfold dump_inventory.
  apply always_bind; [apply always_get|]. intros obj.
  destruct obj as [[]|]; try apply always_ret.
  - destruct (truthy (PStr s)); [|apply always_ret].
    apply always_bind; [apply always_exists|]. intros found.
    destruct (negb found).
    + apply always_bind; [apply Hw2|]. intros fn. apply Hs.
    + destruct (isabs s); apply Hs.
  - destruct (truthy (PDict d)); [|apply always_ret].
    apply always_bind; [apply always_lift|]. intros s.
    apply always_bind; [apply Hw1|]. intros fn. apply Hs.
Qed.

Lemma always_env_key as_text key :
  (forall s, always R (write_artifact s (env_dir pdd) key)) ->
  always R (kw_pop key) ->
  always R (dump_env_key pdd as_text key).
Proof.
  intros Hw Hp. unfold dump_env_key.
  apply always_bind; [apply always_get|]. intros obj.
  apply always_bind; [apply always_exists|]. intros found.
  destruct (opt_truthy obj && negb found); [|apply always_ret].
  apply always_bind; [apply always_lift|]. intros s.
  apply always_bind; [apply Hw|]. intros _.
  apply always_bind; [apply Hp|]. intros _. apply always_ret.
Qed.

Lemma always_for_each as_text keys :
  (forall key s, In key keys -> always R (write_artifact s (env_dir pdd) key)) ->
  (forall key, In key keys -> always R (kw_pop key)) ->
  always R (for_each keys (dump_env_key pdd as_text)).
Proof.
  induction keys as [|key keys IH]; intros Hw Hp; cbn [for_each].
  - apply always_ret.
  - apply always_bind.
    + apply always_env_key; [intros s; apply Hw|apply Hp]; now left.
    + intros _. apply IH; intros; [apply Hw|apply Hp]; now right.
Qed.

Lemma always_dump_env :
  (forall key s, In key env_keys -> always R (write_artifact s (env_dir pdd) key)) ->
  (forall key, In key env_keys -> always R (kw_pop key)) ->
  always R (dump_env pdd).
Proof.
  intros Hw Hp. unfold dump_env.
  apply always_bind; [apply always_get|]. intros suppress.
  destruct (negb (opt_truthy suppress)); [|apply always_ret].
  apply always_bind; [|intros _];
    (apply always_for_each; intros; [apply Hw|apply Hp];
     unfold env_keys; apply in_or_app; auto).
Qed.

End Phases.
End Always.

(** What the primitive steps keep. *)

Lemma keeps_set k k' v : k <> k' -> always (keeps k) (kw_set k' v).
Proof.
  intros Hne w w' r H. injection H as <- _. unfold keeps. cbn.
  now apply dict_get_set_neq.
Qed.

Lemma keeps_pop k k' : k <> k' -> always (keeps k) (kw_pop k').
Proof.
  intros Hne w w' r H. injection H as <- _. unfold keeps. cbn.
  now apply dict_get_del_neq.
Qed.

Lemma untouched_set k p k' v : k <> k' -> always (untouched k p) (kw_set k' v).
Proof.
  intros Hne w w' r H. injection H as <- _. split; [split|reflexivity].
  - cbn. now apply dict_get_set_neq.
  - exists []. split; [cbn; now rewrite app_nil_r|]. intros q c [].
Qed.

Lemma untouched_pop k p k' : k <> k' -> always (untouched k p) (kw_pop k').
Proof.
  intros Hne w w' r H. injection H as <- _. split; [split|reflexivity].
  - cbn. now apply dict_get_del_neq.
  - exists []. split; [cbn; now rewrite app_nil_r|]. intros q c [].
Qed.

Lemma path_exists_store fs p q k :
  q <> p -> path_exists (store fs p k) q = path_exists fs q.
Proof. intros H. unfold path_exists. now rewrite lookup_store_neq. Qed.

Lemma path_exists_stored fs p k : path_exists (store fs p k) p = true.
Proof. unfold path_exists. now rewrite lookup_store_eq. Qed.

Lemma path_exists_remove fs p q :
  q <> p -> path_exists (remove fs p) q = path_exists fs q.
Proof. intros H. unfold path_exists. now rewrite lookup_remove_neq. Qed.

Section FrameFacts.
Context {L : PyLib}.

Lemma locked_write_written fs path fn obj :
  written (locked_write fs path fn obj) = written fs ++ [(fn, obj)].
Proof.
  unfold locked_write.
  destruct (path_exists fs (path_join path lock_name)); reflexivity.
Qed.

Lemma locked_write_elsewhere fs path fn obj p :
  p <> fn -> p <> path_join path lock_name ->
  path_exists (locked_write fs path fn obj) p = path_exists fs p.
Proof.
  intros H1 H2. unfold locked_write.
  rewrite path_exists_remove by assumption.
  change (path_exists (log_write ?f _ _) p) with (path_exists f p).
  rewrite path_exists_store by assumption.
  destruct (path_exists fs (path_join path lock_name)); auto.
  now apply path_exists_store.
Qed.

Lemma dump_artifact_writes fs obj path name fs' r :
  dump_artifact fs obj path (Some name) = (fs', r) ->
  written fs' = written fs \/
  written fs' = written fs ++ [(path_join path name, obj)].
Proof.
  unfold dump_artifact.
  set (fs1 := if negb (path_exists fs path) then store fs path Dir else fs).
  assert (H1 : written fs1 = written fs).
  { unfold fs1. destruct (negb (path_exists fs path)); reflexivity. }
  destruct (path_exists fs1 (path_join path name)).
  - destruct (read_text fs1 (path_join path name)) as [c|e].
    + destruct (negb (text_eqb (sha1_hexdigest obj) (sha1_hexdigest c))).
      * intros H. injection H as <- _. right.
        now rewrite locked_write_written, H1.
      * intros H. injection H as <- _. now left.
    + intros H. injection H as <- _. now left.
  - intros H. injection H as <- _. right.
    now rewrite locked_write_written, H1.
Qed.

Lemma dump_artifact_elsewhere fs obj path name fs' r p :
  dump_artifact fs obj path (Some name) = (fs', r) ->
  p <> path -> p <> path_join path name -> p <> path_join path lock_name ->
  path_exists fs' p = path_exists fs p.
Proof.
  intros H Hp Hf Hl. revert H. unfold dump_artifact.
  set (fs1 := if negb (path_exists fs path) then store fs path Dir else fs).
  assert (H1 : path_exists fs1 p = path_exists fs p).
  { unfold fs1. destruct (negb (path_exists fs path)); auto.
    now apply path_exists_store. }
  destruct (path_exists fs1 (path_join path name)).
  - destruct (read_text fs1 (path_join path name)) as [c|e].
    + destruct (negb (text_eqb (sha1_hexdigest obj) (sha1_hexdigest c))).
      * intros H. injection H as <- _.
        now rewrite locked_write_elsewhere.
      * intros H. injection H as <- _. assumption.
    + intros H. injection H as <- _. assumption.
  - intros H. injection H as <- _. now rewrite locked_write_elsewhere.
Qed.

Lemma dump_artifact_name fs obj path name fs' fn :
  dump_artifact fs obj path (Some name) = (fs', Ok fn) -> fn = path_join path name.
Proof.
  unfold dump_artifact.
  destruct (path_exists _ (path_join path name)).
  - destruct (read_text _ (path_join path name)) as [c|e].
    + destruct (negb _); intros H; now injection H.
    + discriminate.
  - intros H; now injection H.
Qed.

Lemma dump_artifact_missing fs obj path name :
  path_join path name <> path ->
  path_exists fs (path_join path name) = false ->
  exists fs',
    dump_artifact fs obj path (Some name) = (fs', Ok (path_join path name)) /\
    written fs' = written fs ++ [(path_join path name, obj)].
Proof.
  intros Hp Hfn. unfold dump_artifact.
  set (fs1 := if negb (path_exists fs path) then store fs path Dir else fs).
  assert (H1 : path_exists fs1 (path_join path name) = false /\
               written fs1 = written fs).
  { unfold fs1. destruct (negb (path_exists fs path)); auto.
    split; [|reflexivity]. now rewrite path_exists_store. }
  destruct H1 as [H1 H2]. rewrite H1.
  eexists. split; [reflexivity|]. now rewrite locked_write_written, H2.
Qed.

Lemma keeps_write k obj path name :
  always (keeps k) (write_artifact obj path name).
Proof.
  intros w w' r H. unfold write_artifact in H.
  destruct (dump_artifact (disk w) obj path (Some name)) as [fs r0].
  injection H as <- _. reflexivity.
Qed.

Lemma keeps_temp k : always (keeps k) make_temp_dir.
Proof. intros w w' r H. injection H as <- _. reflexivity. Qed.

Lemma untouched_write k p obj path name :
  p <> path -> p <> path_join path name -> p <> path_join path lock_name ->
  always (untouched k p) (write_artifact obj path name).
Proof.
  intros Hp Hf Hl w w' r H. unfold write_artifact in H.
  destruct (dump_artifact (disk w) obj path (Some name)) as [fs r0] eqn:E.
  injection H as <- _. split; [split; [reflexivity|]|].
  - apply dump_artifact_writes in E. cbn [disk]. destruct E as [->| ->].
    + exists []. split; [now rewrite app_nil_r|]. intros q c [].
    + eexists. split; [reflexivity|]. intros q c [H|[]].
      injection H as <- _. exact Hf.
  - cbn [disk]. eapply dump_artifact_elsewhere; eauto.
Qed.

(** The first lines of the function. *)
Lemma resolve_spec w w1 pdd :
  resolve_private_data_dir w = (w1, Ok pdd) ->
  if opt_truthy (dict_get (lit "private_data_dir") (kwargs w))
  then w1 = w /\ dict_get (lit "private_data_dir") (kwargs w) = Some (PStr pdd)
  else w1 = {| kwargs := dict_set (lit "private_data_dir") (PStr pdd) (kwargs w);
               disk := store (disk w) pdd Dir |} /\
       pdd = mkdtemp (map fst (entries (disk w))).
Proof.
  unfold resolve_private_data_dir, bind, kw_get.
  destruct (opt_truthy (dict_get (lit "private_data_dir") (kwargs w))) eqn:E.
  - destruct (dict_get (lit "private_data_dir") (kwargs w)) as [[]|];
      try discriminate.
    unfold ret, exists_. destruct (path_exists (disk w) s); try discriminate.
    intros H. injection H as <- <-. auto.
  - unfold make_temp_dir, kw_set, ret, exists_. cbn [kwargs disk].
    rewrite path_exists_stored. intros H. injection H as <- <-. auto.
Qed.

End FrameFacts.

(** The paths of the run differ from the file of an [env/] key. *)

Ltac side := solve [reflexivity | assumption | keys_differ].

Ltac paths_differ :=
  let E := fresh in
  intro E; unfold env_file, project_dir, inventory_dir, env_dir in E;
  rewrite ?under_dir in E by side;
  rewrite ?path_join_relative in E by side;
  apply app_inv_head in E; vm_compute in E; discriminate E.

Lemma base_longer d x : base d ++ x = d -> x = [].
Proof.
  unfold base. destruct (is_nil d || ends_with [slash] d); intros E.
  - rewrite <- (app_nil_r d) in E at 2. now apply app_inv_head in E.
  - apply (f_equal (@List.length char)) in E.
    rewrite !length_app in E. cbn in E. lia.
Qed.

Lemma env_file_not_base d key :
  head_is slash key = false -> env_file d key <> d.
Proof.
  intros Hk E. unfold env_file in E. rewrite under_dir in E by side.
  apply base_longer in E. vm_compute in E. discriminate E.
Qed.

Lemma env_file_not_dir d key :
  head_is slash key = false -> env_file d key <> env_dir d.
Proof. intros Hk. apply under_dir_not_dir; side. Qed.

Lemma env_file_inj d k k' :
  head_is slash k = false -> head_is slash k' = false -> k <> k' ->
  env_file d k <> path_join (env_dir d) k'.
Proof.
  intros Hk Hk' Hne E. unfold env_file, env_dir in E.
  rewrite !under_dir in E by side.
  apply app_inv_head in E. apply app_inv_head in E.
  injection E as E. contradiction.
Qed.

Lemma env_file_not_project d key :
  head_is slash key = false -> env_file d key <> project_dir d.
Proof. intros Hk. paths_differ. Qed.

Lemma env_file_not_in_project d key name :
  head_is slash key = false -> head_is slash name = false ->
  env_file d key <> path_join (project_dir d) name.
Proof. intros Hk Hn. paths_differ. Qed.

Lemma env_file_not_inventory d key :
  head_is slash key = false -> env_file d key <> inventory_dir d.
Proof. intros Hk. paths_differ. Qed.

Lemma env_file_not_in_inventory d key name :
  head_is slash key = false -> head_is slash name = false ->
  env_file d key <> path_join (inventory_dir d) name.
Proof. intros Hk Hn. paths_differ. Qed.

Lemma env_keys_relative key :
  In key env_keys -> head_is slash key = false /\ key <> lock_name.
Proof.
  intros H. vm_compute in H.
  repeat (destruct H as [<-|H]; [split; [reflexivity|keys_differ]|]).
  destruct H.
Qed.

Lemma env_keys_touched key : In key env_keys -> In key touched_keys.
Proof. intros H. unfold touched_keys. now do 3 right. Qed.

Lemma env_keys_NoDup : NoDup env_keys.
Proof.
  repeat (constructor; [intros H; vm_compute in H; intuition discriminate|]).
  constructor.
Qed.

Lemma untouched_then_dumped k p w w1 w2 :
  untouched k p w w1 -> dumped p k w1 w2 -> dumped p k w w2.
Proof.
  intros [[Hk (n1 & Hn1 & _)] _] (Ht & Hg & n2 & Hn2 & c & Hc).
  split; [now rewrite <- Hk|]. split; [assumption|].
  exists (n1 ++ n2). split; [now rewrite Hn2, Hn1, app_assoc|].
  exists c. apply in_or_app. now right.
Qed.

Lemma dumped_then_untouched k p w w1 w2 :
  dumped p k w w1 -> untouched k p w1 w2 -> dumped p k w w2.
Proof.
  intros (Ht & Hg & n1 & Hn1 & c & Hc) [[Hk (n2 & Hn2 & _)] _].
  split; [assumption|]. split; [now rewrite Hk|].
  exists (n1 ++ n2). split; [now rewrite Hn2, Hn1, app_assoc|].
  exists c. apply in_or_app. now left.
Qed.

Section Turns.
Context {L : PyLib}.
Variable pdd : text.

(** What a phase keeps of a key that is not its own. *)
Lemma untouched_env_key k key as_text :
  head_is slash k = false -> k <> lock_name ->
  head_is slash key = false -> k <> key ->
  always (untouched k (env_file pdd k)) (dump_env_key pdd as_text key).
Proof.
  intros Hk Hl Hkey Hne.
  apply (always_env_key (untouched k (env_file pdd k)));
    [apply untouched_refl|apply untouched_trans| |now apply untouched_pop].
  intros s. apply untouched_write.
  - now apply env_file_not_dir.
  - now apply env_file_inj.
  - apply env_file_inj; auto.
Qed.

Lemma untouched_for_each k keys as_text :
  head_is slash k = false -> k <> lock_name -> ~ In k keys ->
  (forall key, In key keys -> head_is slash key = false) ->
  always (untouched k (env_file pdd k)) (for_each keys (dump_env_key pdd as_text)).
Proof.
  intros Hk Hl Hni Hkeys. induction keys as [|key keys IH]; cbn [for_each].
  - apply always_ret, untouched_refl.
  - apply (always_bind (untouched k (env_file pdd k)));
      [apply untouched_trans| |].
    + apply untouched_env_key; auto.
      * apply Hkeys. now left.
      * intros ->. apply Hni. now left.
    + intros _. apply IH.
      * intros H. apply Hni. now right.
      * intros key' H. apply Hkeys. now right.
Qed.

Lemma untouched_playbook k :
  head_is slash k = false -> k <> lit "playbook" ->
  always (untouched k (env_file pdd k)) (dump_playbook pdd).
Proof.
  intros Hk Hne.
  apply (always_playbook (untouched k (env_file pdd k)));
    [apply untouched_refl|apply untouched_trans| |
     intros v; now apply untouched_set].
  intros obj. apply untouched_write;
    [now apply env_file_not_project|
     apply env_file_not_in_project; auto; reflexivity ..].
Qed.

Lemma untouched_inventory k :
  head_is slash k = false -> k <> lit "inventory" ->
  always (untouched k (env_file pdd k)) (dump_inventory pdd).
Proof.
  intros Hk Hne.
  apply (always_inventory (untouched k (env_file pdd k)));
    [apply untouched_refl|apply untouched_trans| | |
     intros v; now apply untouched_set];
    intros obj;
    (apply untouched_write;
     [now apply env_file_not_inventory|
      apply env_file_not_in_inventory; auto; reflexivity ..]).
Qed.

(** The turn of a key in its loop. *)
Lemma env_key_turn as_text key w w' :
  head_is slash key = false ->
  dump_env_key pdd as_text key w = (w', Ok tt) ->
  if opt_truthy (dict_get key (kwargs w)) &&
     negb (path_exists (disk w) (env_file pdd key))
  then dumped (env_file pdd key) key w w'
  else w' = w.
Proof.
  intros Hk. unfold dump_env_key, bind, kw_get, exists_.
  fold (env_file pdd key).
  destruct (opt_truthy (dict_get key (kwargs w)) &&
            negb (path_exists (disk w) (env_file pdd key))) eqn:E.
  - apply andb_prop in E. destruct E as [Ht Hf].
    apply negb_true_iff in Hf.
    unfold lift_result.
    destruct (as_text _) as [s|e]; [|discriminate].
    unfold write_artifact.
    destruct (dump_artifact_missing (disk w) s (env_dir pdd) key)
      as (fs' & Hd & Hw); [now apply env_file_not_dir|exact Hf|].
    unfold env_dir in Hd. rewrite Hd. unfold kw_pop, ret. cbn [kwargs disk].
    intros H. injection H as <-.
    split; [exact Ht|]. split; [cbn; apply dict_get_del_eq|].
    cbn [disk]. eexists. split; [exact Hw|].
    exists s. now left.
  - unfold ret. intros H. now injection H.
Qed.

Lemma for_each_turn as_text keys :
  NoDup keys ->
  (forall key, In key keys -> head_is slash key = false /\ key <> lock_name) ->
  forall w w',
    for_each keys (dump_env_key pdd as_text) w = (w', Ok tt) ->
    forall key, In key keys ->
      if opt_truthy (dict_get key (kwargs w)) &&
         negb (path_exists (disk w) (env_file pdd key))
      then dumped (env_file pdd key) key w w'
      else untouched key (env_file pdd key) w w'.
Proof.
  induction 1 as [|k keys Hni Hnd IH]; intros Hkeys w w' H key Hin;
    [destruct Hin|].
  cbn [for_each] in H. apply bind_ok in H. destruct H as (w1 & [] & H1 & H2).
  assert (Hrel : forall key, In key keys -> head_is slash key = false).
  { intros key' Hk'. apply Hkeys. now right. }
  destruct Hin as [<-|Hin].
  - destruct (Hkeys k (or_introl eq_refl)) as [Hk Hl].
    assert (Hrest : untouched k (env_file pdd k) w1 w').
    { eapply untouched_for_each; eauto. }
    apply env_key_turn in H1; [|exact Hk].
    destruct (opt_truthy _ && negb _).
    + eapply dumped_then_untouched; eauto.
    + now subst w1.
  - destruct (Hkeys key (or_intror Hin)) as [Hk Hl].
    assert (Hhead : untouched key (env_file pdd key) w w1).
    { eapply (untouched_env_key key k); eauto.
      - apply Hkeys. now left.
      - intros ->. contradiction. }
    specialize (IH (fun x Hx => Hkeys x (or_intror Hx)) w1 w' H2 key Hin).
    destruct Hhead as [[Hg Hw] He]. rewrite <- Hg, <- He.
    destruct (opt_truthy _ && negb _).
    + eapply untouched_then_dumped; eauto. split; [split|]; eauto.
    + eapply untouched_trans; eauto. split; [split|]; eauto.
Qed.

Lemma dump_env_turn w w' :
  dump_env pdd w = (w', Ok tt) ->
  forall key, In key env_keys ->
    if to_dump pdd key w
    then dumped (env_file pdd key) key w w'
    else untouched key (env_file pdd key) w w'.
Proof.
  intros H key Hin. unfold to_dump. unfold dump_env in H.
  apply bind_ok in H. destruct H as (w0 & suppress & H0 & H).
  injection H0 as <- <-.
  destruct (opt_truthy (dict_get (lit "suppress_env_files") (kwargs w))).
  - cbn in H. injection H as <-. cbn. apply untouched_refl.
  - cbn [negb andb] in *. apply bind_ok in H.
    destruct H as (w1 & [] & H1 & H2).
    destruct (env_keys_relative key Hin) as [Hk Hl].
    assert (Hj : forall k, In k json_keys ->
                           head_is slash k = false /\ k <> lock_name).
    { intros k Hk'. apply env_keys_relative, in_or_app. now left. }
    assert (Hs : forall k, In k str_keys ->
                           head_is slash k = false /\ k <> lock_name).
    { intros k Hk'. apply env_keys_relative, in_or_app. now right. }
    pose proof env_keys_NoDup as Hnd. unfold env_keys in Hnd.
    apply in_app_or in Hin. destruct Hin as [Hin|Hin].
    + assert (Hrest : untouched key (env_file pdd key) w1 w').
      { eapply untouched_for_each; eauto.
        - intros Hin'. revert Hin Hin'. clear. vm_compute. intuition congruence.
        - intros k Hk'. now apply Hs. }
      eapply for_each_turn in H1; eauto.
      * destruct (opt_truthy _ && negb _).
        -- eapply dumped_then_untouched; eauto.
        -- eapply untouched_trans; eauto.
      * now apply NoDup_app_remove_r in Hnd.
    + assert (Hfirst : untouched key (env_file pdd key) w w1).
      { eapply untouched_for_each; eauto.
        - intros Hin'. revert Hin Hin'. clear. vm_compute. intuition congruence.
        - intros k Hk'. now apply Hj. }
      eapply for_each_turn in H2; eauto.
      * destruct Hfirst as [[Hg Hw] He]. rewrite <- Hg, <- He.
        destruct (opt_truthy _ && negb _).
        -- eapply untouched_then_dumped; eauto. split; [split|]; eauto.
        -- eapply untouched_trans; eauto. split; [split|]; eauto.
      * now apply NoDup_app_remove_l in Hnd.
Qed.

End Turns.

Section Keys.
Context {L : PyLib}.
Variable pdd : text.

Lemma keeps_resolve k :
  k <> lit "private_data_dir" -> always (keeps k) resolve_private_data_dir.
Proof.
  intros Hne.
  apply (always_resolve (keeps k));
    [apply keeps_refl|apply keeps_trans|apply keeps_temp|].
  intros v. now apply keeps_set.
Qed.

Lemma keeps_playbook k :
  k <> lit "playbook" -> always (keeps k) (dump_playbook pdd).
Proof.
  intros Hne.
  apply (always_playbook (keeps k));
    [apply keeps_refl|apply keeps_trans|intros; apply keeps_write|].
  intros v. now apply keeps_set.
Qed.

Lemma keeps_inventory k :
  k <> lit "inventory" -> always (keeps k) (dump_inventory pdd).
Proof.
  intros Hne.
  apply (always_inventory (keeps k));
    [apply keeps_refl|apply keeps_trans|
     intros; apply keeps_write|intros; apply keeps_write|].
  intros v. now apply keeps_set.
Qed.

Lemma keeps_dump_env k :
  ~ In k env_keys -> always (keeps k) (dump_env pdd).
Proof.
  intros Hni.
  apply (always_dump_env (keeps k));
    [apply keeps_refl|apply keeps_trans|intros; apply keeps_write|].
  intros key Hin. apply keeps_pop. intros ->. contradiction.
Qed.

Lemma untouched_resolve k w w1 :
  resolve_private_data_dir w = (w1, Ok pdd) ->
  head_is slash k = false -> k <> lit "private_data_dir" ->
  untouched k (env_file pdd k) w w1.
Proof.
  intros H Hk Hne. apply resolve_spec in H.
  destruct (opt_truthy _).
  - destruct H as [-> _]. apply untouched_refl.
  - destruct H as [-> _]. split; [split|]; cbn [kwargs disk].
    + now apply dict_get_set_neq.
    + exists []. split; [cbn; now rewrite app_nil_r|]. intros q c [].
    + apply path_exists_store. now apply env_file_not_base.
Qed.

Lemma playbook_spec w w' :
  dump_playbook pdd w = (w', Ok tt) ->
  let playbook := dict_get (lit "playbook") (kwargs w) in
  dict_get (lit "playbook") (kwargs w') =
  if opt_truthy playbook && isplaybook (as_plays playbook)
  then Some (PStr (path_join (project_dir pdd) (lit "main.json")))
  else playbook.
Proof.
  unfold dump_playbook, bind, kw_get. cbv zeta.
  destruct (opt_truthy _); cbn [andb].
  - destruct (isplaybook _).
    + unfold lift_result. destruct (dumps _) as [obj|e]; [|discriminate].
      unfold write_artifact.
      destruct (dump_artifact _ _ _ _) as [fs [fn|e]] eqn:E; [|discriminate].
      apply dump_artifact_name in E. subst fn.
      unfold kw_set. cbn [kwargs disk]. intros H. injection H as <-.
      cbn [kwargs]. apply dict_get_set_eq.
    + intros H. now injection H as <-.
  - intros H. now injection H as <-.
Qed.

Lemma inventory_spec w w' :
  dump_inventory pdd w = (w', Ok tt) ->
  let inventory := dict_get (lit "inventory") (kwargs w) in
  let inventory' := dict_get (lit "inventory") (kwargs w') in
  inventory' = inventory \/
  inventory' = Some (PStr (path_join (inventory_dir pdd) (lit "hosts.json"))) \/
  inventory' = Some (PStr (path_join (inventory_dir pdd) (lit "hosts"))) \/
  exists s, inventory = Some (PStr s) /\
            path_exists (disk w) (path_join (inventory_dir pdd) s) = true /\
            inventory' = Some (PStr (path_join (inventory_dir pdd) s)).
Proof.
  unfold dump_inventory, bind, kw_get. cbv zeta.
  destruct (dict_get (lit "inventory") (kwargs w)) as [[]|] eqn:Ei;
    try (intros H; injection H as <-; left; exact Ei).
  - destruct (truthy (PStr s));
      [|intros H; injection H as <-; left; exact Ei].
    unfold exists_. fold (inventory_dir pdd).
    destruct (path_exists (disk w) (path_join (inventory_dir pdd) s)) eqn:Ex;
      cbn [negb].
    + assert (Hs : forall v, kw_set (lit "inventory") v w = (w', Ok tt) ->
                dict_get (lit "inventory") (kwargs w') = Some v).
      { intros v H. injection H as <-. apply dict_get_set_eq. }
      destruct (isabs s) eqn:Ea; intros H; apply Hs in H.
      * left. exact H.
      * do 3 right. exists s. auto.
    + unfold write_artifact.
      destruct (dump_artifact _ _ _ _) as [fs [fn|e]] eqn:E; [|discriminate].
      apply dump_artifact_name in E. subst fn.
      intros H. injection H as <-. right. right. left.
      cbn [kwargs]. apply dict_get_set_eq.
  - destruct (truthy (PDict d));
      [|intros H; injection H as <-; left; exact Ei].
    unfold lift_result. destruct (dumps _) as [obj|e]; [|discriminate].
    unfold write_artifact.
    destruct (dump_artifact _ _ _ _) as [fs [fn|e]] eqn:E; [|discriminate].
    apply dump_artifact_name in E. subst fn.
    intros H. injection H as <-. right. left.
    cbn [kwargs]. apply dict_get_set_eq.
Qed.

Lemma to_dump_same key w w' :
  keeps (lit "suppress_env_files") w w' ->
  untouched key (env_file pdd key) w w' ->
  to_dump pdd key w' = to_dump pdd key w.
Proof.
  intros Hs [[Hg _] He]. unfold to_dump. now rewrite Hs, Hg, He.
Qed.

End Keys.

(** ** dump_artifacts: the block of the role shorthand *)

Section RoleFacts.
Context {L : PyLib}.
Variable pdd : text.

Lemma keeps_expand_role k :
  ~ In k (role_keys ++ [lit "playbook"; lit "envvars"]) ->
  always (keeps k) (expand_role pdd).
Proof.
  intros Hk.
  assert (Hne : forall k', In k' (role_keys ++ [lit "playbook"; lit "envvars"]) ->
                           k <> k').
  { intros k' Hin ->. contradiction. }
  assert (Hpop : forall k', In k' (role_keys ++ [lit "playbook"; lit "envvars"]) ->
                            always (keeps k) (kw_pop k')).
  { intros k' Hin. apply keeps_pop. now apply Hne. }
  assert (Hset : forall k' v, In k' (role_keys ++ [lit "playbook"; lit "envvars"]) ->
                              always (keeps k) (kw_set k' v)).
  { intros k' v Hin. apply keeps_set. now apply Hne. }
  assert (Hb : forall A B (m : M A) (f : A -> M B),
             always (keeps k) m -> (forall a, always (keeps k) (f a)) ->
             always (keeps k) (bind m f)).
  { intros. apply (always_bind (keeps k)); auto. apply keeps_trans. }
  assert (Hr : forall A (a : A), always (keeps k) (ret a)).
  { intros. apply (always_ret (keeps k)). apply keeps_refl. }
  assert (Hg : forall k', always (keeps k) (kw_get k')).
  { intros. apply (always_get (keeps k)). apply keeps_refl. }
  unfold expand_role.
  apply Hb; [apply Hpop; cbn; tauto|]. intros name.
  apply Hb; [apply (always_has (keeps k)); apply keeps_refl|]. intros has_vars.
  apply Hb.
  { destruct has_vars; [|apply Hr].
    apply Hb; [apply Hpop; cbn; tauto|]. intros. apply Hr. }
  intros role.
  apply Hb; [apply Hpop; cbn; tauto|]. intros hosts.
  apply Hb; [apply Hpop; cbn; tauto|]. intros skip. cbv zeta.
  apply Hb; [apply Hset; cbn; tauto|]. intros _.
  apply Hb; [apply Hg|]. intros envvars.
  apply Hb.
  { destruct envvars; [apply Hr|apply Hset; cbn; tauto]. }
  intros _.
  apply Hb; [apply Hpop; cbn; tauto|]. intros given.
  apply Hb.
  { destruct (opt_truthy given); [|apply Hr].
    apply (always_lift (keeps k)). apply keeps_refl. }
  intros roles_path.
  apply Hb; [apply Hg|]. intros envvars2.
  destruct envvars2 as [[]|];
    try (apply (always_raise (keeps k)); apply keeps_refl).
  apply Hset. cbn. tauto.
Qed.

Lemma role_play_same kw kw' :
  (forall k, In k role_keys -> dict_get k kw' = dict_get k kw) ->
  role_play kw' = role_play kw.
Proof.
  intros H. unfold role_play, dict_has.
  rewrite !H by (cbn; tauto). reflexivity.
Qed.

(** The block under [if 'role' in kwargs:]. *)
Lemma expand_role_spec w w' :
  expand_role pdd w = (w', Ok tt) ->
  disk w' = disk w /\
  (forall k, In k role_keys -> dict_get k (kwargs w') = None) /\
  dict_get (lit "playbook") (kwargs w') = Some (role_play (kwargs w)).
Proof.
  intros H. unfold expand_role in H.
  apply bind_ok in H. destruct H as (w1 & name & H1 & H). injection H1 as <- <-.
  apply bind_ok in H. destruct H as (w2 & has_vars & H2 & H). injection H2 as <- <-.
  apply bind_ok in H. destruct H as (w3 & role & H3 & H).
  apply bind_ok in H. destruct H as (w4 & hosts & H4 & H). injection H4 as <- <-.
  apply bind_ok in H. destruct H as (w5 & skip & H5 & H). injection H5 as <- <-.
  cbv zeta in H.
  apply bind_ok in H. destruct H as (w6 & [] & H6 & H). injection H6 as <-.
  apply bind_ok in H. destruct H as (w7 & envvars & H7 & H). injection H7 as <- <-.
  apply bind_ok in H. destruct H as (w8 & [] & H8 & H).
  apply bind_ok in H. destruct H as (w9 & given & H9 & H). injection H9 as <- <-.
  apply bind_ok in H. destruct H as (w10 & roles_path & H10 & H).
  apply bind_ok in H. destruct H as (w11 & envvars2 & H11 & H). injection H11 as <- <-.
  assert (Ev : dict_has (lit "role_vars") (dict_del (lit "role") (kwargs w)) =
               dict_has (lit "role_vars") (kwargs w)).
  { unfold dict_has. now rewrite dict_get_del_neq by keys_differ. }
  rewrite Ev in H3.
  assert (K3 : disk w3 = disk w /\
               (forall k, In k [lit "role"; lit "role_vars"] ->
                          dict_get k (kwargs w3) = None) /\
               (forall k, ~ In k [lit "role"; lit "role_vars"] ->
                          dict_get k (kwargs w3) = dict_get k (kwargs w)) /\
               role = if dict_has (lit "role_vars") (kwargs w)
                      then [(lit "name", match dict_get (lit "role") (kwargs w) with
                                         | Some v => v | None => PNone end);
                            (lit "vars", match dict_get (lit "role_vars") (kwargs w) with
                                         | Some v => v | None => PNone end)]
                      else [(lit "name", match dict_get (lit "role") (kwargs w) with
                                         | Some v => v | None => PNone end)]).
  { destruct (dict_has (lit "role_vars") (kwargs w)) eqn:Eh.
    - apply bind_ok in H3. destruct H3 as (w3' & vars & Hp & H3).
      injection Hp as <- <-. injection H3 as <- <-. cbn [kwargs disk].
      repeat split.
      + intros k [<-|[<-|[]]].
        * rewrite dict_get_del_neq by keys_differ. apply dict_get_del_eq.
        * apply dict_get_del_eq.
      + intros k Hk. rewrite !dict_get_del_neq; auto.
        * intros ->. apply Hk. now left.
        * intros ->. apply Hk. right. now left.
      + now rewrite dict_get_del_neq by keys_differ.
    - injection H3 as <- <-. cbn [kwargs disk]. repeat split.
      + intros k [<-|[<-|[]]].
        * apply dict_get_del_eq.
        * rewrite dict_get_del_neq by keys_differ.
          unfold dict_has in Eh. now destruct (dict_get _ (kwargs w)).
      + intros k Hk. rewrite !dict_get_del_neq; auto.
        intros ->. apply Hk. now left. }
  destruct K3 as (D3 & N3 & F3 & Hrole).
  assert (K8 : disk w8 = disk w /\
               (forall k, In k [lit "role"; lit "role_vars"; lit "hosts";
                                lit "role_skip_facts"] ->
                          dict_get k (kwargs w8) = None) /\
               dict_get (lit "playbook") (kwargs w8) = Some (role_play (kwargs w))).
  { assert (K : disk w8 = disk w3 /\
                forall k, k <> lit "envvars" ->
                  dict_get k (kwargs w8) =
                  dict_get k (dict_set (lit "playbook")
                    (PList [PDict
                       (if opt_truthy (dict_get (lit "role_skip_facts")
                                         (dict_del (lit "hosts") (kwargs w3)))
                        then dict_set (lit "gather_facts") (PBool false)
                               [(lit "hosts",
                                 match dict_get (lit "hosts") (kwargs w3) with
                                 | Some v => v | None => PStr (lit "all") end);
                                (lit "roles", PList [PDict role])]
                        else [(lit "hosts",
                               match dict_get (lit "hosts") (kwargs w3) with
                               | Some v => v | None => PStr (lit "all") end);
                              (lit "roles", PList [PDict role])])])
                    (dict_del (lit "role_skip_facts")
                       (dict_del (lit "hosts") (kwargs w3))))).
    { destruct (dict_get (lit "envvars") _) in H8; injection H8 as <-;
        cbn [kwargs disk]; split; auto.
      intros k Hk. now rewrite dict_get_set_neq by assumption. }
    destruct K as [D8 G8]. split; [congruence|]. split.
    - intros k Hk.
      destruct Hk as [<-|[<-|[<-|[<-|[]]]]];
        rewrite G8 by keys_differ; rewrite dict_get_set_neq by keys_differ.
      + rewrite !dict_get_del_neq by keys_differ. apply N3. now left.
      + rewrite !dict_get_del_neq by keys_differ. apply N3. right. now left.
      + rewrite dict_get_del_neq by keys_differ. apply dict_get_del_eq.
      + apply dict_get_del_eq.
    - rewrite G8 by keys_differ. rewrite dict_get_set_eq. f_equal.
      unfold role_play. rewrite <- Hrole.
      rewrite dict_get_del_neq by keys_differ.
      rewrite !F3 by (cbn; intros [E|[E|[]]]; vm_compute in E; discriminate E).
      reflexivity. }
  destruct K8 as (D8 & N8 & P8).
  assert (K10 : disk w10 = disk w8 /\
                kwargs w10 = dict_del (lit "roles_path") (kwargs w8)).
  { destruct (opt_truthy _) in H10.
    - unfold lift_result in H10. now injection H10 as <- _.
    - now injection H10 as <- _. }
  destruct K10 as (D10 & G10).
  destruct (dict_get (lit "envvars") (kwargs w10)) as [[]|]; try discriminate.
  injection H as <-. cbn [kwargs disk]. repeat split.
  - congruence.
  - intros k Hk.
    destruct Hk as [<-|[<-|[<-|[<-|[<-|[]]]]]];
      rewrite dict_get_set_neq by keys_differ; rewrite G10;
      try apply dict_get_del_eq;
      rewrite dict_get_del_neq by keys_differ; apply N8; cbn; tauto.
  - rewrite dict_get_set_neq by keys_differ. rewrite G10.
    now rewrite dict_get_del_neq by keys_differ.
Qed.

End RoleFacts.

(** ** dump_artifacts and its parameter bag *)

Section RoleEnv.
Context {L : PyLib}.
Variable pdd : text.

Lemma expand_role_envvars w w' :
  expand_role pdd w = (w', Ok tt) ->
  exists d rp,
    dict_get (lit "envvars") (kwargs w') = Some (PDict d) /\
    dict_get (lit "ANSIBLE_ROLES_PATH") d = Some rp /\
    (if opt_truthy (dict_get (lit "roles_path") (kwargs w))
     then append_roles (match dict_get (lit "roles_path") (kwargs w) with
                        | Some v => v
                        | None => PNone
                        end)
                       (lit ":" ++ path_join pdd (lit "roles")) = Ok rp
     else rp = PStr (path_join pdd (lit "roles"))) /\
    (forall k, k <> lit "ANSIBLE_ROLES_PATH" ->
       dict_get k d =
       match dict_get (lit "envvars") (kwargs w) with
       | Some (PDict d0) => dict_get k d0
       | _ => None
       end).
Proof.
  intros H.
  unfold expand_role, bind, kw_pop, kw_get, kw_set, ret, lift_result, raise in H.
  cbn [kwargs disk] in H.
  assert (Hfin : forall K rp d0,
            dict_get (lit "envvars") K = Some (PDict d0) ->
            w' = {| kwargs := dict_set (lit "envvars")
                                (PDict (dict_set (lit "ANSIBLE_ROLES_PATH") rp d0)) K;
                    disk := disk w |} ->
            (if opt_truthy (dict_get (lit "roles_path") (kwargs w))
             then append_roles (match dict_get (lit "roles_path") (kwargs w) with
                                | Some v => v
                                | None => PNone
                                end)
                               (lit ":" ++ path_join pdd (lit "roles")) = Ok rp
             else rp = PStr (path_join pdd (lit "roles"))) ->
            (forall k, dict_get k d0 =
                       match dict_get (lit "envvars") (kwargs w) with
                       | Some (PDict d1) => dict_get k d1
                       | _ => None
                       end) ->
            exists d rp,
              dict_get (lit "envvars") (kwargs w') = Some (PDict d) /\
              dict_get (lit "ANSIBLE_ROLES_PATH") d = Some rp /\
              (if opt_truthy (dict_get (lit "roles_path") (kwargs w))
               then append_roles (match dict_get (lit "roles_path") (kwargs w) with
                                  | Some v => v
                                  | None => PNone
                                  end)
                                 (lit ":" ++ path_join pdd (lit "roles")) = Ok rp
               else rp = PStr (path_join pdd (lit "roles"))) /\
              (forall k, k <> lit "ANSIBLE_ROLES_PATH" ->
                 dict_get k d =
                 match dict_get (lit "envvars") (kwargs w) with
                 | Some (PDict d0) => dict_get k d0
                 | _ => None
                 end)).
  { intros K rp d0 _ -> Hrp Hd0. do 2 eexists. cbn [kwargs].
    split; [apply dict_get_set_eq|]. split; [apply dict_get_set_eq|].
    split; [exact Hrp|]. intros k Hk.
    rewrite dict_get_set_neq by assumption. apply Hd0. }
  destruct (dict_has (lit "role_vars") (dict_del (lit "role") (kwargs w)));
    cbn [kwargs disk] in H;
    rewrite ?dict_get_set_neq, ?dict_get_del_neq in H by keys_differ;
    destruct (dict_get (lit "envvars") (kwargs w)) as [ev|] eqn:Ee;
    cbn [kwargs disk] in H;
    rewrite ?dict_get_set_neq, ?dict_get_del_neq in H by keys_differ;
    destruct (opt_truthy (dict_get (lit "roles_path") (kwargs w))) eqn:Et;
    cbn [kwargs disk] in H;
    try (destruct (append_roles _ _) as [rp|e] eqn:Ea; [|discriminate H]);
    rewrite ?dict_get_del_neq in H by keys_differ;
    rewrite ?dict_get_set_eq in H;
    rewrite ?dict_get_set_neq, ?dict_get_del_neq in H by keys_differ;
    rewrite ?Ee in H;
    try (destruct ev; try discriminate H);
    injection H as H; symmetry in H;
    first [eapply (Hfin _ _ []); [|exact H| |]
          |eapply Hfin; [|exact H| |]];
    try (rewrite ?dict_get_del_neq by keys_differ;
         first [apply dict_get_set_eq
               |rewrite ?dict_get_set_neq, ?dict_get_del_neq by keys_differ;
                exact Ee]);
    try reflexivity; try exact Ea.
Qed.
End RoleEnv.

(** The file system after the first lines. *)
Lemma resolve_disk {L : PyLib} w w1 pdd :
  resolve_private_data_dir w = (w1, Ok pdd) ->
  written (disk w1) = written (disk w) /\
  forall q, q <> pdd -> path_exists (disk w1) q = path_exists (disk w) q.
Proof.
  intros H. apply resolve_spec in H. destruct (opt_truthy _).
  - destruct H as [-> _]. auto.
  - destruct H as [-> _]. cbn [disk]. split; [reflexivity|].
    intros q Hq. now apply path_exists_store.
Qed.

(** The playbook phase and the paths that are not its own. *)
Lemma playbook_elsewhere {L : PyLib} pdd q :
  q <> project_dir pdd ->
  q <> path_join (project_dir pdd) (lit "main.json") ->
  q <> path_join (project_dir pdd) lock_name ->
  always (untouched (lit "inventory") q) (dump_playbook pdd).
Proof.
  intros H1 H2 H3.
  apply (always_playbook (untouched (lit "inventory") q));
    [apply untouched_refl|apply untouched_trans| |].
  - intros obj. now apply untouched_write.
  - intros v. apply untouched_set. keys_differ.
Qed.

(** A relative name under [inventory/] is none of the paths made before
    the inventory is looked at. *)
Lemma inventory_path_apart pdd s :
  head_is slash s = false ->
  ~ In (path_join (inventory_dir pdd) s)
       [pdd; project_dir pdd;
        path_join (project_dir pdd) (lit "main.json");
        path_join (project_dir pdd) lock_name].
Proof.
  intros Hs Hin.
  assert (E : path_join (inventory_dir pdd) s =
              base pdd ++ lit "inventory" ++ [slash] ++ s).
  { unfold inventory_dir. now rewrite under_dir by side. }
  rewrite E in Hin. unfold project_dir in Hin.
  rewrite !under_dir in Hin by side.
  rewrite (path_join_relative pdd (lit "project")) in Hin by reflexivity.
  destruct Hin as [H|[H|[H|[H|[]]]]].
  - symmetry in H. apply base_longer in H. discriminate H.
  - apply app_inv_head in H. discriminate H.
  - apply app_inv_head in H. discriminate H.
  - apply app_inv_head in H. discriminate H.
Qed.

(** The value the inventory phase leaves under [inventory]. *)
Lemma inventory_value {L : PyLib} pdd w w' :
  dump_inventory pdd w = (w', Ok tt) ->
  dict_get (lit "inventory") (kwargs w') =
  match dict_get (lit "inventory") (kwargs w) with
  | Some (PDict d) =>
      if truthy (PDict d)
      then Some (PStr (path_join (inventory_dir pdd) (lit "hosts.json")))
      else Some (PDict d)
  | Some (PStr s) =>
      if truthy (PStr s)
      then Some (PStr
                   (if negb (path_exists (disk w)
                                         (path_join (inventory_dir pdd) s))
                    then path_join (inventory_dir pdd) (lit "hosts")
                    else if isabs s then s
                    else path_join (inventory_dir pdd) s))
      else Some (PStr s)
  | other => other
  end.
Proof.
  unfold dump_inventory, bind, kw_get. cbv zeta.
  destruct (dict_get (lit "inventory") (kwargs w)) as [[]|] eqn:Ei;
    try (intros H; injection H as <-; exact Ei).
  - destruct (truthy (PStr s));
      [|intros H; injection H as <-; exact Ei].
    unfold exists_. fold (inventory_dir pdd).
    destruct (path_exists (disk w) (path_join (inventory_dir pdd) s)) eqn:Ex;
      cbn [negb].
    + destruct (isabs s) eqn:Ea; intros H; injection H as <-;
        apply dict_get_set_eq.
    + unfold write_artifact.
      destruct (dump_artifact _ _ _ _) as [fs [fn|e]] eqn:E; [|discriminate].
      apply dump_artifact_name in E. subst fn.
      intros H. injection H as <-. cbn [kwargs]. apply dict_get_set_eq.
  - destruct (truthy (PDict d));
      [|intros H; injection H as <-; exact Ei].
    unfold lift_result. destruct (dumps _) as [obj|e]; [|discriminate].
    unfold write_artifact.
    destruct (dump_artifact _ _ _ _) as [fs [fn|e]] eqn:E; [|discriminate].
    apply dump_artifact_name in E. subst fn.
    intros H. injection H as <-. cbn [kwargs]. apply dict_get_set_eq.
Qed.

(** C10, as stated, fails: with a [role] key the function removes that key,
    which is none of the keys the claim names. *)
Lemma role_shorthand_removes_the_role_key :
  ~ (forall (L : PyLib) (w w' : world),
        dump_artifacts w = (w', Ok tt) ->
        forall k, ~ In k touched_keys -> keeps k w w').
Proof.
  intros H.
  specialize (H echo_lib role_bag (fst (@dump_artifacts echo_lib role_bag))
                ltac:(vm_compute; reflexivity) (lit "role")).
  assert (Hk : ~ In (lit "role") touched_keys).
  { intros Hin. vm_compute in Hin. intuition discriminate. }
  apply H in Hk. vm_compute in Hk. discriminate Hk.
Qed.

(** C10, amended.  A call of [dump_artifacts] that returns changes the bag
    in place as follows, for the directory [pdd] of the run and for [bag],
    the bag as the block of the role shorthand leaves it.
    [private_data_dir] holds [pdd] afterwards: the value given when it was
    true, and the directory [tempfile.mkdtemp()] made otherwise.  With a
    [role] key, the keys [role], [role_vars], [hosts], [role_skip_facts] and
    [roles_path] are gone afterwards, and [bag] holds the play made from
    them under [playbook] and, under [envvars], the mapping given (or an
    empty one) with [ANSIBLE_ROLES_PATH] set to the [roles] directory of
    the run, after the [roles_path] given; every other key of [bag] but
    [private_data_dir] is as in the bag given.  With no [role] key, [bag]
    is the bag given but for [private_data_dir].  [playbook] holds the path
    of [project/main.json] when it is a non-empty mapping or list in [bag],
    and its value in [bag] otherwise.  [inventory] holds the path of
    [inventory/hosts.json] when it was a non-empty mapping; when it was a
    non-empty string, the path of [inventory/hosts] if the path the string
    names under [inventory/] is not on disk when it is looked at, and else
    the string itself when it is absolute and the path it names under
    [inventory/] when it is not; and its old value otherwise.  The path is
    looked at after the playbook was written: for a string in normal form
    it is on disk then if and only if it was before the call, when the
    string is relative, and when it is absolute, the directory of the run
    is absolute and in normal form, and the string is not that directory,
    [project/], [project/main.json] or the lock file of [project/].  Each
    key of [envvars], [extravars], [passwords], [settings], [ssh_key],
    [cmdline] is removed and its file under [env/] written when
    [suppress_env_files] is not true, its value in [bag] is true and the
    file is not on disk before the call; otherwise the key keeps its value
    in [bag] and the file is neither written nor created.  Every other key
    keeps its value in [bag]. *)
Theorem dump_artifacts_changes_only_its_keys :
  forall (L : PyLib) (w w' : world),
    dump_artifacts w = (w', Ok tt) ->
    exists (pdd : text) (bag : dict),
      let expanded := {| kwargs := bag; disk := disk w |} in
      dict_get (lit "private_data_dir") (kwargs w') = Some (PStr pdd) /\
      (if opt_truthy (dict_get (lit "private_data_dir") (kwargs w))
       then dict_get (lit "private_data_dir") (kwargs w) = Some (PStr pdd)
       else pdd = mkdtemp (map fst (entries (disk w)))) /\
      (if dict_has (lit "role") (kwargs w)
       then
         (forall k, In k role_keys -> dict_get k (kwargs w') = None) /\
         dict_get (lit "playbook") bag = Some (role_play (kwargs w)) /\
         (exists d rp,
            dict_get (lit "envvars") bag = Some (PDict d) /\
            dict_get (lit "ANSIBLE_ROLES_PATH") d = Some rp /\
            (if opt_truthy (dict_get (lit "roles_path") (kwargs w))
             then append_roles
                    (match dict_get (lit "roles_path") (kwargs w) with
                     | Some v => v
                     | None => PNone
                     end)
                    (lit ":" ++ path_join pdd (lit "roles")) = Ok rp
             else rp = PStr (path_join pdd (lit "roles"))) /\
            (forall k, k <> lit "ANSIBLE_ROLES_PATH" ->
               dict_get k d =
               match dict_get (lit "envvars") (kwargs w) with
               | Some (PDict d0) => dict_get k d0
               | _ => None
               end)) /\
         (forall k, ~ In k (role_keys ++ [lit "playbook"; lit "envvars";
                                          lit "private_data_dir"]) ->
                    dict_get k bag = dict_get k (kwargs w))
       else
         forall k, k <> lit "private_data_dir" ->
                   dict_get k bag = dict_get k (kwargs w)) /\
      (let playbook := dict_get (lit "playbook") bag in
       dict_get (lit "playbook") (kwargs w') =
       if opt_truthy playbook && isplaybook (as_plays playbook)
       then Some (PStr (path_join (project_dir pdd) (lit "main.json")))
       else playbook) /\
      (let inventory' := dict_get (lit "inventory") (kwargs w') in
       match dict_get (lit "inventory") (kwargs w) with
       | Some (PDict d) =>
           inventory' =
           if truthy (PDict d)
           then Some (PStr (path_join (inventory_dir pdd) (lit "hosts.json")))
           else Some (PDict d)
       | Some (PStr s) =>
           exists found : bool,
             (plain s = true ->
              (isabs s = true ->
               isabs pdd = true /\ plain pdd = true /\
               ~ In s [pdd; project_dir pdd;
                       path_join (project_dir pdd) (lit "main.json");
                       path_join (project_dir pdd) lock_name]) ->
              found = path_exists (disk w) (path_join (inventory_dir pdd) s)) /\
             inventory' =
             if truthy (PStr s)
             then Some (PStr
                          (if negb found
                           then path_join (inventory_dir pdd) (lit "hosts")
                           else if isabs s then s
                           else path_join (inventory_dir pdd) s))
             else Some (PStr s)
       | other => inventory' = other
       end) /\
      (forall key, In key env_keys ->
         if to_dump pdd key expanded
         then dumped (env_file pdd key) key expanded w'
         else untouched key (env_file pdd key) expanded w') /\
      (forall k, ~ In k touched_keys ->
                 dict_get k (kwargs w') = dict_get k bag).
Proof.
  intros L w w' H. unfold dump_artifacts in H.
  apply bind_ok in H. destruct H as (w1 & pdd & Hres & H).
  apply bind_ok in H. destruct H as (w0 & has_role & Hh & H).
  injection Hh as <- <-.
  assert (Hr1 : dict_has (lit "role") (kwargs w1) = dict_has (lit "role") (kwargs w)).
  { unfold dict_has.
    now rewrite (keeps_resolve (lit "role") ltac:(keys_differ) w w1 _ Hres). }
  rewrite Hr1 in H.
  apply bind_ok in H. destruct H as (wr & [] & Hexp & H).
  apply bind_ok in H. destruct H as (w2 & [] & Hpb & H).
  apply bind_ok in H. destruct H as (w3 & [] & Hinv & Henv).
  pose proof (resolve_spec w w1 pdd Hres) as Hspec.
  destruct (resolve_disk w w1 pdd Hres) as [Hw1 Hx1].
  (* the role block leaves the disk as it is *)
  assert (Hdr : disk wr = disk w1).
  { destruct (dict_has (lit "role") (kwargs w)).
    - now apply (expand_role_spec pdd w1 wr).
    - now injection Hexp as <-. }
  assert (Hdir1 : dict_get (lit "private_data_dir") (kwargs w1) = Some (PStr pdd)).
  { destruct (opt_truthy _).
    - destruct Hspec as [-> E]. exact E.
    - destruct Hspec as [-> _]. apply dict_get_set_eq. }
  assert (Hdirr : dict_get (lit "private_data_dir") (kwargs wr) = Some (PStr pdd)).
  { rewrite <- Hdir1. destruct (dict_has (lit "role") (kwargs w)).
    - apply (keeps_expand_role pdd (lit "private_data_dir")) in Hexp; auto.
      intros Hin. vm_compute in Hin. intuition discriminate.
    - now injection Hexp as <-. }
  assert (Hlater : forall k, ~ In k touched_keys -> keeps k wr w').
  { intros k Hk. unfold touched_keys in Hk.
    eapply keeps_trans; [eapply keeps_trans|].
    - eapply keeps_playbook; eauto. intros ->. apply Hk. right. now left.
    - eapply keeps_inventory; eauto. intros ->. apply Hk. do 2 right. now left.
    - eapply keeps_dump_env; eauto. intros Hin. apply Hk. now do 3 right. }
  exists pdd, (kwargs wr). cbv zeta. repeat apply conj.
  - rewrite <- Hdirr.
    eapply keeps_trans; [|eapply keeps_dump_env; eauto].
    + eapply keeps_trans; [eapply keeps_playbook|eapply keeps_inventory];
        eauto; keys_differ.
    + intros Hin. vm_compute in Hin. intuition discriminate.
  - destruct (opt_truthy _); tauto.
  - destruct (dict_has (lit "role") (kwargs w)) eqn:Erole.
    + destruct (expand_role_spec pdd w1 wr Hexp) as (_ & Hgone & Hplay).
      assert (Hsame : forall k, k <> lit "private_data_dir" ->
                dict_get k (kwargs w1) = dict_get k (kwargs w)).
      { intros k Hk. now apply (keeps_resolve k Hk w w1 _ Hres). }
      repeat apply conj.
      * intros k Hk. rewrite <- (Hgone k Hk). apply Hlater.
        intros Hin. revert Hk Hin. clear. vm_compute.
        intros Hk Hin.
        repeat (destruct Hk as [<-|Hk];
                [repeat (destruct Hin as [Hin|Hin]; [discriminate Hin|]);
                 destruct Hin|]).
        destruct Hk.
      * rewrite Hplay. f_equal. apply role_play_same. intros k Hk.
        apply Hsame. intros ->. vm_compute in Hk.
        repeat (destruct Hk as [Hk|Hk]; [discriminate Hk|]). destruct Hk.
      * destruct (expand_role_envvars pdd w1 wr Hexp) as (d & rp & E1 & E2 & E3 & E4).
        exists d, rp. rewrite !Hsame in E3, E4 by keys_differ. auto.
      * intros k Hk. rewrite <- Hsame.
        -- apply (keeps_expand_role pdd k) in Hexp; auto.
           intros Hin. apply Hk. apply in_app_or in Hin.
           apply in_or_app. destruct Hin as [Hin|[<-|[<-|[]]]]; cbn; tauto.
        -- intros ->. apply Hk. apply in_or_app. right. cbn. tauto.
    + injection Hexp as <-. intros k Hk.
      now apply (keeps_resolve k Hk w w1 _ Hres).
  - rewrite <- (playbook_spec pdd wr w2 Hpb).
    eapply keeps_trans; [eapply keeps_inventory|eapply keeps_dump_env]; eauto.
    + keys_differ.
    + intros Hin. vm_compute in Hin. intuition discriminate.
  - assert (H1 : dict_get (lit "inventory") (kwargs w2) =
                 dict_get (lit "inventory") (kwargs w)).
    { transitivity (dict_get (lit "inventory") (kwargs wr)).
      - eapply keeps_playbook; eauto. keys_differ.
      - transitivity (dict_get (lit "inventory") (kwargs w1)).
        + destruct (dict_has (lit "role") (kwargs w)).
          * apply (keeps_expand_role pdd (lit "inventory")) in Hexp; auto.
            intros Hin. vm_compute in Hin. intuition discriminate.
          * now injection Hexp as <-.
        + eapply keeps_resolve; eauto. keys_differ. }
    assert (H2 : keeps (lit "inventory") w3 w').
    { eapply keeps_dump_env; eauto.
      intros Hin. vm_compute in Hin. intuition discriminate. }
    unfold keeps in H2. rewrite H2.
    rewrite (inventory_value pdd w2 w3 Hinv), H1.
    destruct (dict_get (lit "inventory") (kwargs w)) as [[]|]; auto.
    exists (path_exists (disk w2) (path_join (inventory_dir pdd) s)).
    split; [|reflexivity].
    intros _ Hs.
    assert (Hq : ~ In (path_join (inventory_dir pdd) s)
                      [pdd; project_dir pdd;
                       path_join (project_dir pdd) (lit "main.json");
                       path_join (project_dir pdd) lock_name]).
    { destruct (isabs s) eqn:Ea.
      - destruct (Hs eq_refl) as (_ & _ & Hs').
        unfold path_join at 1. unfold isabs in Ea. now rewrite Ea.
      - now apply inventory_path_apart. }
    destruct (playbook_elsewhere pdd (path_join (inventory_dir pdd) s))
      with (w := wr) (w' := w2) (r := Ok tt) as [_ Hsame]; auto;
      try (intros E; apply Hq; rewrite E; cbn; tauto).
    rewrite Hsame, Hdr. apply Hx1.
    intros E; apply Hq; rewrite E; cbn; tauto.
  - intros key Hin.
    destruct (env_keys_relative key Hin) as [Hk _].
    assert (Hne : key <> lit "private_data_dir" /\ key <> lit "playbook" /\
                  key <> lit "inventory").
    { revert Hin. clear. intros Hin. vm_compute in Hin.
      repeat (destruct Hin as [<-|Hin]; [repeat split; keys_differ|]).
      destruct Hin. }
    destruct Hne as (N1 & N2 & N3).
    assert (Hu0 : untouched key (env_file pdd key)
                    {| kwargs := kwargs wr; disk := disk w |} wr).
    { split; [split|]; cbn [kwargs disk].
      - reflexivity.
      - exists []. rewrite Hdr, Hw1, app_nil_r. split; [reflexivity|].
        intros q c [].
      - rewrite Hdr. apply Hx1. now apply env_file_not_base. }
    assert (Hu : untouched key (env_file pdd key)
                   {| kwargs := kwargs wr; disk := disk w |} w3).
    { eapply untouched_trans; [exact Hu0|].
      eapply untouched_trans;
        [eapply untouched_playbook|eapply untouched_inventory]; eauto. }
    assert (Hs : keeps (lit "suppress_env_files")
                   {| kwargs := kwargs wr; disk := disk w |} w3).
    { change (keeps (lit "suppress_env_files") wr w3).
      eapply keeps_trans; [eapply keeps_playbook|eapply keeps_inventory];
        eauto; keys_differ. }
    rewrite <- (to_dump_same pdd key _ w3 Hs Hu).
    pose proof (dump_env_turn pdd w3 w' Henv key Hin) as Ht.
    destruct (to_dump pdd key w3).
    + eapply untouched_then_dumped; eauto.
    + eapply untouched_trans; eauto.
  - intros k Hk. now apply Hlater.
Qed.

Lemma dump_artifacts_sample_witness :
  let w := sample_bag in
  let w' := fst (@dump_artifacts echo_lib sample_bag) in
    exists (pdd : text) (bag : dict),
      let expanded := {| kwargs := bag; disk := disk w |} in
      dict_get (lit "private_data_dir") (kwargs w') = Some (PStr pdd) /\
      (if opt_truthy (dict_get (lit "private_data_dir") (kwargs w))
       then dict_get (lit "private_data_dir") (kwargs w) = Some (PStr pdd)
       else pdd = @mkdtemp echo_lib (map fst (entries (disk w)))) /\
      (if dict_has (lit "role") (kwargs w)
       then
         (forall k, In k role_keys -> dict_get k (kwargs w') = None) /\
         dict_get (lit "playbook") bag = Some (role_play (kwargs w)) /\
         (exists d rp,
            dict_get (lit "envvars") bag = Some (PDict d) /\
            dict_get (lit "ANSIBLE_ROLES_PATH") d = Some rp /\
            (if opt_truthy (dict_get (lit "roles_path") (kwargs w))
             then append_roles
                    (match dict_get (lit "roles_path") (kwargs w) with
                     | Some v => v
                     | None => PNone
                     end)
                    (lit ":" ++ path_join pdd (lit "roles")) = Ok rp
             else rp = PStr (path_join pdd (lit "roles"))) /\
            (forall k, k <> lit "ANSIBLE_ROLES_PATH" ->
               dict_get k d =
               match dict_get (lit "envvars") (kwargs w) with
               | Some (PDict d0) => dict_get k d0
               | _ => None
               end)) /\
         (forall k, ~ In k (role_keys ++ [lit "playbook"; lit "envvars";
                                          lit "private_data_dir"]) ->
                    dict_get k bag = dict_get k (kwargs w))
       else
         forall k, k <> lit "private_data_dir" ->
                   dict_get k bag = dict_get k (kwargs w)) /\
      (let playbook := dict_get (lit "playbook") bag in
       dict_get (lit "playbook") (kwargs w') =
       if opt_truthy playbook && isplaybook (as_plays playbook)
       then Some (PStr (path_join (project_dir pdd) (lit "main.json")))
       else playbook) /\
      (let inventory' := dict_get (lit "inventory") (kwargs w') in
       match dict_get (lit "inventory") (kwargs w) with
       | Some (PDict d) =>
           inventory' =
           if truthy (PDict d)
           then Some (PStr (path_join (inventory_dir pdd) (lit "hosts.json")))
           else Some (PDict d)
       | Some (PStr s) =>
           exists found : bool,
             (plain s = true ->
              (isabs s = true ->
               isabs pdd = true /\ plain pdd = true /\
               ~ In s [pdd; project_dir pdd;
                       path_join (project_dir pdd) (lit "main.json");
                       path_join (project_dir pdd) lock_name]) ->
              found = path_exists (disk w) (path_join (inventory_dir pdd) s)) /\
             inventory' =
             if truthy (PStr s)
             then Some (PStr
                          (if negb found
                           then path_join (inventory_dir pdd) (lit "hosts")
                           else if isabs s then s
                           else path_join (inventory_dir pdd) s))
             else Some (PStr s)
       | other => inventory' = other
       end) /\
      (forall key, In key env_keys ->
         if to_dump pdd key expanded
         then dumped (env_file pdd key) key expanded w'
         else untouched key (env_file pdd key) expanded w') /\
      (forall k, ~ In k touched_keys ->
                 dict_get k (kwargs w') = dict_get k bag).
Proof.
  apply (dump_artifacts_changes_only_its_keys echo_lib sample_bag).
  vm_compute. reflexivity.
Defined.

(* ================================================================== *)
(** * Further properties of the module *)
(* ================================================================== *)

(** ** sanitize_container_name *)

Lemma sanitized_chars (name : text) :
  forallb container_name_char (sanitize_container_name name) = true.
Proof.
  unfold sanitize_container_name.
  induction name as [|c name IH]; [reflexivity|]. cbn [map forallb].
  rewrite IH, andb_true_r.
  destruct (container_name_char c) eqn:E; [exact E|reflexivity].
Qed.

(** The sanitized name has the length of the given one and holds only
    characters of [[a-zA-Z0-9_-]]. *)
Theorem sanitize_container_name_is_valid :
  forall name : text,
    List.length (sanitize_container_name name) = List.length name /\
    forallb container_name_char (sanitize_container_name name) = true.
Proof.
  intros name. split; [apply length_map|apply sanitized_chars].
Qed.

(** A name is left as it is exactly when all its characters are in the
    class, and sanitizing twice is sanitizing once. *)
Theorem sanitize_container_name_fixed_points :
  forall name : text,
    (sanitize_container_name name = name <->
     forallb container_name_char name = true) /\
    sanitize_container_name (sanitize_container_name name) =
    sanitize_container_name name.
Proof.
  intros name.
  assert (Hfix : forall t, forallb container_name_char t = true ->
                           sanitize_container_name t = t).
  { induction t as [|c t IH]; [reflexivity|]. cbn [forallb]. intros H.
    apply andb_prop in H. destruct H as [Hc Ht].
    unfold sanitize_container_name in *. cbn [map]. now rewrite Hc, IH. }
  split; [split|].
  - intros E. rewrite <- E. apply sanitized_chars.
  - apply Hfix.
  - apply Hfix. apply sanitized_chars.
Qed.

(** ** sanitize_json_response *)

Lemma rstrip_split cs t :
  exists tail, t = rstrip cs t ++ tail /\
               forallb (fun c => mem_char c cs) tail = true.
Proof.
  induction t as [|c t (tail & E & Ht)]; [now exists []|]. cbn [rstrip].
  destruct (rstrip cs t) as [|r rs] eqn:Er.
  - destruct (mem_char c cs) eqn:Ec.
    + exists (c :: t). split; [reflexivity|]. cbn [forallb]. rewrite Ec.
      cbn in E. now subst tail.
    + exists tail. split; [now rewrite E at 1|assumption].
  - exists tail. split; [now rewrite E at 1|assumption].
Qed.

Lemma rstrip_last cs t r c : rstrip cs t = r ++ [c] -> mem_char c cs = false.
Proof.
  revert r. induction t as [|d t IH]; intros r; cbn [rstrip].
  - destruct r; discriminate.
  - destruct (rstrip cs t) as [|x xs] eqn:Er.
    + destruct (mem_char d cs) eqn:Ed; [destruct r; discriminate|].
      intros E. destruct r as [|y r].
      * injection E as <-. exact Ed.
      * injection E as _ E. destruct r; discriminate.
    + intros E. destruct r as [|y r]; [discriminate|].
      injection E as _ E. now apply (IH r).
Qed.

Lemma rstrip_fixed cs t :
  (forall r c, t = r ++ [c] -> mem_char c cs = false) -> rstrip cs t = t.
Proof.
  induction t as [|d t IH]; intros H; [reflexivity|]. cbn [rstrip].
  destruct t as [|e t].
  - cbn. now rewrite (H [] d eq_refl).
  - rewrite IH.
    + reflexivity.
    + intros r c E. apply (H (d :: r) c). now rewrite E.
Qed.

Lemma rstrip_head cs c t :
  mem_char c cs = false -> exists r, rstrip cs (c :: t) = c :: r.
Proof.
  intros Hc. cbn [rstrip]. destruct (rstrip cs t) as [|x xs].
  - rewrite Hc. now exists [].
  - now exists (x :: xs).
Qed.

Lemma start_re_search_split data found :
  start_re_search data = Some found ->
  exists warning,
    data = warning ++ found /\ mem_char brace warning = false /\
    head_is brace found = true.
Proof.
  induction data as [|c t IH]; [discriminate|]. cbn [start_re_search].
  destruct (N.eqb c brace) eqn:E.
  - intros H. injection H as <-. exists []. cbn. now rewrite E.
  - intros H. destruct (IH H) as (w & -> & Hw & Hh).
    exists (c :: w). repeat split; auto.
    unfold mem_char in *. cbn [existsb]. rewrite N.eqb_sym, E. exact Hw.
Qed.

Lemma start_re_search_none data :
  start_re_search data = None <-> mem_char brace data = false.
Proof.
  induction data as [|c t IH]; [now split|].
  unfold mem_char in *. cbn [start_re_search existsb].
  rewrite (N.eqb_sym brace c).
  destruct (N.eqb c brace); [split; discriminate|exact IH].
Qed.

Lemma strip_found found :
  head_is brace found = true ->
  exists r, strip found = brace :: r /\
            (forall r' c, strip found = r' ++ [c] -> mem_char c whitespace = false) /\
            exists tail, found = strip found ++ tail /\
                         forallb (fun c => mem_char c whitespace) tail = true.
Proof.
  destruct found as [|c t]; [discriminate|]. cbn [head_is]. intros Hc.
  apply N.eqb_eq in Hc. subst c.
  unfold strip. change (lstrip whitespace (brace :: t)) with (brace :: t).
  destruct (rstrip_head whitespace brace t eq_refl) as (r & Er).
  exists r. split; [exact Er|]. split.
  - intros r' c. apply rstrip_last.
  - apply rstrip_split.
Qed.

(** A response with no brace is returned as it is.  Otherwise the response
    is the result between a front part with no brace and an end part of
    white space only; the result starts with the brace and does not end
    with white space. *)
Theorem sanitize_json_response_cuts_around_the_document :
  forall data : text,
    (mem_char brace data = false -> sanitize_json_response data = data) /\
    (mem_char brace data = true ->
     exists warning tail,
       data = warning ++ sanitize_json_response data ++ tail /\
       mem_char brace warning = false /\
       forallb (fun c => mem_char c whitespace) tail = true /\
       head_is brace (sanitize_json_response data) = true /\
       (forall r c, sanitize_json_response data = r ++ [c] ->
                    mem_char c whitespace = false)).
Proof.
  intros data. unfold sanitize_json_response. split.
  - intros H. apply start_re_search_none in H. now rewrite H.
  - intros H. destruct (start_re_search data) as [found|] eqn:E.
    + destruct (start_re_search_split data found E) as (w & -> & Hw & Hh).
      destruct (strip_found found Hh) as (r & Er & Hl & tail & Ef & Ht).
      exists w, tail. repeat split; auto.
      * now rewrite <- Ef.
      * rewrite Er. reflexivity.
    + apply start_re_search_none in E. congruence.
Qed.

(** Sanitizing a sanitized response changes nothing. *)
Theorem sanitize_json_response_idempotent :
  forall data : text,
    sanitize_json_response (sanitize_json_response data) =
    sanitize_json_response data.
Proof.
  intros data. destruct (start_re_search data) as [found|] eqn:E.
  - assert (Hs : sanitize_json_response data = strip found).
    { unfold sanitize_json_response. now rewrite E. }
    rewrite Hs.
    destruct (start_re_search_split data found E) as (w & _ & _ & Hh).
    destruct (strip_found found Hh) as (r & Er & Hl & _).
    unfold sanitize_json_response. rewrite Er. cbn [start_re_search].
    rewrite N.eqb_refl. unfold strip at 1.
    change (lstrip whitespace (brace :: r)) with (brace :: r).
    rewrite <- Er. apply rstrip_fixed. exact Hl.
  - unfold sanitize_json_response. now rewrite E, E.
Qed.

(** ** Bunch *)

Lemma dict_get_update key kwargs : forall d,
  NoDup (map fst kwargs) ->
  dict_get key (dict_update d kwargs) =
  match dict_get key kwargs with
  | Some v => Some v
  | None => dict_get key d
  end.
Proof.
  unfold dict_update.
  induction kwargs as [|[k v] kwargs IH]; intros d Hnd; [reflexivity|].
  cbn [fold_left fst snd map] in *. inversion Hnd as [|? ? Hni Hnd']; subst.
  rewrite IH by assumption. cbn [dict_get].
  destruct (text_eqb key k) eqn:E.
  - apply text_eqb_eq in E. subst k.
    assert (Hn : dict_get key kwargs = None).
    { clear -Hni. induction kwargs as [|[k' v'] kw IH]; [reflexivity|].
      cbn in *. destruct (text_eqb key k') eqn:E.
      - apply text_eqb_eq in E. subst. tauto.
      - apply IH. tauto. }
    rewrite Hn. apply dict_get_set_eq.
  - apply text_eqb_neq in E.
    destruct (dict_get key kwargs); [reflexivity|].
    now apply dict_get_set_neq.
Qed.

(** After [update( **kwargs)] returned, [get(key)] gives the value of the
    keyword [key] when there is one, the value the instance had otherwise,
    and [None] when it had none; unless the instance holds an attribute
    named [get], in which case [get] raises [TypeError]. *)
Theorem Bunch_get_after_update :
  forall (self kwargs self' : dict) (key : text),
    NoDup (map fst kwargs) ->
    Bunch_update self kwargs = (self', Returned) ->
    Bunch_get self' key =
    if dict_has (lit "get") self || dict_has (lit "get") kwargs
    then Raise TypeError
    else Ok (match dict_get key kwargs with
             | Some v => v
             | None => match dict_get key self with
                       | Some v => v
                       | None => PNone
                       end
             end).
Proof.
  intros self kwargs self' key Hnd. unfold Bunch_update.
  destruct (_ || _); [discriminate|]. intros H. injection H as <-.
  unfold Bunch_get, dict_has. rewrite !dict_get_update by assumption.
  destruct (dict_get (lit "get") kwargs);
    [now rewrite orb_true_r|rewrite orb_false_r].
  destruct (dict_get (lit "get") self); [reflexivity|].
  now destruct (dict_get key kwargs).
Qed.

Lemma Bunch_get_after_update_witness :
  Bunch_get [(lit "a", PInt 1); (lit "b", PInt 5)] (lit "b") = Ok (PInt 5).
Proof.
  apply (Bunch_get_after_update [(lit "a", PInt 1); (lit "b", PInt 2)]
           [(lit "b", PInt 5)] _ (lit "b")).
  - repeat constructor. intros [].
  - reflexivity.
Defined.

(** ** cleanup_folder and cleanup_artifact_dir on a directory *)

Lemma starts_with_inv p q :
  starts_with p q = true -> q = p ++ skipn (List.length p) q.
Proof.
  revert q. induction p as [|a p IH]; intros [|b q]; cbn; try discriminate; auto.
  intros H. apply andb_prop in H. destruct H as [E H].
  apply N.eqb_eq in E. subst. f_equal. auto.
Qed.

Lemma starts_with_cancel a x y : starts_with (a ++ x) (a ++ y) = starts_with x y.
Proof. induction a as [|c a IH]; cbn; auto. now rewrite N.eqb_refl. Qed.

Lemma lookup_filter (f : text -> bool) es p :
  lookup (List.filter (fun e => f (fst e)) es) p =
  if f p then lookup es p else None.
Proof.
  induction es as [|[q i] es IH]; cbn [List.filter lookup fst].
  - now destruct (f p).
  - destruct (f q) eqn:Eq; cbn [lookup]; destruct (text_eqb p q) eqn:E.
    + apply text_eqb_eq in E. subst. now rewrite Eq.
    + exact IH.
    + apply text_eqb_eq in E. subst. rewrite IH. now rewrite Eq.
    + exact IH.
Qed.

Lemma lookup_prune ps fs q :
  lookup (entries (prune ps fs)) q =
  if existsb (fun p => in_tree p q) ps then None else lookup (entries fs) q.
Proof.
  unfold prune. cbn [entries].
  rewrite (lookup_filter (fun q => negb (existsb (fun p => in_tree p q) ps))).
  now destruct (existsb _ ps).
Qed.

Lemma rmtree_prune fs p i :
  lookup (entries fs) p = Some i -> kind i = Dir ->
  rmtree fs p = Ok (prune [p] fs).
Proof.
  intros H Hk. unfold rmtree, prune. rewrite H, Hk. do 2 f_equal.
  apply filter_ext. intros [q j]. cbn [fst existsb]. unfold in_tree.
  now rewrite orb_false_r, negb_orb.
Qed.

Lemma in_tree_refl p : in_tree p p = true.
Proof. unfold in_tree. now rewrite text_eqb_refl. Qed.

(** [cleanup_folder] on a path that exists.  On a directory it returns
    [True] and removes the directory and every path under it, and nothing
    else; a second call then returns [False] and changes nothing.  On a
    regular file it returns [False] and changes nothing. *)
Theorem cleanup_folder_removes_the_tree :
  forall (fs : fsys) (folder : text) (i : inode),
    lookup (entries fs) folder = Some i ->
    (kind i = Dir ->
     cleanup_folder fs folder = (prune [folder] fs, Ok true) /\
     (forall q, lookup (entries (prune [folder] fs)) q =
                if in_tree folder q then None else lookup (entries fs) q) /\
     cleanup_folder (prune [folder] fs) folder = (prune [folder] fs, Ok false)) /\
    (forall c, kind i = File c -> cleanup_folder fs folder = (fs, Ok false)).
Proof.
  intros fs folder i H. split.
  - intros Hk.
    assert (Hq : forall q, lookup (entries (prune [folder] fs)) q =
                           if in_tree folder q then None else lookup (entries fs) q).
    { intros q. rewrite lookup_prune. cbn [existsb]. now rewrite orb_false_r. }
    repeat split.
    + unfold cleanup_folder. now rewrite (rmtree_prune fs folder i H Hk).
    + exact Hq.
    + unfold cleanup_folder, rmtree. now rewrite Hq, in_tree_refl.
  - intros c Hk. unfold cleanup_folder, rmtree. now rewrite H, Hk.
Qed.

Lemma cleanup_folder_witness :
  (Dir = Dir ->
   cleanup_folder runs_fs (lit "/runs/a") =
   (prune [lit "/runs/a"] runs_fs, Ok true) /\
   (forall q, lookup (entries (prune [lit "/runs/a"] runs_fs)) q =
              if in_tree (lit "/runs/a") q then None
              else lookup (entries runs_fs) q) /\
   cleanup_folder (prune [lit "/runs/a"] runs_fs) (lit "/runs/a") =
   (prune [lit "/runs/a"] runs_fs, Ok false)) /\
  (forall c, Dir = File c ->
             cleanup_folder runs_fs (lit "/runs/a") = (runs_fs, Ok false)).
Proof.
  apply (cleanup_folder_removes_the_tree runs_fs (lit "/runs/a")
           {| kind := Dir; mtime := 1 |}).
  reflexivity.
Defined.

Lemma slash_free_head n : mem_char slash n = false -> head_is slash n = false.
Proof.
  destruct n as [|c n]; [reflexivity|]. unfold mem_char. cbn [existsb head_is].
  intros H. apply orb_false_elim in H. destruct H as [H _].
  now rewrite N.eqb_sym.
Qed.

Lemma slash_free_end n : mem_char slash n = false -> ends_with [slash] n = false.
Proof.
  intros H. unfold ends_with. cbn [rev app].
  destruct (rev n) as [|c r] eqn:E; [reflexivity|]. cbn [starts_with].
  assert (Hc : In c n). { apply in_rev. rewrite E. now left. }
  unfold mem_char in H.
  assert (Hf : N.eqb slash c = false).
  { destruct (N.eqb slash c) eqn:Ec; [|reflexivity].
    rewrite <- H. symmetry. apply existsb_exists. eauto. }
  now rewrite Hf.
Qed.

Lemma path_join_child p n :
  mem_char slash n = false -> path_join p n = path_join p [] ++ n.
Proof.
  intros H. unfold path_join. rewrite (slash_free_head n H). cbn [head_is].
  destruct (is_nil p || ends_with [slash] p).
  - now rewrite app_nil_r.
  - now rewrite <- !app_assoc.
Qed.


Lemma child_dir p n :
  n <> [] -> mem_char slash n = false ->
  path_join (path_join p [] ++ n) [] = path_join p [] ++ n ++ [slash].
Proof.
  intros Hn Hs. unfold path_join at 1. cbn [head_is].
  destruct (ends_with_app_last (path_join p []) n slash) as [E|E]; [|contradiction].
  rewrite E, (slash_free_end n Hs).
  destruct (path_join p [] ++ n) eqn:Ea.
  - apply app_eq_nil in Ea. tauto.
  - cbn [is_nil orb]. now rewrite <- Ea, <- app_assoc.
Qed.

Lemma child_name_inv p q n :
  child_name p q = Some n ->
  q = path_join p [] ++ n /\ n <> [] /\ mem_char slash n = false.
Proof.
  unfold child_name.
  destruct (starts_with (path_join p []) q) eqn:E; [|discriminate].
  destruct (negb (is_nil _) && negb (mem_char slash _)) eqn:E2; [|discriminate].
  intros H. injection H as <-. apply andb_prop in E2. destruct E2 as [H1 H2].
  apply negb_true_iff in H1, H2. repeat split; auto.
  - now apply starts_with_inv.
  - intros Hn. now rewrite Hn in H1.
Qed.

Lemma child_name_join p q n : child_name p q = Some n -> path_join p n = q.
Proof.
  intros H. apply child_name_inv in H. destruct H as (-> & _ & Hs).
  now apply path_join_child.
Qed.

Lemma children_paths p es :
  map (path_join p) (children p es) =
  map fst (List.filter (fun e => match child_name p (fst e) with
                                 | Some _ => true
                                 | None => false
                                 end) es).
Proof.
  induction es as [|[q i] es IH]; [reflexivity|]. cbn [children List.filter fst].
  destruct (child_name p q) as [n|] eqn:E; [|exact IH].
  cbn [map fst]. now rewrite IH, (child_name_join p q n E).
Qed.

Lemma NoDup_map_filter {A B} (g : A -> B) (f : A -> bool) l :
  NoDup (map g l) -> NoDup (map g (List.filter f l)).
Proof.
  induction l as [|a l IH]; cbn; [constructor|]. intros H.
  inversion H as [|? ? Hni Hnd]; subst.
  destruct (f a); [|now apply IH]. cbn. constructor; [|now apply IH].
  intros Hin. apply Hni. apply in_map_iff in Hin.
  destruct Hin as (x & Hx & Hin). apply filter_In in Hin.
  apply in_map_iff. exists x. tauto.
Qed.

Lemma children_valid p es n :
  In n (children p es) -> n <> [] /\ mem_char slash n = false.
Proof.
  induction es as [|[q i] es IH]; [intros []|]. cbn [children].
  destruct (child_name p q) as [m|] eqn:E; [|exact IH].
  intros [<-|H]; [|now apply IH]. apply child_name_inv in E. tauto.
Qed.


(** Two entries of a directory are not inside one another, and the
    directory is inside none of them. *)
Lemma siblings_apart p n m :
  n <> [] -> mem_char slash n = false -> mem_char slash m = false ->
  in_tree (path_join p n) (path_join p m) = text_eqb (path_join p n) (path_join p m).
Proof.
  intros Hn Hsn Hsm. unfold in_tree.
  rewrite (path_join_child p n), (path_join_child p m) by assumption.
  rewrite child_dir by assumption.
  rewrite starts_with_cancel.
  destruct (starts_with (n ++ [slash]) m) eqn:E; [|apply orb_false_r].
  apply starts_with_inv in E. exfalso.
  assert (Hin : mem_char slash m = true).
  { rewrite E. unfold mem_char. rewrite !existsb_app. cbn.
    now rewrite orb_true_r. }
  congruence.
Qed.



Lemma filter_filter {A} (f g : A -> bool) l :
  List.filter g (List.filter f l) = List.filter (fun x => f x && g x) l.
Proof.
  induction l as [|a l IH]; [reflexivity|]. cbn [List.filter].
  destruct (f a); cbn [List.filter andb]; [|exact IH].
  destruct (g a); now rewrite IH.
Qed.

Lemma prune_cons p ps fs : prune ps (prune [p] fs) = prune (p :: ps) fs.
Proof.
  unfold prune. cbn [entries now written]. f_equal.
  rewrite filter_filter. apply filter_ext. intros [q i].
  cbn [fst existsb]. rewrite orb_false_r. now rewrite negb_orb.
Qed.

Lemma prune_nil fs : prune [] fs = fs.
Proof.
  destruct fs as [es t w]. unfold prune. cbn. f_equal.
  induction es as [|e es IH]; cbn; congruence.
Qed.




Lemma NoDup_app_disjoint {A} (l1 l2 : list A) :
  NoDup (l1 ++ l2) -> forall x, In x l1 -> In x l2 -> False.
Proof.
  induction l1 as [|a l1 IH]; [intros _ x []|]. cbn. intros H x Hx Hy.
  inversion H as [|? ? Hni Hnd]; subst. destruct Hx as [<-|Hx].
  - apply Hni. apply in_or_app. now right.
  - now apply (IH Hnd x).
Qed.



(** ** collect_new_events, polled again *)

Section SortFilter.
Variable A : Type.
Variable key : A -> Z.
Variable f : A -> bool.

Lemma insert_by_front x l :
  Forall (fun z => (key x <= key z)%Z) l -> insert_by key x l = x :: l.
Proof.
  destruct l as [|y l]; [reflexivity|]. intros H. inversion H; subst.
  cbn [insert_by]. assert (E : (key x <=? key y)%Z = true) by now apply Z.leb_le.
  now rewrite E.
Qed.

Lemma filter_insert_by x l :
  StronglySorted (key_le key) l ->
  List.filter f (insert_by key x l) =
  if f x then insert_by key x (List.filter f l) else List.filter f l.
Proof.
  induction 1 as [|y l Hs IH Hy]; cbn [insert_by List.filter].
  - now destruct (f x).
  - destruct (key x <=? key y)%Z eqn:E; cbn [List.filter].
    + apply Z.leb_le in E. destruct (f x); [|reflexivity].
      symmetry. apply insert_by_front.
      assert (Hall : Forall (fun z => (key x <= key z)%Z) (y :: l)).
      { constructor; [assumption|]. eapply Forall_impl; [|exact Hy].
        unfold key_le. intros; lia. }
      rewrite Forall_forall in *. intros z Hz. apply Hall.
      change (In z (List.filter f (y :: l))) in Hz.
      now apply filter_In in Hz.
    + rewrite IH. destruct (f y), (f x); cbn [insert_by]; try reflexivity.
      now rewrite E.
Qed.

Lemma filter_sort_by l :
  List.filter f (sort_by key l) = sort_by key (List.filter f l).
Proof.
  induction l as [|x l IH]; [reflexivity|]. cbn [sort_by List.filter].
  rewrite filter_insert_by by apply sort_by_sorted.
  destruct (f x); cbn [sort_by]; now rewrite IH.
Qed.

End SortFilter.

Lemma filter_named {A} (name : A -> text) (ns : list text) (l : list A) :
  (forall x, In x l -> In (name x) ns) ->
  List.filter (fun x => negb (existsb (text_eqb (name x)) ns)) l = [].
Proof.
  induction l as [|d l IH]; intros H; [reflexivity|]. cbn [List.filter].
  assert (E : existsb (text_eqb (name d)) ns = true).
  { apply existsb_exists. exists (name d).
    split; [apply H; now left|apply text_eqb_refl]. }
  rewrite E. cbn [negb]. apply IH. intros x Hx. apply H. now right.
Qed.

Lemma filter_done {A} (name : A -> text) (done rest : list A) :
  NoDup (map name (done ++ rest)) ->
  List.filter (fun x => negb (existsb (text_eqb (name x)) (map name done)))
              (done ++ rest) = rest.
Proof.
  intros Hnd. rewrite filter_app.
  assert (E1 : List.filter
                 (fun x => negb (existsb (text_eqb (name x)) (map name done)))
                 done = []).
  { apply filter_named. intros x Hx. now apply in_map. }
  rewrite E1. cbn [app].
  rewrite map_app in Hnd.
  assert (E2 : forall x, In x rest ->
                 negb (existsb (text_eqb (name x)) (map name done)) = true).
  { intros x Hx. apply negb_true_iff.
    destruct (existsb _ _) eqn:E; [|reflexivity].
    apply existsb_exists in E. destruct E as (n & Hn & En).
    apply text_eqb_eq in En. subst n. exfalso.
    apply (NoDup_app_disjoint _ _ Hnd (name x)); [assumption|now apply in_map]. }
  clear -E2. induction rest as [|r rest IH]; [reflexivity|].
  cbn [List.filter]. rewrite E2 by now left.
  f_equal. apply IH. intros x Hx. apply E2. now right.
Qed.

Lemma selected_later old seen names name :
  (forall k, dict_has k seen = dict_has k old || existsb (text_eqb k) names) ->
  selected seen name =
  selected old name && negb (existsb (text_eqb name) names).
Proof.
  intros H. unfold selected. rewrite H, negb_orb.
  now rewrite !andb_assoc.
Qed.

(** A poll leaves [old_events] so that the next poll of the same directory
    selects exactly the files this poll did not yield, in the same order:
    no event is yielded twice and none is skipped; when every selected file
    parsed, the next poll yields nothing and leaves [old_events] as it
    is. *)
Theorem next_poll_resumes_after_the_yielded_files :
  forall (L : PyLib) (dir : event_dir) (old_events : dict)
         (ys : list yielded) (seen : dict) (o : outcome),
    NoDup (map fst dir) ->
    @collect_new_events L dir old_events = (ys, seen, o) ->
    map y_file ys =
    map fst (firstn (List.length ys) (dir_events_actual dir old_events)) /\
    dir_events_actual dir seen =
    skipn (List.length ys) (dir_events_actual dir old_events) /\
    (List.length ys = List.length (dir_events_actual dir old_events) ->
     @collect_new_events L dir seen = ([], seen, Returned)).
Proof.
  intros L dir old ys seen o Hnd H. unfold collect_new_events in H.
  destruct (@read_events_spec L _ _ _ _ _ H)
    as (done & rest & Hfiles & Hnames & Hall & _ & Hseen).
  assert (Hlen : List.length ys = List.length done).
  { rewrite <- (length_map y_file), Hnames. apply length_map. }
  assert (Hfirst : firstn (List.length ys) (dir_events_actual dir old) = done).
  { rewrite Hfiles, Hlen, firstn_app, Nat.sub_diag, firstn_all. cbn.
    apply app_nil_r. }
  assert (Hskip : skipn (List.length ys) (dir_events_actual dir old) = rest).
  { rewrite Hfiles, Hlen, skipn_app, Nat.sub_diag, skipn_all. reflexivity. }
  assert (Hnext : dir_events_actual dir seen = rest).
  { unfold dir_events_actual at 1.
    rewrite (filter_ext _
               (fun x => selected old (fst x) &&
                         negb (existsb (text_eqb (fst x)) (map fst done)))).
    2: { intros x. now apply selected_later. }
    rewrite <- filter_filter, <- filter_sort_by.
    fold (dir_events_actual dir old). rewrite Hfiles.
    apply filter_done. rewrite <- Hfiles.
    apply (Permutation_NoDup
             (Permutation_map fst (Permutation_sym (sort_by_perm _ _ _)))).
    now apply NoDup_map_filter. }
  repeat split.
  - now rewrite Hfirst.
  - now rewrite Hskip.
  - intros Hfull. unfold collect_new_events. rewrite Hnext.
    rewrite Hfiles, length_app in Hfull.
    destruct rest; [reflexivity|cbn in Hfull; lia].
Qed.

Lemma next_poll_witness :
  map y_file (fst (fst (@collect_new_events echo_lib sample_event_dir []))) =
  map fst (firstn 1 (dir_events_actual sample_event_dir [])) /\
  dir_events_actual sample_event_dir
    (snd (fst (@collect_new_events echo_lib sample_event_dir []))) =
  skipn 1 (dir_events_actual sample_event_dir []) /\
  (1%nat = List.length (dir_events_actual sample_event_dir []) ->
   @collect_new_events echo_lib sample_event_dir
     (snd (fst (@collect_new_events echo_lib sample_event_dir []))) =
   ([], snd (fst (@collect_new_events echo_lib sample_event_dir [])), Returned)).
Proof.
  apply (next_poll_resumes_after_the_yielded_files echo_lib sample_event_dir []
           (fst (fst (@collect_new_events echo_lib sample_event_dir [])))
           (snd (fst (@collect_new_events echo_lib sample_event_dir [])))
           (snd (@collect_new_events echo_lib sample_event_dir []))).
  - repeat constructor; cbn; intuition discriminate.
  - vm_compute. reflexivity.
Defined.

(** ** OutputEventFilter: the console and the transcript *)

Section Traces.
Context {L : PyLib}.
Variable opt : options.
Variable P : list effect -> Prop.
Hypothesis P_nil : P [].
Hypothesis P_app : forall a b, P a -> P b -> P (a ++ b).
Hypothesis P_callback : forall c ev, P [Callback c ev].
Hypothesis P_echo : forall t, P (echo opt t).
Hypothesis P_line : forall line,
  P ((if suppress_ansible_output opt then [] else [StdoutWrite line]) ++
     (if handle opt then [HandleWrite line; HandleFlush] else [])).
Hypothesis P_close : P (if handle opt then [HandleClose] else []).

Lemma emit_chunks_trace chunks : forall s ed s1 ed1 tr,
  emit_chunks s ed chunks = (s1, ed1, tr) -> P tr.
Proof.
  induction chunks as [|c cs IH]; cbn [emit_chunks]; intros s ed s1 ed1 tr H.
  - injection H as <- <- <-. exact P_nil.
  - destruct (emit_chunk s ed c) as [[s' ed'] e] eqn:E1.
    destruct (emit_chunks s' ed' cs) as [[s'' ed''] es] eqn:E2.
    injection H as <- <- <-. change (e :: es) with ([e] ++ es).
    apply P_app; [|eauto].
    unfold emit_chunk in E1. cbv zeta in E1. injection E1 as _ _ <-.
    apply P_callback.
Qed.

Lemma _emit_event_trace s buffered next s1 tr r :
  _emit_event s buffered next = (s1, tr, r) -> P tr.
Proof.
  unfold _emit_event.
  destruct (match pending s with
            | Some d => (d, [buffered])
            | None => if negb (is_nil buffered)
                      then ([(lit "event", PStr (lit "verbose"))], splitlines buffered)
                      else ([], [])
            end) as [ed0 chunks].
  destruct (emit_chunks s ed0 chunks) as [[s' ed'] tr'] eqn:E.
  apply emit_chunks_trace in E.
  destruct (or_empty next); intros H; injection H as <- <- <-; auto.
Qed.

Lemma shown_trace v es : shown opt v = Ok es -> P es.
Proof.
  unfold shown. destruct v as [[]|];
    repeat match goal with
           | |- context [if ?b then _ else _] => destruct b
           end; intros H; try discriminate; injection H as <-; auto.
Qed.

Lemma search_loop_trace fuel : forall s s1 tr o,
  search_loop opt fuel s = Some (s1, tr, o) -> P tr.
Proof.
  induction fuel as [|fuel IH]; cbn [search_loop]; intros s s1 tr o H;
    [discriminate|].
  destruct (re_search (buffer s)) as [[[before g] rest]|].
  2:{ injection H as <- <- <-. exact P_nil. }
  destruct (decode_payload g) as [v|e0].
  2:{ injection H as <- <- <-. exact P_nil. }
  destruct (_emit_event s before (Some v)) as [[s' tr'] [ed|e]] eqn:E;
    apply _emit_event_trace in E.
  2:{ injection H as <- <- <-. exact E. }
  destruct (if negb (output_json opt) then Ok (dict_get (lit "stdout") ed)
            else match dumps (PDict ed) with
                 | Ok t => Ok (Some (PStr t))
                 | Raise e => Raise e
                 end) as [sa|e].
  2:{ injection H as <- <- <-. exact E. }
  destruct (shown opt sa) as [es|e] eqn:Es.
  2:{ injection H as <- <- <-. exact E. }
  destruct (search_loop opt fuel _) as [[[s3 tr3] o3]|] eqn:E3; [|discriminate].
  injection H as <- <- <-. apply IH in E3.
  apply P_app; [exact E|]. apply P_app; [|exact E3].
  now apply (shown_trace sa).
Qed.

Lemma emit_lines_trace lines : forall s s1 tr,
  emit_lines opt s lines = (s1, tr) -> P tr.
Proof.
  induction lines as [|l ls IH]; cbn [emit_lines]; intros s s1 tr H.
  - injection H as <- <-. exact P_nil.
  - destruct (_emit_event s l None) as [[s' tr'] r] eqn:E.
    destruct (emit_lines opt s' ls) as [s'' tr''] eqn:E2.
    injection H as <- <-. apply _emit_event_trace in E. apply IH in E2.
    auto.
Qed.

Lemma flush_lines_trace s data s1 tr o :
  flush_lines opt s data = (s1, tr, o) -> P tr.
Proof.
  unfold flush_lines.
  destruct (negb (is_nil data) && contains [LF] data &&
            match current_event_data s with None => true | Some _ => false end).
  2:{ intros H. injection H as <- <- <-. exact P_nil. }
  destruct (splitlines (buffer s)) as [|l ls].
  { intros H. injection H as <- <- <-. exact P_nil. }
  destruct (if negb (contains [LF] (last (l :: ls) []))
            then (removelast (l :: ls), Some (last (l :: ls) []))
            else (l :: ls, None)) as [lines1 remainder].
  destruct (emit_lines opt s lines1) as [s' tr'] eqn:E.
  intros H. injection H as <- <- <-. now apply emit_lines_trace in E.
Qed.

Lemma write_trace s data s1 tr o : write opt s data = (s1, tr, o) -> P tr.
Proof.
  unfold write.
  destruct (contains marker (last_chunk s ++ data)).
  - destruct (search_loop opt _ _) as [[[s' tr'] o']|] eqn:E.
    + intros H. injection H as <- <- <-. now apply search_loop_trace in E.
    + intros H. injection H as <- <- <-. exact P_nil.
  - apply flush_lines_trace.
Qed.

Lemma close_trace s s1 tr : close opt s = (s1, tr) -> P tr.
Proof.
  unfold close.
  destruct (negb (is_nil (buffer s))).
  - destruct (_emit_event s (buffer s) None) as [[s' tr'] r] eqn:E.
    intros H. injection H as <- <-. apply _emit_event_trace in E.
    apply P_app; [exact E|].
    apply (P_app [_]); [apply P_callback|exact P_close].
  - intros H. injection H as <- <-.
    apply (P_app [_]); [apply P_callback|exact P_close].
Qed.

Lemma feed_trace chunks : forall s s1 tr o,
  feed opt s chunks = (s1, tr, o) -> P tr.
Proof.
  induction chunks as [|c cs IH]; cbn [feed]; intros s s1 tr o H.
  - injection H as <- <- <-. exact P_nil.
  - destruct (write opt s c) as [[s' tr'] [|e]] eqn:E; apply write_trace in E.
    + destruct (feed opt s' cs) as [[s'' tr''] o''] eqn:E2.
      injection H as <- <- <-. apply IH in E2. auto.
    + injection H as <- <- <-. exact E.
Qed.

Lemma session_trace chunks : P (fst (session opt chunks)).
Proof.
  unfold session.
  destruct (feed opt new_filter chunks) as [[s tr] [|e]] eqn:E;
    apply feed_trace in E.
  - destruct (close opt s) as [s' tr'] eqn:E2. apply close_trace in E2.
    cbn [fst]. auto.
  - exact E.
Qed.

End Traces.

Lemma console_app a b : console (a ++ b) = console a ++ console b.
Proof.
  induction a as [|e a IH]; [reflexivity|].
  destruct e; cbn [app console]; auto. now rewrite IH, app_assoc.
Qed.

Lemma transcript_app a b : transcript (a ++ b) = transcript a ++ transcript b.
Proof.
  induction a as [|e a IH]; [reflexivity|].
  destruct e; cbn [app transcript]; auto. now rewrite IH, app_assoc.
Qed.

(** With a handle and without [suppress_ansible_output], the text written
    to [sys.stdout] and the text written to the handle are the same, for
    every sequence of writes from every state, and for a whole session. *)
Theorem console_and_transcript_agree :
  forall (L : PyLib) (opt : options) (s : OutputEventFilter)
         (chunks : list text),
    handle opt = true -> suppress_ansible_output opt = false ->
    console (snd (fst (feed opt s chunks))) =
    transcript (snd (fst (feed opt s chunks))) /\
    console (fst (session opt chunks)) = transcript (fst (session opt chunks)).
Proof.
  intros L opt s chunks Hh Hs.
  assert (Happ : forall a b, console a = transcript a ->
                             console b = transcript b ->
                             console (a ++ b) = transcript (a ++ b)).
  { intros a b Ha Hb. now rewrite console_app, transcript_app, Ha, Hb. }
  split.
  - destruct (feed opt s chunks) as [[s1 tr] o] eqn:E. cbn [fst snd].
    apply (feed_trace opt (fun tr => console tr = transcript tr)) in E; auto.
    + intros t. unfold echo. rewrite Hh, Hs. cbn.
      now rewrite ?app_nil_r.
    + intros line. now rewrite Hh, Hs.
  - apply (session_trace opt (fun tr => console tr = transcript tr)); auto.
    + intros t. unfold echo. rewrite Hh, Hs. cbn.
      now rewrite ?app_nil_r.
    + intros line. now rewrite Hh, Hs.
    + now rewrite Hh.
Qed.

Lemma console_and_transcript_witness :
  console (snd (fst (@feed echo_lib plain_options new_filter sample_chunks))) =
  transcript (snd (fst (@feed echo_lib plain_options new_filter sample_chunks))) /\
  console (fst (@session echo_lib plain_options sample_chunks)) =
  transcript (fst (@session echo_lib plain_options sample_chunks)).
Proof.
  apply (console_and_transcript_agree echo_lib plain_options new_filter
           sample_chunks); reflexivity.
Defined.

(** With [suppress_ansible_output] nothing is written to [sys.stdout], and
    without a handle nothing is done to one, whatever is written to the
    filter. *)
Theorem suppressed_output_is_never_echoed :
  forall (L : PyLib) (opt : options) (chunks : list text),
    (suppress_ansible_output opt = true ->
     existsb on_console (fst (session opt chunks)) = false) /\
    (handle opt = false ->
     existsb on_handle (fst (session opt chunks)) = false).
Proof.
  intros L opt chunks. split; intros H.
  - apply (session_trace opt (fun tr => existsb on_console tr = false)); auto.
    + intros a b Ha Hb. now rewrite existsb_app, Ha, Hb.
    + intros t. unfold echo. rewrite H. now destruct (handle opt).
    + intros line. rewrite H. now destruct (handle opt).
    + now destruct (handle opt).
  - apply (session_trace opt (fun tr => existsb on_handle tr = false)); auto.
    + intros a b Ha Hb. now rewrite existsb_app, Ha, Hb.
    + intros t. unfold echo. rewrite H.
      now destruct (suppress_ansible_output opt).
    + intros line. rewrite H. now destruct (suppress_ansible_output opt).
    + now rewrite H.
Qed.

(** ** OutputEventFilter: output without event tokens *)

(** A stream in which the pattern of the event token matches nowhere gives,
    however it is cut into writes, one verbose event for each line of the
    whole stream and then the end marker: the events carry the counters 1,
    2, ..., the line without its line ending, and the lines counted so
    far. *)
Theorem plain_output_gives_one_event_per_line :
  forall (L : PyLib) (opt : options) (chunks : list text),
    re_search (concat chunks) = None ->
    delivered (fst (session opt chunks)) =
    vevents core0 (splitlines (concat chunks)) ++ [eof_event] /\
    snd (session opt chunks) = Returned.
Proof.
  intros L opt chunks H. apply search_none_tokenless in H.
  destruct (feed_verbose opt core0 chunks [] [] [])
    as (F & B & tr1 & E1 & HFB & Hd1 & Hseam & _); auto.
  cbn [app splitlines vevents] in HFB, Hd1.
  unfold session.
  change new_filter with (mk_state (vadv core0 (splitlines [])) [] [] None).
  rewrite E1. cbv beta iota zeta.
  match goal with
  | |- context [close opt (mk_state ?k ?b ?lc None)] =>
      destruct (close_verbose opt k b lc) as (s2 & tr2 & -> & Hd2)
  end.
  cbn [fst snd]. split; [|reflexivity].
  rewrite delivered_app, Hd1, Hd2, app_assoc. f_equal.
  rewrite <- vevents_app, <- splitlines_app, <- HFB; auto.
  rewrite <- (app_nil_r B). apply Hseam.
Qed.

Lemma plain_output_witness :
  delivered (fst (@session echo_lib plain_options
                    [lit "one" ++ [LF] ++ lit "t"; lit "wo" ++ [LF]])) =
  @vevents echo_lib core0
    (splitlines (concat [lit "one" ++ [LF] ++ lit "t"; lit "wo" ++ [LF]]))
  ++ [eof_event] /\
  snd (@session echo_lib plain_options
         [lit "one" ++ [LF] ++ lit "t"; lit "wo" ++ [LF]]) = Returned.
Proof.
  apply (plain_output_gives_one_event_per_line echo_lib plain_options
           [lit "one" ++ [LF] ++ lit "t"; lit "wo" ++ [LF]]).
  vm_compute. reflexivity.
Defined.

(** ** OutputEventFilter: the search loop ends *)

(** The [while should_search:] loop of [write] ends: every turn takes a
    matched token out of the buffer, so a number of turns larger than the
    length of the buffer is never used up, and more turns change nothing. *)
Theorem search_loop_terminates :
  forall (L : PyLib) (opt : options) (fuel : nat) (s : OutputEventFilter),
    (List.length (buffer s) < fuel)%nat ->
    exists r,
      search_loop opt fuel s = Some r /\
      forall fuel', (fuel <= fuel')%nat -> search_loop opt fuel' s = Some r.
Proof.
  intros L opt fuel s H.
  destruct (search_loop opt fuel s) as [r|] eqn:E.
  - exists r. split; [reflexivity|]. now apply search_loop_more.
  - exfalso. now apply (search_loop_fuel opt fuel s H).
Qed.

Lemma search_loop_terminates_witness :
  exists r,
    @search_loop echo_lib plain_options 40
      (with_buffer new_filter sample_stream) = Some r /\
    forall fuel', (40 <= fuel')%nat ->
                  @search_loop echo_lib plain_options fuel'
                    (with_buffer new_filter sample_stream) = Some r.
Proof.
  apply (search_loop_terminates echo_lib plain_options 40
           (with_buffer new_filter sample_stream)).
  vm_compute. lia.
Defined.

(** ** dump_artifact: the target and the lock file *)



Lemma locked_write_target {L : PyLib} fs path fn obj :
  fn <> path_join path lock_name ->
  (exists t, lookup (entries (locked_write fs path fn obj)) fn =
             Some {| kind := File obj; mtime := t |}) /\
  path_exists (locked_write fs path fn obj) (path_join path lock_name) = false.
Proof.
  intros Hne. unfold locked_write. split.
  - rewrite lookup_remove_neq by assumption.
    change (entries (log_write ?f _ _)) with (entries f).
    rewrite lookup_store_eq. eauto.
  - unfold path_exists, remove. cbn [entries]. now rewrite lookup_unlink_eq.
Qed.







(** ** dump_artifacts: a directory that is given and does not exist *)

(** When [private_data_dir] is given as a path that does not exist, the
    call raises [ValueError] before anything is changed: the bag and the
    disk are as they were. *)
Theorem dump_artifacts_rejects_a_missing_directory :
  forall (L : PyLib) (w : world) (p : text),
    dict_get (lit "private_data_dir") (kwargs w) = Some (PStr p) ->
    p <> [] ->
    path_exists (disk w) p = false ->
    dump_artifacts w = (w, Raise ValueError).
Proof.
  intros L w p Hp Hne Hex.
  unfold dump_artifacts, resolve_private_data_dir, bind, kw_get.
  rewrite Hp. destruct p as [|c p]; [contradiction|].
  cbn [opt_truthy truthy is_nil negb]. unfold ret, exists_.
  now rewrite Hex.
Qed.

Lemma dump_artifacts_missing_directory_witness :
  @dump_artifacts echo_lib
    {| kwargs := [(lit "private_data_dir", PStr (lit "/gone"))];
       disk := empty_fs |} =
  ({| kwargs := [(lit "private_data_dir", PStr (lit "/gone"))];
      disk := empty_fs |}, Raise ValueError).
Proof.
  apply (dump_artifacts_rejects_a_missing_directory echo_lib _ (lit "/gone")).
  - reflexivity.
  - discriminate.
  - reflexivity.
Defined.

(** ** dump_artifacts: the files it writes *)

Lemma flat_map_same {A B} (f g : A -> list B) l :
  (forall x, In x l -> f x = g x) -> flat_map f l = flat_map g l.
Proof.
  induction l as [|a l IH]; [reflexivity|]. intros H. cbn [flat_map].
  rewrite (H a (or_introl eq_refl)), IH; [reflexivity|].
  intros x Hx. apply H. now right.
Qed.

Section Logs.
Context {L : PyLib}.
Variable pdd : text.

Lemma dumps_ok v s : dumps v = Ok s -> s = json_dumps v.
Proof. unfold dumps. destruct (serializable v); intros H; now inversion H. Qed.

Lemma write_artifact_log obj path name w w' r :
  write_artifact obj path name w = (w', r) ->
  kwargs w' = kwargs w /\
  (written (disk w') = written (disk w) \/
   written (disk w') = written (disk w) ++ [(path_join path name, obj)]).
Proof.
  unfold write_artifact.
  destruct (dump_artifact (disk w) obj path (Some name)) as [fs r0] eqn:E.
  intros H. injection H as <- _. split; [reflexivity|].
  now apply dump_artifact_writes in E.
Qed.

Lemma write_artifact_missing obj path name w :
  path_join path name <> path ->
  path_exists (disk w) (path_join path name) = false ->
  exists w',
    write_artifact obj path name w = (w', Ok (path_join path name)) /\
    kwargs w' = kwargs w /\
    written (disk w') = written (disk w) ++ [(path_join path name, obj)].
Proof.
  intros Hne Hex. unfold write_artifact.
  destruct (dump_artifact_missing (disk w) obj path name Hne Hex)
    as (fs' & -> & Hw).
  eexists. split; [reflexivity|]. auto.
Qed.

Lemma main_json_not_dir :
  path_join (project_dir pdd) (lit "main.json") <> project_dir pdd.
Proof. apply under_dir_not_dir; side. Qed.

(** The playbook phase: what it writes, and that it writes when the file
    is not there. *)
Lemma playbook_log w w' :
  dump_playbook pdd w = (w', Ok tt) ->
  let playbook := dict_get (lit "playbook") (kwargs w) in
  let main := path_join (project_dir pdd) (lit "main.json") in
  exists pb,
    written (disk w') = written (disk w) ++ pb /\
    (pb = [] \/ pb = [(main, json_dumps (as_plays playbook))]) /\
    (opt_truthy playbook && isplaybook (as_plays playbook) = true ->
     path_exists (disk w) main = false -> pb <> []).
Proof.
  unfold dump_playbook, bind, kw_get. cbv zeta.
  destruct (opt_truthy _ && isplaybook _) eqn:Et.
  - apply andb_prop in Et. destruct Et as [-> ->].
    unfold lift_result. destruct (dumps _) as [obj|e] eqn:Ed; [|discriminate].
    apply dumps_ok in Ed. subst obj. fold (project_dir pdd).
    destruct (path_exists (disk w)
                (path_join (project_dir pdd) (lit "main.json"))) eqn:Ex.
    + destruct (write_artifact _ _ _ w) as [w1 [fn|e]] eqn:Ew; [|discriminate].
      apply write_artifact_log in Ew. destruct Ew as [_ Hw].
      intros H. injection H as <-. cbn [disk].
      destruct Hw as [Hw|Hw].
      * exists []. rewrite app_nil_r. repeat split; auto. discriminate.
      * eexists. split; [exact Hw|]. split; [now right|discriminate].
    + destruct (write_artifact_missing (json_dumps (as_plays
                  (dict_get (lit "playbook") (kwargs w))))
                  (project_dir pdd) (lit "main.json") w main_json_not_dir Ex)
        as (w1 & -> & _ & Hw).
      intros H. injection H as <-. cbn [disk].
      eexists. split; [exact Hw|]. split; [now right|discriminate].
  - intros H. exists []. rewrite app_nil_r.
    assert (E : w' = w).
    { destruct (opt_truthy _); [|now injection H].
      cbn [andb] in Et. rewrite Et in H. now injection H. }
    subst. repeat split; auto. discriminate.
Qed.

(** The inventory phase. *)
Lemma inventory_log w w' :
  dump_inventory pdd w = (w', Ok tt) ->
  let inventory := dict_get (lit "inventory") (kwargs w) in
  exists inv,
    written (disk w') = written (disk w) ++ inv /\
    (inv = [] \/
     (exists d, inventory = Some (PDict d) /\
                inv = [(path_join (inventory_dir pdd) (lit "hosts.json"),
                        json_dumps (PDict d))]) \/
     (exists s, inventory = Some (PStr s) /\
                inv = [(path_join (inventory_dir pdd) (lit "hosts"), s)])).
Proof.
  unfold dump_inventory, bind, kw_get. cbv zeta.
  assert (Hnone : (w, Ok tt) = (w', Ok tt) ->
                  exists inv : list (text * text),
                    written (disk w') = written (disk w) ++ inv /\
                    (inv = [] \/
                     (exists d, dict_get (lit "inventory") (kwargs w) = Some (PDict d) /\
                                inv = [(path_join (inventory_dir pdd) (lit "hosts.json"),
                                        json_dumps (PDict d))]) \/
                     (exists s, dict_get (lit "inventory") (kwargs w) = Some (PStr s) /\
                                inv = [(path_join (inventory_dir pdd) (lit "hosts"), s)]))).
  { intros H. injection H as <-. exists []. rewrite app_nil_r. auto. }
  assert (Hset : forall v w1, kw_set (lit "inventory") v w1 = (w', Ok tt) ->
                              disk w' = disk w1).
  { intros v w1 H. now injection H as <-. }
  destruct (dict_get (lit "inventory") (kwargs w)) as [[]|] eqn:Ei;
    try exact Hnone.
  - destruct (truthy (PStr s)); [|exact Hnone].
    unfold exists_. fold (inventory_dir pdd).
    destruct (path_exists (disk w) (path_join (inventory_dir pdd) s)); cbn [negb].
    + intros H. exists []. rewrite app_nil_r. split; [|now left].
      destruct (isabs s); now rewrite (Hset _ _ H).
    + destruct (write_artifact _ _ _ w) as [w1 [fn|e]] eqn:Ew; [|discriminate].
      apply write_artifact_log in Ew. destruct Ew as [_ Hw].
      intros H. rewrite (Hset _ _ H). destruct Hw as [Hw|Hw].
      * exists []. rewrite app_nil_r. auto.
      * eexists. split; [exact Hw|]. right. right. eauto.
  - destruct (truthy (PDict d)); [|exact Hnone].
    unfold lift_result. destruct (dumps _) as [obj|e] eqn:Ed; [|discriminate].
    apply dumps_ok in Ed. subst obj. fold (inventory_dir pdd).
    destruct (write_artifact _ _ _ w) as [w1 [fn|e]] eqn:Ew; [|discriminate].
    apply write_artifact_log in Ew. destruct Ew as [_ Hw].
    intros H. rewrite (Hset _ _ H). destruct Hw as [Hw|Hw].
    + exists []. rewrite app_nil_r. auto.
    + eexists. split; [exact Hw|]. right. left. eauto.
Qed.

Lemma env_write_same as_text key w w' :
  untouched key (env_file pdd key) w w' ->
  env_write pdd as_text w' key = env_write pdd as_text w key.
Proof.
  intros [[Hg _] He]. unfold env_write. now rewrite Hg, He.
Qed.

Lemma env_key_log as_text key w w' :
  head_is slash key = false ->
  dump_env_key pdd as_text key w = (w', Ok tt) ->
  written (disk w') = written (disk w) ++ env_write pdd as_text w key.
Proof.
  intros Hk. unfold dump_env_key, env_write, bind, kw_get, exists_.
  fold (env_file pdd key).
  destruct (opt_truthy (dict_get key (kwargs w)) &&
            negb (path_exists (disk w) (env_file pdd key))) eqn:E.
  - apply andb_prop in E. destruct E as [Ht Hf].
    apply negb_true_iff in Hf.
    unfold lift_result.
    destruct (as_text _) as [s|e]; [|discriminate].
    destruct (write_artifact_missing s (env_dir pdd) key w) as (w1 & Ew & _ & Hw);
      [now apply env_file_not_dir|exact Hf|].
    unfold env_dir in Ew. rewrite Ew. unfold kw_pop, ret. cbn [kwargs disk].
    intros H. injection H as <-. exact Hw.
  - unfold ret. intros H. injection H as <-. now rewrite app_nil_r.
Qed.

Lemma for_each_log as_text keys :
  NoDup keys ->
  (forall key, In key keys -> head_is slash key = false /\ key <> lock_name) ->
  forall w w',
    for_each keys (dump_env_key pdd as_text) w = (w', Ok tt) ->
    written (disk w') =
    written (disk w) ++ flat_map (env_write pdd as_text w) keys.
Proof.
  induction 1 as [|k keys Hni Hnd IH]; intros Hkeys w w' H.
  - injection H as <-. cbn. now rewrite app_nil_r.
  - cbn [for_each] in H. apply bind_ok in H. destruct H as (w1 & [] & H1 & H2).
    destruct (Hkeys k (or_introl eq_refl)) as [Hk Hl].
    rewrite (IH (fun x Hx => Hkeys x (or_intror Hx)) w1 w' H2).
    rewrite (env_key_log as_text k w w1 Hk H1). cbn [flat_map].
    rewrite <- !app_assoc. do 2 f_equal.
    apply flat_map_same. intros key Hin. apply env_write_same.
    destruct (Hkeys key (or_intror Hin)) as [Hk' Hl'].
    eapply (untouched_env_key pdd key k); eauto.
    intros ->. contradiction.
Qed.

Lemma dump_env_log w w' :
  dump_env pdd w = (w', Ok tt) ->
  written (disk w') =
  written (disk w) ++
  (if opt_truthy (dict_get (lit "suppress_env_files") (kwargs w)) then []
   else flat_map (env_write pdd dumps w) json_keys ++
        flat_map (env_write pdd (fun v => Ok (py_str v)) w) str_keys).
Proof.
  intros H. unfold dump_env in H.
  apply bind_ok in H. destruct H as (w0 & suppress & H0 & H).
  injection H0 as <- <-.
  destruct (opt_truthy (dict_get (lit "suppress_env_files") (kwargs w))).
  - cbn in H. injection H as <-. now rewrite app_nil_r.
  - cbn [negb] in H. apply bind_ok in H. destruct H as (w1 & [] & H1 & H2).
    assert (Hj : forall k, In k json_keys ->
                           head_is slash k = false /\ k <> lock_name).
    { intros k Hk'. apply env_keys_relative, in_or_app. now left. }
    assert (Hs : forall k, In k str_keys ->
                           head_is slash k = false /\ k <> lock_name).
    { intros k Hk'. apply env_keys_relative, in_or_app. now right. }
    pose proof env_keys_NoDup as Hnd. unfold env_keys in Hnd.
    rewrite (for_each_log _ str_keys (NoDup_app_remove_l _ _ Hnd) Hs w1 w' H2).
    rewrite (for_each_log _ json_keys (NoDup_app_remove_r _ _ Hnd) Hj w w1 H1).
    rewrite <- app_assoc. do 2 f_equal.
    apply flat_map_same. intros key Hin. apply env_write_same.
    destruct (Hs key Hin) as [Hk Hl].
    eapply untouched_for_each; eauto.
    + intros Hin'. revert Hin Hin'. clear. vm_compute. intuition congruence.
    + intros k Hk'. now apply Hj.
Qed.

End Logs.

Section WriteSet.
Context {L : PyLib}.

Lemma dump_artifacts_phases w w' :
  dict_has (lit "role") (kwargs w) = false ->
  dump_artifacts w = (w', Ok tt) ->
  exists pdd w1 w2 w3,
    resolve_private_data_dir w = (w1, Ok pdd) /\
    dump_playbook pdd w1 = (w2, Ok tt) /\
    dump_inventory pdd w2 = (w3, Ok tt) /\
    dump_env pdd w3 = (w', Ok tt).
Proof.
  intros Hrole H. unfold dump_artifacts in H.
  apply bind_ok in H. destruct H as (w1 & pdd & Hres & H).
  apply bind_ok in H. destruct H as (w0 & has_role & Hh & H).
  injection Hh as <- <-.
  assert (Hr1 : dict_has (lit "role") (kwargs w1) = false).
  { unfold dict_has.
    rewrite (keeps_resolve (lit "role") ltac:(keys_differ) w w1 _ Hres).
    exact Hrole. }
  rewrite Hr1 in H.
  apply bind_ok in H. destruct H as (w0 & [] & Hh & H). injection Hh as <-.
  apply bind_ok in H. destruct H as (w2 & [] & Hpb & H).
  apply bind_ok in H. destruct H as (w3 & [] & Hinv & Henv).
  exists pdd, w1, w2, w3. auto.
Qed.

Lemma resolve_written w w1 pdd :
  resolve_private_data_dir w = (w1, Ok pdd) ->
  written (disk w1) = written (disk w) /\
  dict_get (lit "private_data_dir") (kwargs w1) = Some (PStr pdd).
Proof.
  intros H. apply resolve_spec in H. destruct (opt_truthy _).
  - destruct H as [-> E]. auto.
  - destruct H as [-> _]. split; [reflexivity|]. apply dict_get_set_eq.
Qed.

Lemma directory_kept pdd w1 w2 w3 w' r2 r3 r4 :
  dump_playbook pdd w1 = (w2, r2) ->
  dump_inventory pdd w2 = (w3, r3) ->
  dump_env pdd w3 = (w', r4) ->
  keeps (lit "private_data_dir") w1 w'.
Proof.
  intros H2 H3 H4.
  eapply keeps_trans; [|eapply keeps_dump_env; eauto].
  - eapply keeps_trans; [eapply keeps_playbook|eapply keeps_inventory];
      eauto; keys_differ.
  - intros Hin. vm_compute in Hin. intuition discriminate.
Qed.

Lemma env_key_before_env pdd key w w1 w2 w3 r2 r3 :
  In key env_keys ->
  resolve_private_data_dir w = (w1, Ok pdd) ->
  dump_playbook pdd w1 = (w2, r2) ->
  dump_inventory pdd w2 = (w3, r3) ->
  untouched key (env_file pdd key) w w3.
Proof.
  intros Hin H1 H2 H3.
  destruct (env_keys_relative key Hin) as [Hk _].
  assert (Hne : key <> lit "private_data_dir" /\ key <> lit "playbook" /\
                key <> lit "inventory").
  { revert Hin. clear. intros Hin. vm_compute in Hin.
    repeat (destruct Hin as [<-|Hin]; [repeat split; keys_differ|]).
    destruct Hin. }
  destruct Hne as (N1 & N2 & N3).
  eapply untouched_trans; [eapply untouched_resolve; eauto|].
  eapply untouched_trans;
    [eapply untouched_playbook|eapply untouched_inventory]; eauto.
Qed.

End WriteSet.

(** The files a call of [dump_artifacts] writes, on a bag with no [role]
    key, in the order of the writes: at most [project/main.json] with
    [json.dumps] of the playbook (a mapping put in a list first), then at
    most [inventory/hosts.json] with [json.dumps] of an inventory mapping
    or [inventory/hosts] with an inventory string as it is, then, unless
    [suppress_env_files] is true, for each of [envvars], [extravars],
    [passwords], [settings] in turn the file [env/<key>] with [json.dumps]
    of the value, and for [ssh_key] and [cmdline] the file [env/<key>] with
    [str] of the value, each exactly when the value is true and the file is
    not on disk before the call.  Nothing else is written. *)
Theorem dump_artifacts_writes_these_files :
  forall (L : PyLib) (w w' : world),
    dict_has (lit "role") (kwargs w) = false ->
    dump_artifacts w = (w', Ok tt) ->
    exists pdd pb inv,
      dict_get (lit "private_data_dir") (kwargs w') = Some (PStr pdd) /\
      written (disk w') =
      written (disk w) ++ pb ++ inv ++
      (if opt_truthy (dict_get (lit "suppress_env_files") (kwargs w)) then []
       else flat_map (env_write pdd dumps w) json_keys ++
            flat_map (env_write pdd (fun v => Ok (py_str v)) w) str_keys) /\
      (pb = [] \/
       pb = [(path_join (project_dir pdd) (lit "main.json"),
              json_dumps (as_plays (dict_get (lit "playbook") (kwargs w))))]) /\
      (inv = [] \/
       (exists d, dict_get (lit "inventory") (kwargs w) = Some (PDict d) /\
                  inv = [(path_join (inventory_dir pdd) (lit "hosts.json"),
                          json_dumps (PDict d))]) \/
       (exists s, dict_get (lit "inventory") (kwargs w) = Some (PStr s) /\
                  inv = [(path_join (inventory_dir pdd) (lit "hosts"), s)])).
Proof.
  intros L w w' Hrole H.
  destruct (dump_artifacts_phases w w' Hrole H)
    as (pdd & w1 & w2 & w3 & H1 & H2 & H3 & H4).
  destruct (resolve_written w w1 pdd H1) as [Hw1 Hd1].
  destruct (playbook_log pdd w1 w2 H2) as (pb & Hw2 & Hpb & _).
  destruct (inventory_log pdd w2 w3 H3) as (inv & Hw3 & Hinv).
  pose proof (dump_env_log pdd w3 w' H4) as Hw4.
  assert (Hplay : keeps (lit "playbook") w w1).
  { eapply keeps_resolve; eauto. keys_differ. }
  assert (Hinvk : keeps (lit "inventory") w w2).
  { eapply keeps_trans; [eapply keeps_resolve|eapply keeps_playbook];
      eauto; keys_differ. }
  assert (Hsup : keeps (lit "suppress_env_files") w w3).
  { eapply keeps_trans; [eapply keeps_trans|].
    - eapply keeps_resolve; eauto. keys_differ.
    - eapply keeps_playbook; eauto. keys_differ.
    - eapply keeps_inventory; eauto. keys_differ. }
  unfold keeps in Hplay, Hinvk, Hsup.
  exists pdd, pb, inv. repeat apply conj.
  - rewrite <- Hd1. eapply directory_kept; eauto.
  - assert (He : forall as_text key, In key env_keys ->
                   env_write pdd as_text w3 key = env_write pdd as_text w key).
    { intros as_text key Hin. apply env_write_same.
      eapply env_key_before_env; eauto. }
    rewrite (flat_map_same (env_write pdd dumps w3) (env_write pdd dumps w))
      in Hw4 by (intros; apply He, in_or_app; auto).
    rewrite (flat_map_same (env_write pdd (fun v => Ok (py_str v)) w3)
                           (env_write pdd (fun v => Ok (py_str v)) w))
      in Hw4 by (intros; apply He, in_or_app; auto).
    rewrite Hw4, Hw3, Hw2, Hw1, Hsup, <- !app_assoc. reflexivity.
  - cbv zeta in Hpb. now rewrite Hplay in Hpb.
  - cbv zeta in Hinv. now rewrite Hinvk in Hinv.
Qed.

Lemma dump_artifacts_writes_witness :
  exists pdd pb inv,
    dict_get (lit "private_data_dir")
             (kwargs (fst (@dump_artifacts echo_lib sample_bag))) =
    Some (PStr pdd) /\
    written (disk (fst (@dump_artifacts echo_lib sample_bag))) =
    written (disk sample_bag) ++ pb ++ inv ++
    (if opt_truthy (dict_get (lit "suppress_env_files") (kwargs sample_bag))
     then []
     else flat_map (env_write pdd (@dumps echo_lib) sample_bag) json_keys ++
          flat_map (env_write pdd (fun v => Ok (@py_str echo_lib v)) sample_bag)
                   str_keys) /\
    (pb = [] \/
     pb = [(path_join (project_dir pdd) (lit "main.json"),
            @json_dumps echo_lib
              (as_plays (dict_get (lit "playbook") (kwargs sample_bag))))]) /\
    (inv = [] \/
     (exists d, dict_get (lit "inventory") (kwargs sample_bag) = Some (PDict d) /\
                inv = [(path_join (inventory_dir pdd) (lit "hosts.json"),
                        @json_dumps echo_lib (PDict d))]) \/
     (exists s, dict_get (lit "inventory") (kwargs sample_bag) = Some (PStr s) /\
                inv = [(path_join (inventory_dir pdd) (lit "hosts"), s)])).
Proof.
  apply (dump_artifacts_writes_these_files echo_lib sample_bag).
  - reflexivity.
  - vm_compute. reflexivity.
Defined.

(** ** dump_artifacts: the role shorthand, in a call *)

Lemma main_json_not_base {L : PyLib} pdd :
  path_join (project_dir pdd) (lit "main.json") <> pdd.
Proof.
  unfold project_dir. rewrite under_dir by side. intros E.
  apply base_longer in E. discriminate E.
Qed.

(** A call of [dump_artifacts] that returns, on a bag with a [role] key.
    The keys [role], [role_vars], [hosts], [role_skip_facts] and
    [roles_path] are gone afterwards; [playbook] holds the path of
    [project/main.json]; unless that file was on disk before the call, the
    call writes to it [json.dumps] of the one play made from the role: its
    [hosts] (default [all]), the role with its name and, when [role_vars]
    is given, its [vars], and [gather_facts: False] when [role_skip_facts]
    is true.  Every key other than these, [private_data_dir], [inventory]
    and the keys of [env/] keeps its value. *)
Theorem role_shorthand_becomes_a_play :
  forall (L : PyLib) (w w' : world),
    dict_has (lit "role") (kwargs w) = true ->
    dump_artifacts w = (w', Ok tt) ->
    exists pdd,
      let main := path_join (project_dir pdd) (lit "main.json") in
      dict_get (lit "private_data_dir") (kwargs w') = Some (PStr pdd) /\
      (forall k, In k role_keys -> dict_get k (kwargs w') = None) /\
      dict_get (lit "playbook") (kwargs w') = Some (PStr main) /\
      (exists new,
         written (disk w') = written (disk w) ++ new /\
         (path_exists (disk w) main = false ->
          In (main, json_dumps (role_play (kwargs w))) new)) /\
      (forall k, ~ In k (role_keys ++ touched_keys) -> keeps k w w').
Proof.
  intros L w w' Hrole H. unfold dump_artifacts in H.
  apply bind_ok in H. destruct H as (w1 & pdd & Hres & H).
  apply bind_ok in H. destruct H as (w0 & has_role & Hh & H).
  injection Hh as <- <-.
  assert (Hr1 : dict_has (lit "role") (kwargs w1) = true).
  { unfold dict_has.
    rewrite (keeps_resolve (lit "role") ltac:(keys_differ) w w1 _ Hres).
    exact Hrole. }
  rewrite Hr1 in H.
  apply bind_ok in H. destruct H as (w1' & [] & Hexp & H).
  apply bind_ok in H. destruct H as (w2 & [] & Hpb & H).
  apply bind_ok in H. destruct H as (w3 & [] & Hinv & Henv).
  destruct (resolve_written w w1 pdd Hres) as [Hw1 Hd1].
  destruct (expand_role_spec pdd w1 w1' Hexp) as (Hdisk & Hgone & Hplay).
  assert (Hsame : role_play (kwargs w1) = role_play (kwargs w)).
  { apply role_play_same. intros k Hk.
    apply (keeps_resolve k) with (w := w) (w' := w1) (r := Ok pdd); auto.
    intros ->. vm_compute in Hk.
    repeat (destruct Hk as [Hk|Hk]; [discriminate Hk|]). destruct Hk. }
  rewrite Hsame in Hplay.
  assert (Htruthy : opt_truthy (Some (role_play (kwargs w))) &&
                    isplaybook (as_plays (Some (role_play (kwargs w)))) = true).
  { reflexivity. }
  pose proof (playbook_spec pdd w1' w2 Hpb) as Hpath.
  cbv zeta in Hpath. rewrite Hplay, Htruthy in Hpath.
  destruct (playbook_log pdd w1' w2 Hpb) as (pb & Hw2 & Hpbs & Hlive).
  cbv zeta in Hpbs, Hlive. rewrite Hplay in Hpbs, Hlive.
  destruct (inventory_log pdd w2 w3 Hinv) as (inv & Hw3 & _).
  pose proof (dump_env_log pdd w3 w' Henv) as Hw4.
  assert (Hlater : forall k, k <> lit "playbook" -> k <> lit "inventory" ->
                             ~ In k env_keys -> keeps k w1' w').
  { intros k N1 N2 N3.
    eapply keeps_trans; [eapply keeps_trans|].
    - eapply keeps_playbook; eauto.
    - eapply keeps_inventory; eauto.
    - eapply keeps_dump_env; eauto. }
  exists pdd. cbv zeta. repeat apply conj.
  - rewrite <- Hd1.
    eapply keeps_trans; [|eapply directory_kept; eauto].
    eapply (keeps_expand_role pdd); eauto.
    intros Hin. vm_compute in Hin. intuition discriminate.
  - intros k Hk. rewrite <- (Hgone k Hk).
    destruct Hk as [<-|[<-|[<-|[<-|[<-|[]]]]]]; apply Hlater;
      try keys_differ;
      (intros Hin; vm_compute in Hin;
       repeat (destruct Hin as [Hin|Hin]; [discriminate Hin|]); destruct Hin).
  - rewrite <- Hpath.
    eapply keeps_trans; [eapply keeps_inventory|eapply keeps_dump_env]; eauto.
    + keys_differ.
    + intros Hin. vm_compute in Hin. intuition discriminate.
  - eexists. split.
    + rewrite Hw4, Hw3, Hw2, Hdisk, Hw1, <- !app_assoc. reflexivity.
    + intros Hex. apply in_or_app. left.
      assert (Hex' : path_exists (disk w1')
                       (path_join (project_dir pdd) (lit "main.json")) = false).
      { rewrite Hdisk. apply resolve_spec in Hres. destruct (opt_truthy _).
        - destruct Hres as [-> _]. exact Hex.
        - destruct Hres as [-> _]. cbn [disk].
          rewrite path_exists_store; [exact Hex|apply main_json_not_base]. }
      destruct Hpbs as [->| ->]; [now destruct (Hlive Htruthy Hex')|].
      now left.
  - intros k Hk.
    assert (N : k <> lit "private_data_dir" /\ k <> lit "playbook" /\
                k <> lit "inventory" /\ ~ In k env_keys /\
                ~ In k (role_keys ++ [lit "playbook"; lit "envvars"])).
    { repeat split; try (intros ->; apply Hk; vm_compute; tauto).
      - intros Hin. apply Hk. apply in_or_app. right. now do 3 right.
      - intros Hin. apply Hk. apply in_app_or in Hin.
        destruct Hin as [Hin|[<-|[<-|[]]]].
        + apply in_or_app. now left.
        + vm_compute. tauto.
        + vm_compute. tauto. }
    destruct N as (N1 & N2 & N3 & N4 & N5).
    eapply keeps_trans; [eapply keeps_trans|].
    + eapply keeps_resolve; eauto.
    + eapply (keeps_expand_role pdd); eauto.
    + now apply Hlater.
Qed.

Lemma role_shorthand_witness :
  exists pdd,
    dict_get (lit "private_data_dir")
             (kwargs (fst (@dump_artifacts echo_lib role_bag))) =
    Some (PStr pdd) /\
    (forall k, In k role_keys ->
               dict_get k (kwargs (fst (@dump_artifacts echo_lib role_bag))) = None) /\
    dict_get (lit "playbook") (kwargs (fst (@dump_artifacts echo_lib role_bag))) =
    Some (PStr (path_join (project_dir pdd) (lit "main.json"))) /\
    (exists new,
       written (disk (fst (@dump_artifacts echo_lib role_bag))) =
       written (disk role_bag) ++ new /\
       (path_exists (disk role_bag)
                    (path_join (project_dir pdd) (lit "main.json")) = false ->
        In (path_join (project_dir pdd) (lit "main.json"),
            @json_dumps echo_lib (role_play (kwargs role_bag))) new)) /\
    (forall k, ~ In k (role_keys ++ touched_keys) ->
               keeps k role_bag (fst (@dump_artifacts echo_lib role_bag))).
Proof.
  apply (role_shorthand_becomes_a_play echo_lib role_bag).
  - reflexivity.
  - vm_compute. reflexivity.
Defined.

(** ** cleanup_artifact_dir: an entry that is not a directory *)

Lemma listing_apart fs path names :
  NoDup (map fst (entries fs)) ->
  listdir fs path = Ok names ->
  let all_paths := sort_by (getmtime fs) (map (path_join path) names) in
  NoDup all_paths /\
  (forall p q, In p all_paths -> In q all_paths -> p <> q ->
               in_tree p q = false).
Proof.
  intros Hnd Hls all_paths.
  assert (Hnames : names = children path (entries fs)).
  { unfold listdir in Hls. destruct (lookup (entries fs) path) as [i|];
      [|discriminate]. destruct (kind i); try discriminate.
    now injection Hls as <-. }
  assert (Hperm : Permutation all_paths (map (path_join path) names)).
  { apply sort_by_perm. }
  split.
  - apply (Permutation_NoDup (Permutation_sym Hperm)).
    rewrite Hnames, children_paths. now apply NoDup_map_filter.
  - intros p q Hp Hq Hne.
    apply (Permutation_in _ Hperm) in Hp, Hq.
    apply in_map_iff in Hp, Hq.
    destruct Hp as (n & <- & Hn). destruct Hq as (m & <- & Hm).
    rewrite Hnames in Hn, Hm.
    apply children_valid in Hn, Hm. destruct Hn, Hm.
    rewrite siblings_apart by assumption. now apply text_eqb_neq.
Qed.

Lemma remove_oldest_stops ds : forall n fs f rest i c,
  (List.length ds < n)%nat ->
  NoDup (ds ++ f :: rest) ->
  (forall p q, In p (ds ++ f :: rest) -> In q (ds ++ f :: rest) -> p <> q ->
               in_tree p q = false) ->
  (forall p, In p ds -> exists j, lookup (entries fs) p = Some j /\ kind j = Dir) ->
  lookup (entries fs) f = Some i -> kind i = File c ->
  remove_oldest n (ds ++ f :: rest) fs =
  (prune ds fs, Raised NotADirectoryError).
Proof.
  induction ds as [|d ds IH]; intros n fs f rest i c Hn Hnd Hap Hd Hf Hk;
    (destruct n as [|n]; [cbn in Hn; lia|]).
  - cbn [app remove_oldest]. unfold rmtree. rewrite Hf, Hk.
    now rewrite prune_nil.
  - cbn [app remove_oldest].
    destruct (Hd d (or_introl eq_refl)) as (j & Hj & Hkj).
    rewrite (rmtree_prune fs d j Hj Hkj).
    cbn [app] in Hnd. inversion Hnd as [|? ? Hni Hnd']; subst.
    assert (Hout : forall q, In q (ds ++ f :: rest) ->
                             lookup (entries (prune [d] fs)) q =
                             lookup (entries fs) q).
    { intros q Hq. rewrite lookup_prune. cbn [existsb].
      rewrite Hap; [reflexivity|now left|now right|].
      intros ->. contradiction. }
    rewrite (IH n (prune [d] fs) f rest i c).
    + now rewrite prune_cons.
    + cbn in Hn. lia.
    + assumption.
    + intros p q Hp Hq. apply Hap; now right.
    + intros p Hp. destruct (Hd p (or_intror Hp)) as (k & Hk1 & Hk2).
      exists k. split; [|assumption]. rewrite Hout; [assumption|].
      apply in_or_app. now left.
    + rewrite Hout; [assumption|]. apply in_or_app. right. now left.
    + assumption.
Qed.

(** Rotation stops at the first entry to be removed that is a regular
    file: the call raises [NotADirectoryError], and the directories that
    came before it in the order of modification times are already
    removed. *)
Theorem rotation_stops_at_a_file :
  forall (fs : fsys) (path : text) (num_keep : Z) (names : list text)
         (ds rest : list text) (f : text) (i : inode) (c : text),
    NoDup (map fst (entries fs)) ->
    listdir fs path = Ok names ->
    (1 <= num_keep)%Z ->
    sort_by (getmtime fs) (map (path_join path) names) = ds ++ f :: rest ->
    (Z.of_nat (List.length ds) < Z.of_nat (List.length names) - num_keep)%Z ->
    (forall p, In p ds ->
       exists j, lookup (entries fs) p = Some j /\ kind j = Dir) ->
    lookup (entries fs) f = Some i -> kind i = File c ->
    cleanup_artifact_dir fs path num_keep =
    (prune ds fs, Raised NotADirectoryError) /\
    (forall p, In p ds -> lookup (entries (prune ds fs)) p = None) /\
    lookup (entries (prune ds fs)) f = Some i.
Proof.
  intros fs path num_keep names ds rest f i c Hnd Hls Hkeep Hsort Hlt Hd Hf Hk.
  destruct (listing_apart fs path names Hnd Hls) as [Hnd2 Hap].
  cbv zeta in Hnd2, Hap. rewrite Hsort in Hnd2, Hap.
  assert (Hlen : List.length (ds ++ f :: rest) = List.length names).
  { rewrite <- Hsort, (Permutation_length (sort_by_perm _ _ _)).
    apply length_map. }
  repeat split.
  - unfold cleanup_artifact_dir.
    assert (E : (num_keep <? 1)%Z = false) by (apply Z.ltb_ge; lia).
    rewrite E, Hls, Hsort, Hlen.
    apply (remove_oldest_stops ds _ fs f rest i c); auto. lia.
  - intros p Hp. rewrite lookup_prune.
    assert (E : existsb (fun r => in_tree r p) ds = true).
    { apply existsb_exists. exists p. split; [assumption|apply in_tree_refl]. }
    now rewrite E.
  - rewrite lookup_prune.
    assert (E : existsb (fun r => in_tree r f) ds = false).
    { destruct (existsb _ ds) eqn:E; [|reflexivity].
      apply existsb_exists in E. destruct E as (r & Hr & Hrf).
      rewrite Hap in Hrf; [discriminate| | |].
      - apply in_or_app. now left.
      - apply in_or_app. right. now left.
      - intros ->. apply (NoDup_app_disjoint _ _ Hnd2 f Hr). now left. }
    now rewrite E.
Qed.

Lemma rotation_stops_witness :
  cleanup_artifact_dir stray_fs (lit "/runs") 1 =
  (prune [lit "/runs/a"] stray_fs, Raised NotADirectoryError) /\
  (forall p, In p [lit "/runs/a"] ->
             lookup (entries (prune [lit "/runs/a"] stray_fs)) p = None) /\
  lookup (entries (prune [lit "/runs/a"] stray_fs)) (lit "/runs/notes") =
  Some {| kind := File (lit "n"); mtime := 2 |}.
Proof.
  apply (rotation_stops_at_a_file stray_fs (lit "/runs") 1
           [lit "a"; lit "notes"; lit "c"] [lit "/runs/a"] [lit "/runs/c"]
           (lit "/runs/notes") {| kind := File (lit "n"); mtime := 2 |} (lit "n")).
  - vm_compute. repeat constructor; cbn; intuition discriminate.
  - reflexivity.
  - lia.
  - reflexivity.
  - vm_compute. reflexivity.
  - intros p [<-|[]]. eexists. split; reflexivity.
  - reflexivity.
  - reflexivity.
Defined.

(** ** OutputEventFilter: a payload that is not a mapping *)

Lemma emit_chunks_buffer {L : PyLib} chunks : forall s ed s1 ed1 tr,
  emit_chunks s ed chunks = (s1, ed1, tr) -> buffer s1 = buffer s.
Proof.
  induction chunks as [|c cs IH]; cbn [emit_chunks]; intros s ed s1 ed1 tr H.
  - now injection H as <- _ _.
  - destruct (emit_chunk s ed c) as [[s' ed'] e] eqn:E1.
    destruct (emit_chunks s' ed' cs) as [[s'' ed''] es] eqn:E2.
    injection H as <- _ _. apply IH in E2. rewrite E2.
    unfold emit_chunk in E1. cbv zeta in E1. now injection E1 as <- _ _.
Qed.

(** A token whose payload decodes to a value that is true and is not a
    mapping (a number, a string, a list, [true]) makes [write] raise
    [AttributeError], when the search finds it; the buffer is left as it
    is, token included. *)
Theorem non_mapping_payload_raises :
  forall (L : PyLib) (opt : options) (s : OutputEventFilter)
         (data before g rest : text) (v : pyval),
    contains marker (last_chunk s ++ data) = true ->
    re_search (buffer s ++ data) = Some (before, g, rest) ->
    b64_json_loads (re_sub_cursor g) = Ok v ->
    truthy v = true ->
    (forall d, v <> PDict d) ->
    snd (write opt s data) = Raised AttributeError /\
    buffer (fst (fst (write opt s data))) = buffer s ++ data.
Proof.
  intros L opt s data before g rest v Hm Hs Hv Ht Hnd.
  pose proof (write_searches opt s data Hm) as Hw.
  cbn [search_loop] in Hw.
  change (buffer (with_last_chunk (with_buffer s (buffer s ++ data)) data))
    with (buffer s ++ data) in Hw.
  rewrite Hs in Hw. unfold decode_payload in Hw. rewrite Hv in Hw.
  unfold _emit_event in Hw. unfold or_empty in Hw. rewrite Ht in Hw.
  destruct (match pending _ with
            | Some d => (d, [before])
            | None => if negb (is_nil before)
                      then ([(lit "event", PStr (lit "verbose"))], splitlines before)
                      else ([], [])
            end) as [ed0 chunks].
  destruct (emit_chunks _ ed0 chunks) as [[s1 ed1] tr1] eqn:E.
  apply emit_chunks_buffer in E.
  destruct v; try (injection Hw as <-; cbn [fst snd]; split; [reflexivity|exact E]);
    try discriminate.
  now destruct (Hnd d).
Qed.

Lemma non_mapping_payload_witness :
  snd (@write number_lib plain_options new_filter sample_stream) =
  Raised AttributeError /\
  buffer (fst (fst (@write number_lib plain_options new_filter sample_stream))) =
  buffer new_filter ++ sample_stream.
Proof.
  apply (non_mapping_payload_raises number_lib plain_options new_filter
           sample_stream (lit "out" ++ [LF])
           (lit "AAAA" ++ [27; 91]%N ++ lit "1D") (lit "x") (PInt 1)).
  - reflexivity.
  - vm_compute. reflexivity.
  - reflexivity.
  - reflexivity.
  - discriminate.
Defined.

(** ** dump_artifacts: a playbook given as bytes *)

(** [isplaybook] accepts a [bytes] value, which is iterable and is neither
    a [str] nor a mapping, and [json.dumps] rejects it: with an existing
    [private_data_dir], no [role] and a non-empty [bytes] playbook, the call
    raises [TypeError] at the playbook, and the bag and the disk are as
    they were. *)
Theorem bytes_playbook_raises_type_error :
  forall (L : PyLib) (w : world) (p : text) (b : list N),
    dict_get (lit "private_data_dir") (kwargs w) = Some (PStr p) ->
    p <> [] ->
    path_exists (disk w) p = true ->
    dict_has (lit "role") (kwargs w) = false ->
    dict_get (lit "playbook") (kwargs w) = Some (PBytes b) ->
    b <> [] ->
    isplaybook (PBytes b) = true /\
    isinventory (PBytes b) = false /\
    dump_artifacts w = (w, Raise TypeError).
Proof.
  intros L w p b Hp Hne Hex Hrole Hpb Hb. repeat split.
  unfold dump_artifacts, resolve_private_data_dir, bind, kw_get.
  rewrite Hp. destruct p as [|c p]; [contradiction|].
  cbn [opt_truthy truthy is_nil negb]. unfold ret, exists_.
  rewrite Hex, Hrole. unfold dump_playbook, bind, kw_get. rewrite Hpb.
  destruct b as [|x b]; [contradiction|]. reflexivity.
Qed.

Lemma bytes_playbook_witness :
  isplaybook (PBytes [104%N]) = true /\
  isinventory (PBytes [104%N]) = false /\
  @dump_artifacts echo_lib
    {| kwargs := [(lit "private_data_dir", PStr (lit "/runs"));
                  (lit "playbook", PBytes [104%N])];
       disk := runs_fs |} =
  ({| kwargs := [(lit "private_data_dir", PStr (lit "/runs"));
                 (lit "playbook", PBytes [104%N])];
      disk := runs_fs |}, Raise TypeError).
Proof.
  apply (bytes_playbook_raises_type_error echo_lib _ (lit "/runs") [104%N]).
  - reflexivity.
  - discriminate.
  - reflexivity.
  - reflexivity.
  - reflexivity.
  - discriminate.
Defined.

(** ** open_fifo_write with text or bytes *)



(** ** dump_artifacts, called again *)

Lemma dict_set_same k v d : dict_get k d = Some v -> dict_set k v d = d.
Proof.
  induction d as [|[k' v'] d IH]; [discriminate|]. cbn [dict_get dict_set].
  destruct (text_eqb k k') eqn:E.
  - intros H. injection H as <-. apply text_eqb_eq in E. now subst.
  - intros H. now rewrite IH.
Qed.

Lemma path_join_abs a b : isabs b = true -> path_join a b = b.
Proof. unfold isabs, path_join. now intros ->. Qed.

Lemma base_abs d x : isabs d = true -> isabs (base d ++ x) = true.
Proof.
  destruct d as [|c d]; [discriminate|]. unfold base, isabs.
  destruct (is_nil (c :: d) || ends_with [slash] (c :: d)); cbn [app head_is];
    auto.
Qed.

Lemma under_abs d s f :
  isabs d = true -> head_is slash s = false -> head_is slash f = false ->
  s <> [] -> ends_with [slash] s = false ->
  isabs (path_join (path_join d s) f) = true.
Proof. intros Hd ? ? ? ?. rewrite under_dir by assumption. now apply base_abs. Qed.

Lemma stays_refl p w : stays p w w.
Proof. intros H. exact H. Qed.

Lemma stays_trans p a b c : stays p a b -> stays p b c -> stays p a c.
Proof. unfold stays. auto. Qed.

Lemma path_exists_store_kept fs q k p :
  path_exists fs p = true -> path_exists (store fs q k) p = true.
Proof.
  intros H. destruct (list_eq_dec N.eq_dec p q) as [->|Hne].
  - apply path_exists_stored.
  - now rewrite path_exists_store.
Qed.

Section Again.
Context {L : PyLib}.

Lemma locked_write_stays fs path fn obj p :
  p <> path_join path lock_name ->
  path_exists fs p = true ->
  path_exists (locked_write fs path fn obj) p = true.
Proof.
  intros Hne H. unfold locked_write.
  rewrite path_exists_remove by assumption.
  change (path_exists (log_write ?f _ _) p) with (path_exists f p).
  apply path_exists_store_kept.
  destruct (path_exists fs (path_join path lock_name)); auto.
  now apply path_exists_store_kept.
Qed.

Lemma dump_artifact_stays fs obj path name fs' r p :
  dump_artifact fs obj path (Some name) = (fs', r) ->
  p <> path_join path lock_name ->
  path_exists fs p = true -> path_exists fs' p = true.
Proof.
  intros H Hne Hp. revert H. unfold dump_artifact.
  set (fs1 := if negb (path_exists fs path) then store fs path Dir else fs).
  assert (H1 : path_exists fs1 p = true).
  { unfold fs1. destruct (negb (path_exists fs path)); auto.
    now apply path_exists_store_kept. }
  destruct (path_exists fs1 (path_join path name)).
  - destruct (read_text fs1 (path_join path name)) as [c|e].
    + destruct (negb (text_eqb (sha1_hexdigest obj) (sha1_hexdigest c)));
        intros H; injection H as <- _; auto.
      now apply locked_write_stays.
    + intros H. now injection H as <- _.
  - intros H. injection H as <- _. now apply locked_write_stays.
Qed.

Lemma dump_artifact_exists fs obj path name fs' fn :
  dump_artifact fs obj path (Some name) = (fs', Ok fn) ->
  path_join path name <> path_join path lock_name ->
  path_exists fs' (path_join path name) = true.
Proof.
  intros H Hne. revert H. unfold dump_artifact.
  set (fs1 := if negb (path_exists fs path) then store fs path Dir else fs).
  assert (Hw : path_exists (locked_write fs1 path (path_join path name) obj)
                 (path_join path name) = true).
  { destruct (locked_write_target fs1 path (path_join path name) obj Hne)
      as [(t & Ht) _]. unfold path_exists. now rewrite Ht. }
  destruct (path_exists fs1 (path_join path name)) eqn:Ex.
  - destruct (read_text fs1 (path_join path name)) as [c|e]; [|discriminate].
    destruct (negb (text_eqb (sha1_hexdigest obj) (sha1_hexdigest c)));
      intros H; injection H as <- _; auto.
  - intros H. now injection H as <- _.
Qed.

Lemma stays_write p obj path name :
  p <> path_join path lock_name ->
  always (stays p) (write_artifact obj path name).
Proof.
  intros Hne w w' r H Hp. unfold write_artifact in H.
  destruct (dump_artifact (disk w) obj path (Some name)) as [fs r0] eqn:E.
  injection H as <- _. cbn [disk]. eapply dump_artifact_stays; eauto.
Qed.

Lemma stays_set p k v : always (stays p) (kw_set k v).
Proof. intros w w' r H Hp. now injection H as <- _. Qed.

Lemma stays_pop p k : always (stays p) (kw_pop k).
Proof. intros w w' r H Hp. now injection H as <- _. Qed.

Variable pdd : text.

Lemma stays_playbook p :
  p <> path_join (project_dir pdd) lock_name ->
  always (stays p) (dump_playbook pdd).
Proof.
  intros Hne.
  apply (always_playbook (stays p));
    [apply stays_refl|apply stays_trans| |intros; apply stays_set].
  intros obj. now apply stays_write.
Qed.

Lemma stays_inventory p :
  p <> path_join (inventory_dir pdd) lock_name ->
  always (stays p) (dump_inventory pdd).
Proof.
  intros Hne.
  apply (always_inventory (stays p));
    [apply stays_refl|apply stays_trans| | |intros; apply stays_set];
    intros obj; now apply stays_write.
Qed.

Lemma stays_dump_env p :
  p <> path_join (env_dir pdd) lock_name ->
  always (stays p) (dump_env pdd).
Proof.
  intros Hne.
  apply (always_dump_env (stays p));
    [apply stays_refl|apply stays_trans| |intros; apply stays_pop].
  intros key s _. now apply stays_write.
Qed.

(** The phases on a bag they have nothing to do for. *)

Lemma resolve_settled w :
  dict_get (lit "private_data_dir") (kwargs w) = Some (PStr pdd) ->
  isabs pdd = true -> path_exists (disk w) pdd = true ->
  resolve_private_data_dir w = (w, Ok pdd).
Proof.
  intros Hp Ha Hex. unfold resolve_private_data_dir, bind, kw_get.
  rewrite Hp. destruct pdd as [|c p]; [discriminate|].
  cbn [opt_truthy truthy is_nil negb]. unfold ret, exists_. now rewrite Hex.
Qed.

Lemma playbook_settled w :
  opt_truthy (dict_get (lit "playbook") (kwargs w)) &&
  isplaybook (as_plays (dict_get (lit "playbook") (kwargs w))) = false ->
  dump_playbook pdd w = (w, Ok tt).
Proof.
  intros H. unfold dump_playbook, bind, kw_get. cbv zeta.
  destruct (opt_truthy _); [|reflexivity]. cbn [andb] in H. now rewrite H.
Qed.

Lemma world_same w kw :
  kw = kwargs w -> {| kwargs := kw; disk := disk w |} = w.
Proof. intros ->. now destruct w. Qed.

Lemma inventory_settled_idle w :
  inventory_settled w -> dump_inventory pdd w = (w, Ok tt).
Proof.
  unfold inventory_settled, dump_inventory, bind, kw_get. cbv zeta.
  destruct (dict_get (lit "inventory") (kwargs w)) as [[]|] eqn:E;
    try reflexivity.
  - destruct (truthy (PStr s)); [|reflexivity]. intros H.
    destruct (H eq_refl) as [Ha Hex]. unfold exists_.
    rewrite (path_join_abs _ s Ha), Hex. cbn [negb]. rewrite Ha.
    unfold kw_set. f_equal. apply world_same. now apply dict_set_same.
  - intros ->. reflexivity.
Qed.

Lemma inventory_settles w w' :
  isabs pdd = true ->
  dump_inventory pdd w = (w', Ok tt) -> inventory_settled w'.
Proof.
  intros Habs. unfold dump_inventory, bind, kw_get. cbv zeta.
  assert (Hpath : forall name, head_is slash name = false ->
                    isabs (path_join (inventory_dir pdd) name) = true).
  { intros name Hn. apply under_abs; auto; side. }
  assert (Hset : forall t w1,
             isabs t = true -> path_exists (disk w1) t = true ->
             kw_set (lit "inventory") (PStr t) w1 = (w', Ok tt) ->
             inventory_settled w').
  { intros t w1 Ha Hex H. injection H as <-. unfold inventory_settled.
    cbn [kwargs disk]. rewrite dict_get_set_eq. auto. }
  destruct (dict_get (lit "inventory") (kwargs w)) as [[]|] eqn:E;
    try (intros H; injection H as <-; unfold inventory_settled; now rewrite E).
  - destruct (truthy (PStr s)) eqn:Et.
    2:{ intros H. injection H as <-. unfold inventory_settled. rewrite E.
        rewrite Et. discriminate. }
    unfold exists_. fold (inventory_dir pdd).
    destruct (path_exists (disk w) (path_join (inventory_dir pdd) s)) eqn:Ex;
      cbn [negb].
    + destruct (isabs s) eqn:Ea.
      * apply Hset; auto. now rewrite (path_join_abs _ s Ea) in Ex.
      * apply Hset; auto.
    + destruct (write_artifact _ _ _ w) as [w1 [fn|e]] eqn:Ew; [|discriminate].
      unfold write_artifact in Ew.
      destruct (dump_artifact (disk w) s (inventory_dir pdd) (Some (lit "hosts")))
        as [fs r0] eqn:Ed.
      injection Ew as <- ->.
      pose proof (dump_artifact_name _ _ _ _ _ _ Ed) as ->.
      apply Hset; [now apply Hpath|]. cbn [disk].
      eapply dump_artifact_exists; eauto.
      unfold inventory_dir. apply under_dir_differ; side.
  - destruct (truthy (PDict d)) eqn:Et.
    2:{ intros H. injection H as <-. unfold inventory_settled. now rewrite E. }
    unfold lift_result. destruct (dumps _) as [obj|e]; [|discriminate].
    fold (inventory_dir pdd).
    destruct (write_artifact _ _ _ w) as [w1 [fn|e]] eqn:Ew; [|discriminate].
    unfold write_artifact in Ew.
    destruct (dump_artifact (disk w) obj (inventory_dir pdd)
                (Some (lit "hosts.json"))) as [fs r0] eqn:Ed.
    injection Ew as <- ->.
    pose proof (dump_artifact_name _ _ _ _ _ _ Ed) as ->.
    apply Hset; [now apply Hpath|]. cbn [disk].
    eapply dump_artifact_exists; eauto.
    unfold inventory_dir. apply under_dir_differ; side.
Qed.

Lemma inventory_settled_kept w w' :
  inventory_settled w ->
  keeps (lit "inventory") w w' ->
  (forall s, dict_get (lit "inventory") (kwargs w) = Some (PStr s) ->
             stays s w w') ->
  inventory_settled w'.
Proof.
  unfold inventory_settled, keeps. intros H Hk Hs. rewrite Hk.
  destruct (dict_get (lit "inventory") (kwargs w)) as [[]|]; auto.
  intros Ht. destruct (H Ht) as [Ha Hex]. split; [assumption|].
  now apply (Hs s eq_refl).
Qed.

Lemma env_settled_idle w :
  (forall key, In key env_keys -> to_dump pdd key w = false) ->
  dump_env pdd w = (w, Ok tt).
Proof.
  intros H. unfold dump_env, bind, kw_get.
  destruct (opt_truthy (dict_get (lit "suppress_env_files") (kwargs w))) eqn:Es;
    [reflexivity|]. cbn [negb].
  assert (Hkey : forall as_text key, In key env_keys ->
                   dump_env_key pdd as_text key w = (w, Ok tt)).
  { intros as_text key Hin. specialize (H key Hin). unfold to_dump in H.
    rewrite Es in H. cbn [negb andb] in H.
    unfold dump_env_key, bind, kw_get, exists_. fold (env_file pdd key).
    now rewrite H. }
  assert (Hloop : forall as_text keys, (forall k, In k keys -> In k env_keys) ->
                    for_each keys (dump_env_key pdd as_text) w = (w, Ok tt)).
  { intros as_text keys. induction keys as [|k keys IH]; intros Hin;
      [reflexivity|]. cbn [for_each]. unfold bind.
    rewrite Hkey by (apply Hin; now left).
    apply IH. intros x Hx. apply Hin. now right. }
  rewrite Hloop by (intros; apply in_or_app; auto).
  apply Hloop. intros; apply in_or_app; auto.
Qed.

Lemma env_settles w w' :
  dump_env pdd w = (w', Ok tt) ->
  forall key, In key env_keys -> to_dump pdd key w' = false.
Proof.
  intros H key Hin.
  pose proof (dump_env_turn pdd w w' H key Hin) as Ht.
  destruct (to_dump pdd key w) eqn:E.
  - destruct Ht as (_ & Hg & _). unfold to_dump. rewrite Hg.
    cbn [opt_truthy]. now rewrite andb_false_r.
  - rewrite (to_dump_same pdd key w w'); auto.
    eapply keeps_dump_env; eauto.
    intros Hin'. vm_compute in Hin'.
    repeat (destruct Hin' as [Hin'|Hin']; [discriminate Hin'|]). destruct Hin'.
Qed.

End Again.

Section AgainFacts.
Context {L : PyLib}.

Lemma resolve_exists w w1 pdd :
  resolve_private_data_dir w = (w1, Ok pdd) -> path_exists (disk w1) pdd = true.
Proof.
  unfold resolve_private_data_dir, bind, kw_get.
  destruct (opt_truthy (dict_get (lit "private_data_dir") (kwargs w))).
  - destruct (dict_get (lit "private_data_dir") (kwargs w)) as [[]|];
      try discriminate.
    unfold ret, exists_. destruct (path_exists (disk w) s) eqn:E;
      try discriminate.
    intros H. now injection H as <- <-.
  - unfold make_temp_dir, kw_set, ret, exists_. cbn [kwargs disk].
    rewrite path_exists_stored. intros H. injection H as <- <-.
    apply path_exists_stored.
Qed.

Lemma lock_not_base pdd s :
  head_is slash s = false -> s <> [] -> ends_with [slash] s = false ->
  pdd <> path_join (path_join pdd s) lock_name.
Proof.
  intros H1 H2 H3 E. symmetry in E. rewrite under_dir in E by side.
  apply base_longer in E. destruct s; [contradiction|discriminate E].
Qed.

Lemma dump_artifacts_steps w w' :
  dump_artifacts w = (w', Ok tt) ->
  exists pdd w1 wa w2 w3,
    resolve_private_data_dir w = (w1, Ok pdd) /\
    disk wa = disk w1 /\
    keeps (lit "private_data_dir") w1 wa /\
    dict_get (lit "role") (kwargs wa) = None /\
    dump_playbook pdd wa = (w2, Ok tt) /\
    dump_inventory pdd w2 = (w3, Ok tt) /\
    dump_env pdd w3 = (w', Ok tt).
Proof.
  intros H. unfold dump_artifacts in H.
  apply bind_ok in H. destruct H as (w1 & pdd & Hres & H).
  apply bind_ok in H. destruct H as (w0 & has_role & Hh & H).
  injection Hh as <- <-.
  apply bind_ok in H. destruct H as (wa & [] & Hexp & H).
  apply bind_ok in H. destruct H as (w2 & [] & Hpb & H).
  apply bind_ok in H. destruct H as (w3 & [] & Hinv & Henv).
  exists pdd, w1, wa, w2, w3. repeat split; auto.
  - destruct (dict_has (lit "role") (kwargs w1)).
    + now destruct (expand_role_spec pdd w1 wa Hexp) as (-> & _).
    + now injection Hexp as <-.
  - destruct (dict_has (lit "role") (kwargs w1)).
    + eapply (keeps_expand_role pdd); eauto.
      intros Hin. vm_compute in Hin.
      repeat (destruct Hin as [Hin|Hin]; [discriminate Hin|]). destruct Hin.
    + injection Hexp as <-. apply keeps_refl.
  - destruct (dict_has (lit "role") (kwargs w1)) eqn:E.
    + destruct (expand_role_spec pdd w1 wa Hexp) as (_ & Hg & _).
      apply Hg. now left.
    + injection Hexp as <-. unfold dict_has in E.
      now destruct (dict_get (lit "role") (kwargs w1)).
Qed.

End AgainFacts.

(** A second call of [dump_artifacts] on the bag a first call left, when
    the directory of the run is an absolute path: it returns, and changes
    neither the bag nor the disk, so nothing is written twice.  (An
    inventory given as the path of the lock file of [env/] is set
    aside.) *)
Theorem dump_artifacts_again_changes_nothing :
  forall (L : PyLib) (w w' : world) (pdd : text),
    dump_artifacts w = (w', Ok tt) ->
    dict_get (lit "private_data_dir") (kwargs w') = Some (PStr pdd) ->
    isabs pdd = true ->
    (forall s, dict_get (lit "inventory") (kwargs w') = Some (PStr s) ->
               s <> path_join (env_dir pdd) lock_name) ->
    dump_artifacts w' = (w', Ok tt).
Proof.
  intros L w w' pdd H Hpdd Habs Hlock.
  destruct (dump_artifacts_steps w w' H)
    as (pdd0 & w1 & wa & w2 & w3 & H1 & Hdisk & Hkd & Hrole & H2 & H3 & H4).
  destruct (resolve_written w w1 pdd0 H1) as [_ Hd1].
  assert (Hd : dict_get (lit "private_data_dir") (kwargs w') = Some (PStr pdd0)).
  { rewrite <- Hd1, <- Hkd. eapply directory_kept; eauto. }
  rewrite Hd in Hpdd. injection Hpdd as ->.
  assert (Hex : path_exists (disk w') pdd = true).
  { pose proof (resolve_exists w w1 pdd H1) as Hex1. rewrite <- Hdisk in Hex1.
    eapply (stays_dump_env pdd pdd); eauto; [apply lock_not_base; side|].
    eapply (stays_inventory pdd pdd); eauto; [apply lock_not_base; side|].
    eapply (stays_playbook pdd pdd); eauto. apply lock_not_base; side. }
  assert (Hnorole : dict_has (lit "role") (kwargs w') = false).
  { unfold dict_has.
    assert (Hk : keeps (lit "role") wa w').
    { eapply keeps_trans; [eapply keeps_trans|].
      - eapply keeps_playbook; eauto. keys_differ.
      - eapply keeps_inventory; eauto. keys_differ.
      - eapply keeps_dump_env; eauto.
        intros Hin. vm_compute in Hin.
        repeat (destruct Hin as [Hin|Hin]; [discriminate Hin|]). destruct Hin. }
    unfold keeps in Hk. now rewrite Hk, Hrole. }
  assert (Hplay : opt_truthy (dict_get (lit "playbook") (kwargs w')) &&
                  isplaybook (as_plays (dict_get (lit "playbook") (kwargs w')))
                  = false).
  { assert (Hk : keeps (lit "playbook") w2 w').
    { eapply keeps_trans; [eapply keeps_inventory|eapply keeps_dump_env]; eauto.
      - keys_differ.
      - intros Hin. vm_compute in Hin.
        repeat (destruct Hin as [Hin|Hin]; [discriminate Hin|]). destruct Hin. }
    unfold keeps in Hk. rewrite Hk.
    pose proof (playbook_spec pdd wa w2 H2) as Hs. cbv zeta in Hs. rewrite Hs.
    destruct (opt_truthy (dict_get (lit "playbook") (kwargs wa)) &&
              isplaybook (as_plays (dict_get (lit "playbook") (kwargs wa))))
      eqn:E; [apply andb_false_r|exact E]. }
  assert (Hinv : inventory_settled w').
  { assert (Hk : keeps (lit "inventory") w3 w').
    { eapply keeps_dump_env; eauto.
      intros Hin. vm_compute in Hin.
      repeat (destruct Hin as [Hin|Hin]; [discriminate Hin|]). destruct Hin. }
    apply (inventory_settled_kept w3 w'); auto.
    - eapply inventory_settles; eauto.
    - intros s Hs. eapply (stays_dump_env pdd s); eauto.
      apply Hlock. unfold keeps in Hk. now rewrite Hk. }
  unfold dump_artifacts, bind.
  rewrite (resolve_settled pdd w' Hd Habs Hex), Hnorole. unfold ret.
  rewrite (playbook_settled pdd w' Hplay).
  rewrite (inventory_settled_idle pdd w' Hinv).
  apply env_settled_idle. eapply env_settles; eauto.
Qed.

Lemma dump_artifacts_again_witness :
  @dump_artifacts echo_lib (fst (@dump_artifacts echo_lib sample_bag)) =
  (fst (@dump_artifacts echo_lib sample_bag), Ok tt).
Proof.
  apply (dump_artifacts_again_changes_nothing echo_lib sample_bag _ (lit "/tmp/t")).
  - vm_compute. reflexivity.
  - vm_compute. reflexivity.
  - reflexivity.
  - intros s Hs. vm_compute in Hs. injection Hs as <-. keys_differ.
Defined.

(** With a relative directory the second call is not idle: the path the
    first call left as the inventory does not name a file under
    [inventory/], and is written to [inventory/hosts] as if it were the
    inventory itself. *)
Lemma dump_artifacts_again_with_a_relative_directory :
  let w := {| kwargs := [(lit "private_data_dir", PStr (lit "d"));
                         (lit "inventory", PDict [(lit "a", PInt 1)])];
              disk := store empty_fs (lit "d") Dir |} in
  let w1 := fst (@dump_artifacts echo_lib w) in
  let w2 := fst (@dump_artifacts echo_lib w1) in
  dict_get (lit "inventory") (kwargs w1) =
  Some (PStr (lit "d/inventory/hosts.json")) /\
  written (disk w2) =
  written (disk w1) ++ [(lit "d/inventory/hosts", lit "d/inventory/hosts.json")] /\
  dict_get (lit "inventory") (kwargs w2) = Some (PStr (lit "d/inventory/hosts")).
Proof. vm_compute. repeat split. Qed.
